(** * Block sparse matrix engine of ceres-solver (block_sparse_matrix.cc)

    A shallow embedding of [ceres::internal::BlockSparseMatrix] and the
    properties its specification states about it.

    Conventions of the embedding.
    - [int] is [Z], taken to be 32 bits wide.  Signed overflow is undefined
      behaviour in C++: the sums and products the constructor and
      CreateDiagonalMatrix compute in [int] are [Undefined] when they leave
      the range of [int], and the arithmetic of a defined execution is the
      arithmetic of [Z].
    - [double] is modelled in exact arithmetic, as [Z]: the operations the
      engine applies to scalars are [0], [+] and [*] only.  These are the
      finite scalars; [double] and [NonFinite] add the infinities and NaN
      where a property depends on them.
    - A [double*] argument is an optional list: [None] is the null pointer,
      [Some l] points at the first element of an array holding [l].  Pointer
      arithmetic [p + k] is carried as a separate offset argument.
    - Methods run in a state and error monad whose state is the object the
      method is called on; reading or writing outside an array, or through
      the null pointer, is [Undefined]. *)

From Stdlib Require Import ZArith Lia String.
From stdpp Require Import base decidable option list list_numbers.

Local Open Scope Z_scope.

(** ** Outcomes of a call *)

Inductive outcome (S A : Type) : Type :=
| Ok (a : A) (s : S)            (* normal return, state after the call *)
| Throw (what : string) (s : S) (* a C++ exception leaves the call *)
| Fatal                         (* a glog CHECK failed: the process aborts *)
| Undefined.                    (* undefined behaviour *)

Arguments Ok {S A} a s.
Arguments Throw {S A} what s.
Arguments Fatal {S A}.
Arguments Undefined {S A}.

Definition M (S A : Type) : Type := S -> outcome S A.

Definition ret {S A} (a : A) : M S A := fun s => Ok a s.

Definition bind {S A B} (c : M S A) (k : A -> M S B) : M S B :=
  fun s =>
    match c s with
    | Ok a s' => k a s'
    | Throw w s' => Throw w s'
    | Fatal => Fatal
    | Undefined => Undefined
    end.

Notation "'let*' x ':=' c 'in' k" := (bind c (fun x => k))
  (at level 10, x pattern, c at level 100, k at level 200).

Definition get {S} : M S S := fun s => Ok s s.
Definition put {S} (s : S) : M S unit := fun _ => Ok tt s.
Definition throw {S A} (what : string) : M S A := fun s => Throw what s.
Definition fatal {S A} : M S A := fun _ => Fatal.
Definition undefined {S A} : M S A := fun _ => Undefined.

(** A method call [obj->c] on an object the caller holds: the callee runs on
    [obj], the caller gets the result and the object as the call left it. *)
Definition on {S T A} (obj : T) (c : M T A) : M S (A * T) :=
  fun s =>
    match c obj with
    | Ok a obj' => Ok (a, obj') s
    | Throw w _ => Throw w s
    | Fatal => Fatal
    | Undefined => Undefined
    end.

(** [for (...) body] over the elements of [l], threading the loop-carried
    variables [b]. *)
Fixpoint forM {S A B} (l : list A) (body : A -> B -> M S B) (b : B) : M S B :=
  match l with
  | [] => ret b
  | a :: l' => let* b' := body a b in forM l' body b'
  end.

(** The values [0, 1, ..., n-1] taken by [i] in [for (int i = 0; i < n; ++i)]. *)
Definition range (n : Z) : list Z := seqZ 0 n.

(** ** Arrays *)

Definition index {A} (l : list A) (i : Z) : option A :=
  if decide (0 <= i) then l !! Z.to_nat i else None.

(** [v[i]] on a [std::vector]: out of range is undefined behaviour. *)
Definition vec_at {S A} (v : list A) (i : Z) : M S A :=
  match index v i with
  | Some a => ret a
  | None => undefined
  end.

(** A [double*]: [None] is [NULL]. *)
Definition ptr : Type := option (list Z).

(** [p[i]] read. *)
Definition load {S} (p : ptr) (i : Z) : M S Z :=
  match p with
  | None => undefined
  | Some l => vec_at l i
  end.

(** [p[i] = v]. *)
Definition store {S} (p : ptr) (i : Z) (v : Z) : M S ptr :=
  match p with
  | None => undefined
  | Some l =>
      match index l i with
      | Some _ => ret (Some (<[Z.to_nat i := v]> l))
      | None => undefined
      end
  end.

(** [std::fill(p, p + n, v)]. *)
Definition fill {S} (p : ptr) (n : Z) (v : Z) : M S ptr :=
  if decide (0 <= n) then forM (range n) (fun i p => store p i v) p
  else undefined.

(** [new double[n]]: a negative [n] throws [std::bad_array_new_length]; the
    fresh array holds whatever the memory held, given by [heap]. *)
Definition new_array {S} (heap : nat -> Z) (n : Z) : M S (list Z) :=
  if decide (0 <= n) then ret (heap <$> seq 0 (Z.to_nat n))
  else throw "std::bad_array_new_length".

(** ** Arithmetic on [int] *)

Definition INT_MIN : Z := -2147483648.
Definition INT_MAX : Z := 2147483647.

Definition in_int (z : Z) : Prop := INT_MIN <= z <= INT_MAX.

Global Instance in_int_dec z : Decision (in_int z).
Proof. unfold in_int. apply _. Defined.

(** The value of an [int] expression whose mathematical value is [z]:
    signed overflow is undefined behaviour. *)
Definition int_value {S} (z : Z) : M S Z :=
  if decide (in_int z) then ret z else undefined.

Definition int_add {S} (a b : Z) : M S Z := int_value (a + b).
Definition int_mul {S} (a b : Z) : M S Z := int_value (a * b).

(** ** Block structure (block_structure.h) *)

Module Block.
Record t : Type := mk { size : Z; position : Z }.
End Block.

Module Cell.
Record t : Type := mk { block_id : Z; position : Z }.
End Cell.

(** Modelled from the spec: the declarations of block_structure.h.  A row
    entry is one row block and its ordered sequence of cells; [num_cells] is
    the length of [cells]. *)
Record CompressedRow : Type := mkCompressedRow {
  block : Block.t;
  cells : list Cell.t
}.

Definition num_cells (row : CompressedRow) : Z := Z.of_nat (length (cells row)).

Record CompressedRowBlockStructure : Type := mkCompressedRowBlockStructure {
  col_sizes : list Z;
  col_positions : list Z;
  rows : list CompressedRow
}.

(** ** The matrix object *)

Record BlockSparseMatrix : Type := mkBlockSparseMatrix {
  num_rows_ : Z;
  num_cols_ : Z;
  num_nonzeros_ : Z;
  max_num_nonzeros_ : Z;
  values_ : list Z;
  block_structure_ : CompressedRowBlockStructure
}.

Definition set_values (m : BlockSparseMatrix) (v : list Z) : BlockSparseMatrix :=
  {| num_rows_ := num_rows_ m;
     num_cols_ := num_cols_ m;
     num_nonzeros_ := num_nonzeros_ m;
     max_num_nonzeros_ := max_num_nonzeros_ m;
     values_ := v;
     block_structure_ := block_structure_ m |}.

(** ** Dense and triplet matrices (Eigen, triplet_sparse_matrix.h) *)

(** Modelled from the spec: ceres' [Matrix], a dynamically sized row-major
    Eigen matrix of [rows * cols] scalars. *)
Module Matrix.
Record t : Type := mk { rows : Z; cols : Z; data : list Z }.

(** [resize] reallocates; the content is unspecified (the old storage is
    reused here). Negative dimensions are outside Eigen's contract. *)
Definition resize {S} (r c : Z) (d : t) : M S t :=
  if decide (0 <= r /\ 0 <= c)
  then ret (mk r c (list.resize (Z.to_nat (r * c)) 0 (data d)))
  else undefined.

Definition setZero (d : t) : t :=
  mk (rows d) (cols d) (replicate (length (data d)) 0).

(** [d(i, j)] read and write; the coefficient is at [i * cols + j]. *)
Definition coeff {S} (d : t) (i j : Z) : M S Z :=
  if decide (0 <= i < rows d /\ 0 <= j < cols d)
  then vec_at (data d) (i * cols d + j)
  else undefined.

Definition set_coeff {S} (d : t) (i j : Z) (v : Z) : M S t :=
  if decide (0 <= i < rows d /\ 0 <= j < cols d)
  then let* data' := store (Some (data d)) (i * cols d + j) v in
       match data' with
       | Some l => ret (mk (rows d) (cols d) l)
       | None => undefined
       end
  else undefined.
End Matrix.

(** Modelled from the spec: the triplet matrix of triplet_sparse_matrix.h,
    three parallel arrays of row indices, column indices and values whose
    first [num_nonzeros] entries are the triples, with the operations
    [ToTripletSparseMatrix] calls on it. *)
Module TripletSparseMatrix.
Record t : Type := mk {
  num_rows : Z;
  num_cols : Z;
  num_nonzeros : Z;
  rows : list Z;
  cols : list Z;
  values : list Z
}.

Definition grow (n : Z) (l : list Z) : list Z :=
  if decide (Z.of_nat (length l) < n) then list.resize (Z.to_nat n) 0 l else l.

(** Makes room for [n] triples. *)
Definition Reserve (n : Z) (t0 : t) : t :=
  mk (num_rows t0) (num_cols t0) (num_nonzeros t0)
     (grow n (rows t0)) (grow n (cols t0)) (grow n (values t0)).

Definition Resize (r c : Z) (t0 : t) : t :=
  mk r c (num_nonzeros t0) (rows t0) (cols t0) (values t0).

Definition SetZero (t0 : t) : t :=
  mk (num_rows t0) (num_cols t0) 0 (rows t0) (cols t0)
     (replicate (length (values t0)) 0).

Definition set_num_nonzeros (n : Z) (t0 : t) : t :=
  mk (num_rows t0) (num_cols t0) n (rows t0) (cols t0) (values t0).

(** [mutable_rows()[k] = v] and its siblings. *)
Definition set_row {S} (k v : Z) (t0 : t) : M S t :=
  let* a := store (Some (rows t0)) k v in
  match a with
  | Some l => ret (mk (num_rows t0) (num_cols t0) (num_nonzeros t0) l (cols t0) (values t0))
  | None => undefined
  end.

Definition set_col {S} (k v : Z) (t0 : t) : M S t :=
  let* a := store (Some (cols t0)) k v in
  match a with
  | Some l => ret (mk (num_rows t0) (num_cols t0) (num_nonzeros t0) (rows t0) l (values t0))
  | None => undefined
  end.

Definition set_value {S} (k v : Z) (t0 : t) : M S t :=
  let* a := store (Some (values t0)) k v in
  match a with
  | Some l => ret (mk (num_rows t0) (num_cols t0) (num_nonzeros t0) (rows t0) (cols t0) l)
  | None => undefined
  end.

(** The triples the matrix holds. *)
Definition triples (t0 : t) : list (Z * Z * Z) :=
  take (Z.to_nat (num_nonzeros t0))
       (zip (zip (rows t0) (cols t0)) (values t0)).
End TripletSparseMatrix.

(** Modelled from the spec: the options record of the random generator
    (block_sparse_matrix.h), as the disabled body reads it. *)
Record RandomMatrixOptions : Type := mkRandomMatrixOptions {
  num_row_blocks : Z;
  min_row_block_size : Z;
  max_row_block_size : Z;
  num_col_blocks : Z;
  min_col_block_size : Z;
  max_col_block_size : Z;
  block_density : Z
}.

(** ** Dense kernels (small_blas.h) *)

(** Modelled from the spec: [MatrixVectorMultiply<Dynamic, Dynamic, 1>],
    which multiplies the row-major [num_row_a x num_col_a] block at [A] by the
    vector at [b] and accumulates into [c]:  c += A * b. *)
Definition MatrixVectorMultiply {S} (A : ptr) (a_off : Z)
    (num_row_a num_col_a : Z) (b : ptr) (b_off : Z) (c : ptr) (c_off : Z)
    : M S ptr :=
  forM (range num_row_a) (fun row c =>
    forM (range num_col_a) (fun col c =>
      let* a := load A (a_off + (row * num_col_a + col)) in
      let* bv := load b (b_off + col) in
      let* cv := load c (c_off + row) in
      store c (c_off + row) (cv + a * bv)) c) c.

(** Modelled from the spec: [MatrixTransposeVectorMultiply<Dynamic, Dynamic, 1>]:
    c += A' * b. *)
Definition MatrixTransposeVectorMultiply {S} (A : ptr) (a_off : Z)
    (num_row_a num_col_a : Z) (b : ptr) (b_off : Z) (c : ptr) (c_off : Z)
    : M S ptr :=
  forM (range num_row_a) (fun row c =>
    forM (range num_col_a) (fun col c =>
      let* a := load A (a_off + (row * num_col_a + col)) in
      let* bv := load b (b_off + row) in
      let* cv := load c (c_off + col) in
      store c (c_off + col) (cv + a * bv)) c) c.

(** Modelled from the spec: Eigen's
    [VectorRef(x + x_off, cols)
       += MatrixRef(A + a_off, rows, cols).colwise().squaredNorm()]. *)
Definition add_colwise_squaredNorm {S} (A : ptr) (a_off : Z) (rows cols : Z)
    (x : ptr) (x_off : Z) : M S ptr :=
  forM (range rows) (fun r x =>
    forM (range cols) (fun c x =>
      let* a := load A (a_off + (r * cols + c)) in
      let* xv := load x (x_off + c) in
      store x (x_off + c) (xv + a * a)) x) x.

(** Modelled from the spec: Eigen's
    [MatrixRef(A + a_off, rows, cols)
       *= ConstVectorRef(scale + s_off, cols).asDiagonal()]. *)
Definition scale_columns_in_place {S} (A : ptr) (a_off : Z) (rows cols : Z)
    (scale : ptr) (s_off : Z) : M S ptr :=
  forM (range rows) (fun r A =>
    forM (range cols) (fun c A =>
      let* a := load A (a_off + (r * cols + c)) in
      let* sv := load scale (s_off + c) in
      store A (a_off + (r * cols + c)) (a * sv)) A) A.

(** Modelled from the spec: Eigen's
    [m.block(i0, j0, rows, cols) += MatrixRef(A + a_off, rows, cols)]. *)
Definition add_to_block {S} (m : Matrix.t) (i0 j0 : Z) (rows cols : Z)
    (A : ptr) (a_off : Z) : M S Matrix.t :=
  forM (range rows) (fun r m =>
    forM (range cols) (fun c m =>
      let* a := load A (a_off + (r * cols + c)) in
      let* mv := Matrix.coeff m (i0 + r) (j0 + c) in
      Matrix.set_coeff m (i0 + r) (j0 + c) (mv + a)) m) m.

(** What a copy of a [CompressedRow] does with the cells of the row it is
    copied from (see CreateDiagonalMatrix). *)
Inductive row_copy : Type := copies_cells | shares_cells.

Section Engine.

(** glog/logging.h is not part of the sources, so whether debug checks are
    compiled in is a parameter of the build: [DCHECK_*] is [CHECK_*] where
    they are on and does nothing where they are compiled out. *)
Variable DCHECK_IS_ON : bool.

Definition CHECK_NOTNULL {S A} (p : option A) : M S unit :=
  match p with
  | Some _ => ret tt
  | None => fatal
  end.

Definition DCHECK_NOTNULL {S A} (p : option A) : M S unit :=
  if DCHECK_IS_ON then CHECK_NOTNULL p else ret tt.

Definition DCHECK_GE {S} (a b : Z) : M S unit :=
  if DCHECK_IS_ON then (if decide (b <= a) then ret tt else fatal) else ret tt.

(** [*p] on an object pointer. *)
Definition deref {S A} (p : option A) : M S A :=
  match p with
  | Some a => ret a
  | None => undefined
  end.

(** *** Construction (lines 51-92) *)

Definition BlockSparseMatrix_new (heap : nat -> Z)
    (block_structure : option CompressedRowBlockStructure)
    : M unit BlockSparseMatrix :=
  let* _ := DCHECK_NOTNULL block_structure in
  let* bs := deref block_structure in
  (* Count the number of columns in the matrix. *)
  let* num_cols :=
    forM (col_sizes bs) (fun col_size num_cols => int_add num_cols col_size) 0 in
  (* Count the number of non-zero entries and the number of rows. *)
  let* counts :=
    forM (rows bs) (fun row '(num_rows, num_nonzeros) =>
      let row_block_size := Block.size (block row) in
      let* num_rows := int_add num_rows row_block_size in
      let* num_nonzeros :=
        forM (cells row) (fun cell num_nonzeros =>
          let col_block_id := Cell.block_id cell in
          let* col_block_size := vec_at (col_sizes bs) col_block_id in
          let* n := int_mul col_block_size row_block_size in
          int_add num_nonzeros n) num_nonzeros in
      ret (num_rows, num_nonzeros)) (0, 0) in
  let '(num_rows, num_nonzeros) := counts in
  let* _ := DCHECK_GE num_rows 0 in
  let* _ := DCHECK_GE num_cols 0 in
  let* _ := DCHECK_GE num_nonzeros 0 in
  let* values := new_array heap num_nonzeros in
  let* _ := DCHECK_NOTNULL (Some values) in
  ret {| num_rows_ := num_rows;
         num_cols_ := num_cols;
         num_nonzeros_ := num_nonzeros;
         max_num_nonzeros_ := num_nonzeros;
         values_ := values;
         block_structure_ := bs |}.

(** The object's value buffer as a pointer, and writing the buffer back. *)
Definition values_get : M BlockSparseMatrix ptr :=
  let* self := get in ret (Some (values_ self)).

Definition values_put (p : ptr) : M BlockSparseMatrix unit :=
  match p with
  | Some v => let* self := get in put (set_values self v)
  | None => undefined
  end.

(** *** SetZero (lines 94-96) *)

Definition SetZero : M BlockSparseMatrix unit :=
  let* self := get in
  let* values := values_get in
  let* values := fill values (num_nonzeros_ self) 0 in
  values_put values.

(** *** RightMultiply (lines 98-123) *)

Definition RightMultiply (x y : ptr) : M BlockSparseMatrix ptr :=
  let* _ := DCHECK_NOTNULL x in
  let* _ := DCHECK_NOTNULL y in
  let* self := get in
  let bs := block_structure_ self in
  let* values_ptr := values_get in
  forM (rows bs) (fun row y =>
    let row_block_pos := Block.position (block row) in
    let row_block_size := Block.size (block row) in
    forM (cells row) (fun cell y =>
      let col_block_id := Cell.block_id cell in
      let* col_block_size := vec_at (col_sizes bs) col_block_id in
      let* col_block_pos := vec_at (col_positions bs) col_block_id in
      MatrixVectorMultiply
        values_ptr (Cell.position cell) row_block_size col_block_size
        x col_block_pos
        y row_block_pos) y) y.

(** *** LeftMultiply (lines 125-150) *)

Definition LeftMultiply (x y : ptr) : M BlockSparseMatrix ptr :=
  let* _ := DCHECK_NOTNULL x in
  let* _ := DCHECK_NOTNULL y in
  let* self := get in
  let bs := block_structure_ self in
  let* values_ptr := values_get in
  forM (rows bs) (fun row y =>
    let row_block_pos := Block.position (block row) in
    let row_block_size := Block.size (block row) in
    forM (cells row) (fun cell y =>
      let col_block_id := Cell.block_id cell in
      let* col_block_size := vec_at (col_sizes bs) col_block_id in
      let* col_block_pos := vec_at (col_positions bs) col_block_id in
      MatrixTransposeVectorMultiply
        values_ptr (Cell.position cell) row_block_size col_block_size
        x row_block_pos
        y col_block_pos) y) y.

(** *** SquaredColumnNorm (lines 152-174) *)

Definition SquaredColumnNorm (x : ptr) : M BlockSparseMatrix ptr :=
  let* _ := DCHECK_NOTNULL x in
  let* self := get in
  let* x := fill x (num_cols_ self) 0 in
  let bs := block_structure_ self in
  let* values_ptr := values_get in
  forM (rows bs) (fun row x =>
    let row_block_size := Block.size (block row) in
    forM (cells row) (fun cell x =>
      let col_block_id := Cell.block_id cell in
      let* col_block_size := vec_at (col_sizes bs) col_block_id in
      let* col_block_pos := vec_at (col_positions bs) col_block_id in
      add_colwise_squaredNorm
        values_ptr (Cell.position cell) row_block_size col_block_size
        x col_block_pos) x) x.

(** *** ScaleColumns (lines 176-198) *)

Definition ScaleColumns (scale : ptr) : M BlockSparseMatrix unit :=
  let* _ := DCHECK_NOTNULL scale in
  let* self := get in
  let bs := block_structure_ self in
  let* values_ptr := values_get in
  let* values_ptr :=
    forM (rows bs) (fun row values_ptr =>
      let row_block_size := Block.size (block row) in
      forM (cells row) (fun cell values_ptr =>
        let col_block_id := Cell.block_id cell in
        let* col_block_size := vec_at (col_sizes bs) col_block_id in
        let* col_block_pos := vec_at (col_positions bs) col_block_id in
        scale_columns_in_place
          values_ptr (Cell.position cell) row_block_size col_block_size
          scale col_block_pos) values_ptr) values_ptr in
  values_put values_ptr.

(** *** ToDenseMatrix (lines 200-227) *)

Definition ToDenseMatrix (dense_matrix : option Matrix.t)
    : M BlockSparseMatrix Matrix.t :=
  let* _ := DCHECK_NOTNULL dense_matrix in
  let* self := get in
  let* m := deref dense_matrix in
  let* m := Matrix.resize (num_rows_ self) (num_cols_ self) m in
  let m := Matrix.setZero m in
  let bs := block_structure_ self in
  let* values_ptr := values_get in
  forM (rows bs) (fun row m =>
    let row_block_pos := Block.position (block row) in
    let row_block_size := Block.size (block row) in
    forM (cells row) (fun cell m =>
      let col_block_id := Cell.block_id cell in
      let* col_block_size := vec_at (col_sizes bs) col_block_id in
      let* col_block_pos := vec_at (col_positions bs) col_block_id in
      let jac_pos := Cell.position cell in
      add_to_block m row_block_pos col_block_pos row_block_size col_block_size
                   values_ptr jac_pos) m) m.

(** *** ToTripletSparseMatrix (lines 229-257) *)

Definition ToTripletSparseMatrix (matrix : option TripletSparseMatrix.t)
    : M BlockSparseMatrix TripletSparseMatrix.t :=
  let* _ := DCHECK_NOTNULL matrix in
  let* self := get in
  let* matrix := deref matrix in
  let matrix := TripletSparseMatrix.Reserve (num_nonzeros_ self) matrix in
  let matrix := TripletSparseMatrix.Resize (num_rows_ self) (num_cols_ self) matrix in
  let matrix := TripletSparseMatrix.SetZero matrix in
  let bs := block_structure_ self in
  let* matrix :=
    forM (rows bs) (fun row matrix =>
      let row_block_pos := Block.position (block row) in
      let row_block_size := Block.size (block row) in
      forM (cells row) (fun cell matrix =>
        let col_block_id := Cell.block_id cell in
        let* col_block_size := vec_at (col_sizes bs) col_block_id in
        let* col_block_pos := vec_at (col_positions bs) col_block_id in
        let jac_pos := Cell.position cell in
        let* st :=
          forM (range row_block_size) (fun r st =>
            forM (range col_block_size) (fun c '(jac_pos, matrix) =>
              let* matrix := TripletSparseMatrix.set_row jac_pos (row_block_pos + r) matrix in
              let* matrix := TripletSparseMatrix.set_col jac_pos (col_block_pos + c) matrix in
              let* v := vec_at (values_ self) jac_pos in
              let* matrix := TripletSparseMatrix.set_value jac_pos v matrix in
              ret (jac_pos + 1, matrix)) st) (jac_pos, matrix) in
        ret (snd st)) matrix) matrix in
  ret (TripletSparseMatrix.set_num_nonzeros (num_nonzeros_ self) matrix).

(** *** ToTextFile (lines 271-293): the file is the list of lines written,
    a line being the three fields [row col value] that [fprintf] formats. *)

Definition ToTextFile (file : option (list (Z * Z * Z)))
    : M BlockSparseMatrix (list (Z * Z * Z)) :=
  let* _ := CHECK_NOTNULL file in
  let* self := get in
  let* file := deref file in
  let bs := block_structure_ self in
  forM (rows bs) (fun row file =>
    let row_block_pos := Block.position (block row) in
    let row_block_size := Block.size (block row) in
    forM (cells row) (fun cell file =>
      let col_block_id := Cell.block_id cell in
      let* col_block_size := vec_at (col_sizes bs) col_block_id in
      let* col_block_pos := vec_at (col_positions bs) col_block_id in
      let jac_pos := Cell.position cell in
      let* st :=
        forM (range row_block_size) (fun r st =>
          forM (range col_block_size) (fun c '(jac_pos, file) =>
            let* v := vec_at (values_ self) jac_pos in
            ret (jac_pos + 1,
                 file ++ [(row_block_pos + r, col_block_pos + c, v)])) st)
          (jac_pos, file) in
      ret (snd st)) file) file.

(** *** CreateDiagonalMatrix (lines 295-331) *)

(** block_structure.h is not part of the sources.  The function resizes the
    pool [all_cells] of the new structure to one cell, builds one row from
    the pool and fills [rows] with copies of that row.  What a copy of a row
    does with the cells is a parameter of the embedding: the copy has cells
    of its own ([copies_cells], what the spec describes: every row block
    holds one cell), or [cells] is a pointer into the pool that every copy
    shares ([shares_cells]), so that a write through one row is seen through
    all of them. *)
Variable ROW_COPY : row_copy.

(** Modelled from the spec: [CompressedRow(bs->all_cells)], a row whose
    cells are those of the pool. *)
Definition CompressedRow_new (all_cells : list Cell.t) : CompressedRow :=
  mkCompressedRow (Block.mk 0 0) all_cells.

Definition set_first_cell (row : CompressedRow) (cell : Cell.t) : CompressedRow :=
  mkCompressedRow (block row) (<[0%nat := cell]> (cells row)).

(** [rows[i].cells[0] = cell]. *)
Definition write_first_cell (i : Z) (cell : Cell.t) (rows : list CompressedRow)
    : list CompressedRow :=
  match ROW_COPY with
  | copies_cells => alter (fun row => set_first_cell row cell) (Z.to_nat i) rows
  | shares_cells => (fun row => set_first_cell row cell) <$> rows
  end.

Definition CreateDiagonalMatrix (heap : nat -> Z) (diagonal : ptr)
    (col_sizes col_positions : list Z) : M unit BlockSparseMatrix :=
  (* Create the block structure for the diagonal matrix. *)
  let all_cells := list.resize 1 (Cell.mk 0 0) [] in
  let rows := replicate (length col_sizes) (CompressedRow_new all_cells) in
  let* st :=
    forM (range (Z.of_nat (length col_sizes))) (fun i '(position, rows) =>
      let* row := vec_at rows i in
      let* size := vec_at col_sizes i in
      let* pos := vec_at col_positions i in
      let rows := <[Z.to_nat i := mkCompressedRow (Block.mk size pos) (cells row)]> rows in
      let* _ := vec_at (cells row) 0 in
      let cell := Cell.mk i position in
      let rows := write_first_cell i cell rows in
      let* square := int_mul size size in
      let* position := int_add position square in
      ret (position, rows)) (0, rows) in
  let bs := mkCompressedRowBlockStructure col_sizes col_positions (snd st) in
  (* Create the BlockSparseMatrix with the given block structure. *)
  let* matrix := BlockSparseMatrix_new heap (Some bs) in
  let* (_, matrix) := on matrix SetZero in
  (* Fill the values array of the block sparse matrix. *)
  let* st :=
    forM (range (Z.of_nat (length col_sizes))) (fun i '(diagonal_off, values_off, values) =>
      let* size := vec_at col_sizes i in
      let* values :=
        forM (range size) (fun j values =>
          let* d := load diagonal (diagonal_off + j) in
          let* size_plus_1 := int_add size 1 in
          let* k := int_mul j size_plus_1 in
          store values (values_off + k) d) values in
      let* square := int_mul size size in
      ret (diagonal_off + size, values_off + square, values))
      (0, 0, Some (values_ matrix)) in
  let* (_, matrix) := on matrix (values_put (snd st)) in
  ret matrix.

(** *** The unsupported operations (lines 333-458): each body throws before
    anything else; the rest is compiled out. *)

Definition AppendRows (m : BlockSparseMatrix) : M BlockSparseMatrix unit :=
  throw "Unsupported".

Definition DeleteRowBlocks (delta_row_blocks : Z) : M BlockSparseMatrix unit :=
  throw "Unsupported".

Definition CreateRandomMatrix (options : RandomMatrixOptions)
    : M unit (option BlockSparseMatrix) :=
  throw "Unsupported".

End Engine.

(** ** The stored scalars of a matrix, in structure order *)

Definition rd (l : list Z) (i : Z) : Z := default 0 (index l i).

Definition wr (l : list Z) (i : Z) (v : Z) : list Z :=
  if decide (0 <= i) then <[Z.to_nat i := v]> l else l.

Definition add_at (l : list Z) (i : Z) (v : Z) : list Z := wr l i (rd l i + v).

Definition sum_over {A} (f : A -> Z) (l : list A) : Z :=
  foldr (fun a acc => f a + acc) 0 l.

Definition dot (u v : list Z) : Z := sum_over id (zip_with Z.mul u v).

Definition col_size (bs : CompressedRowBlockStructure) (id : Z) : Z :=
  default 0 (index (col_sizes bs) id).

Definition col_position (bs : CompressedRowBlockStructure) (id : Z) : Z :=
  default 0 (index (col_positions bs) id).

(** A slot [(i, j, k)] is one stored scalar: global row [i], global column
    [j], index [k] in the value buffer.  The slots of a cell are listed row by
    row, the cells of a row block in their order, the row blocks in theirs. *)
Definition slot : Type := Z * Z * Z.

Definition block_slots (row_pos row_size col_pos col_size pos : Z) : list slot :=
  r ← range row_size;
  (fun c => (row_pos + r, col_pos + c, pos + (r * col_size + c))) <$> range col_size.

Definition row_slots (bs : CompressedRowBlockStructure) (row : CompressedRow)
    : list slot :=
  cell ← cells row;
  block_slots (Block.position (block row)) (Block.size (block row))
              (col_position bs (Cell.block_id cell))
              (col_size bs (Cell.block_id cell))
              (Cell.position cell).

Definition slots (bs : CompressedRowBlockStructure) : list slot :=
  row ← rows bs; row_slots bs row.

(** The entries [(row, col, value)] of a matrix, one per slot. *)
Definition entries (m : BlockSparseMatrix) : list (Z * Z * Z) :=
  (fun e : slot => (e.1.1, e.1.2, rd (values_ m) e.2)) <$> slots (block_structure_ m).

(** ** The descriptor invariant *)

(** The exclusive prefix sums of [l], starting from [start]. *)
Fixpoint prefix_sums (start : Z) (l : list Z) : list Z :=
  match l with
  | [] => []
  | x :: l' => start :: prefix_sums (start + x) l'
  end.

Definition row_sizes (bs : CompressedRowBlockStructure) : list Z :=
  (fun row => Block.size (block row)) <$> rows bs.

Definition row_positions (bs : CompressedRowBlockStructure) : list Z :=
  (fun row => Block.position (block row)) <$> rows bs.

(** The cells of the structure with their row block, in structure order;
    the number of scalars, the offset and the column block of each. *)
Definition all_cells (bs : CompressedRowBlockStructure)
    : list (CompressedRow * Cell.t) :=
  row ← rows bs; pair row <$> cells row.

Definition cell_sizes (bs : CompressedRowBlockStructure) : list Z :=
  (fun rc => Block.size (block rc.1) * col_size bs (Cell.block_id rc.2))
    <$> all_cells bs.

Definition cell_positions (bs : CompressedRowBlockStructure) : list Z :=
  (fun rc => Cell.position rc.2) <$> all_cells bs.

Definition cell_ids (bs : CompressedRowBlockStructure) : list Z :=
  (fun rc => Cell.block_id rc.2) <$> all_cells bs.

(** The sum the loop [for (x : l) acc += x] computes in [int], if no
    addition overflows. *)
Fixpoint int_sum_from (acc : Z) (l : list Z) : option Z :=
  match l with
  | [] => Some acc
  | x :: l' =>
      if decide (in_int (acc + x)) then int_sum_from (acc + x) l' else None
  end.

Definition int_sum (l : list Z) : option Z := int_sum_from 0 l.

(** The numbers of scalars of the cells of one row block. *)
Definition row_cell_sizes (bs : CompressedRowBlockStructure) (row : CompressedRow)
    : list Z :=
  (fun cell => Block.size (block row) * col_size bs (Cell.block_id cell))
    <$> cells row.

(** The three counts of the descriptor are within [int]. *)
Definition counts_fit_int (bs : CompressedRowBlockStructure) : Prop :=
  sum_over id (row_sizes bs) <= INT_MAX /\
  sum_over id (col_sizes bs) <= INT_MAX /\
  sum_over id (cell_sizes bs) <= INT_MAX.

Global Instance counts_fit_int_dec bs : Decision (counts_fit_int bs).
Proof. unfold counts_fit_int. apply _. Defined.

(** What the descriptor's data model takes for granted: sizes are counts and
    a cell names an existing column block. *)
Definition descriptor_ok (bs : CompressedRowBlockStructure) : Prop :=
  Forall (fun n => 0 <= n) (col_sizes bs) /\
  Forall (fun n => 0 <= n) (row_sizes bs) /\
  Forall (fun id => 0 <= id < Z.of_nat (length (col_sizes bs))) (cell_ids bs).

(** The invariant of the data model: positions are the exclusive prefix sums
    of the sizes, and the cells partition the value buffer in structure order. *)
Definition structure_invariant (bs : CompressedRowBlockStructure) : Prop :=
  descriptor_ok bs /\
  col_positions bs = prefix_sums 0 (col_sizes bs) /\
  row_positions bs = prefix_sums 0 (row_sizes bs) /\
  cell_positions bs = prefix_sums 0 (cell_sizes bs).

Definition matrix_invariant (m : BlockSparseMatrix) : Prop :=
  structure_invariant (block_structure_ m) /\
  num_rows_ m = sum_over id (row_sizes (block_structure_ m)) /\
  num_cols_ m = sum_over id (col_sizes (block_structure_ m)) /\
  num_nonzeros_ m = sum_over id (cell_sizes (block_structure_ m)) /\
  Z.of_nat (length (values_ m)) = num_nonzeros_ m.

Global Instance descriptor_ok_dec bs : Decision (descriptor_ok bs).
Proof. unfold descriptor_ok. apply _. Defined.

Global Instance structure_invariant_dec bs : Decision (structure_invariant bs).
Proof. unfold structure_invariant. apply _. Defined.

Global Instance matrix_invariant_dec m : Decision (matrix_invariant m).
Proof. unfold matrix_invariant. apply _. Defined.

(** ** Example matrices *)

(** Column blocks of sizes 2 and 1; a row block of size 1 with two cells and
    a row block of size 2 with one cell. *)
Definition ex_bs : CompressedRowBlockStructure :=
  mkCompressedRowBlockStructure [2; 1] [0; 2]
    [mkCompressedRow (Block.mk 1 0) [Cell.mk 0 0; Cell.mk 1 2];
     mkCompressedRow (Block.mk 2 1) [Cell.mk 0 3]].

Definition ex_m : BlockSparseMatrix :=
  mkBlockSparseMatrix 3 3 7 7 [1; 2; 3; 4; 5; 6; 7] ex_bs.

(** One 1x1 column block that the only row block lists twice. *)
Definition dup_bs : CompressedRowBlockStructure :=
  mkCompressedRowBlockStructure [1] [0]
    [mkCompressedRow (Block.mk 1 0) [Cell.mk 0 0; Cell.mk 0 1]].

Definition dup_m : BlockSparseMatrix :=
  mkBlockSparseMatrix 1 1 2 2 [1; 2] dup_bs.

(** The matrix with no blocks at all. *)
Definition empty_m : BlockSparseMatrix :=
  mkBlockSparseMatrix 0 0 0 0 [] (mkCompressedRowBlockStructure [] [] []).

(** A descriptor whose only row block has the size -2: the counts of rows
    and of non-zeros come out negative. *)
Definition neg_bs : CompressedRowBlockStructure :=
  mkCompressedRowBlockStructure [1] [0]
    [mkCompressedRow (Block.mk (-2) 0) [Cell.mk 0 0]].

(** Two row blocks of 2^30 rows each and no cell: the number of rows is
    2^31, one more than the largest [int]. *)
Definition huge_bs : CompressedRowBlockStructure :=
  mkCompressedRowBlockStructure [] []
    [mkCompressedRow (Block.mk 1073741824 0) [];
     mkCompressedRow (Block.mk 1073741824 1073741824) []].

(** One column block, one row block, one cell of one scalar. *)
Definition one_bs : CompressedRowBlockStructure :=
  mkCompressedRowBlockStructure [1] [0]
    [mkCompressedRow (Block.mk 1 0) [Cell.mk 0 0]].

(** A descriptor whose only cell names the column block 5 of one. *)
Definition stray_bs : CompressedRowBlockStructure :=
  mkCompressedRowBlockStructure [1] [0]
    [mkCompressedRow (Block.mk 1 0) [Cell.mk 5 0]].

(** ** Every cell within the bounds of the buffers *)

Definition cell_bounds (bs : CompressedRowBlockStructure) (nr nc nnz : Z)
    (row : CompressedRow) (cell : Cell.t) : Prop :=
  exists cs cp,
    index (col_sizes bs) (Cell.block_id cell) = Some cs /\
    index (col_positions bs) (Cell.block_id cell) = Some cp /\
    0 <= Block.size (block row) /\ 0 <= cs /\
    0 <= Block.position (block row) /\
    Block.position (block row) + Block.size (block row) <= nr /\
    0 <= cp /\ cp + cs <= nc /\
    0 <= Cell.position cell /\
    Cell.position cell + Block.size (block row) * cs <= nnz.

Definition in_bounds (bs : CompressedRowBlockStructure) (nr nc nnz : Z) : Prop :=
  forall row cell, row ∈ rows bs -> cell ∈ cells row -> cell_bounds bs nr nc nnz row cell.

(** ** Pure steps of the loops, and what the claims speak of *)

Definition right_step (values x : list Z) (y : list Z) (e : slot) : list Z :=
  add_at y e.1.1 (rd values e.2 * rd x e.1.2).

Definition left_step (values x : list Z) (y : list Z) (e : slot) : list Z :=
  add_at y e.1.2 (rd values e.2 * rd x e.1.1).

Definition norm_step (values : list Z) (x : list Z) (e : slot) : list Z :=
  add_at x e.1.2 (rd values e.2 * rd values e.2).

Definition dense_step (values : list Z) (nc : Z) (data : list Z) (e : slot) : list Z :=
  add_at data (e.1.1 * nc + e.1.2) (rd values e.2).

Definition triplet_step (values : list Z) (t : TripletSparseMatrix.t) (e : slot)
    : TripletSparseMatrix.t :=
  TripletSparseMatrix.mk
    (TripletSparseMatrix.num_rows t) (TripletSparseMatrix.num_cols t)
    (TripletSparseMatrix.num_nonzeros t)
    (wr (TripletSparseMatrix.rows t) e.2 e.1.1)
    (wr (TripletSparseMatrix.cols t) e.2 e.1.2)
    (wr (TripletSparseMatrix.values t) e.2 (rd values e.2)).

Definition triplet_room (n : Z) (t : TripletSparseMatrix.t) : Prop :=
  n <= Z.of_nat (length (TripletSparseMatrix.rows t)) /\
  n <= Z.of_nat (length (TripletSparseMatrix.cols t)) /\
  n <= Z.of_nat (length (TripletSparseMatrix.values t)).

Definition Matrix_get (d : Matrix.t) (i j : Z) : Z :=
  rd (Matrix.data d) (i * Matrix.cols d + j).

(** The sum of the values of the entries at coordinates [(i, j)]. *)
Definition sum_at (i j : Z) (l : list (Z * Z * Z)) : Z :=
  sum_over (fun e => if decide (e.1.1 = i /\ e.1.2 = j) then e.2 else 0) l.

(** The sum of the squares of the values of the entries in column [j]. *)
Definition sum_squares_in_col (j : Z) (l : list (Z * Z * Z)) : Z :=
  sum_over (fun e => if decide (e.1.2 = j) then e.2 * e.2 else 0) l.

(** No row block lists a column block in two of its cells. *)
Definition no_repeated_blocks (bs : CompressedRowBlockStructure) : Prop :=
  Forall (fun row => NoDup (Cell.block_id <$> cells row)) (rows bs).

(** The coordinates of the scalars of a block, and of the cells of a row
    block. *)
Definition block_coords (row_pos row_size col_pos col_size : Z) : list (Z * Z) :=
  r ← range row_size; (fun c => (row_pos + r, col_pos + c)) <$> range col_size.

Definition row_coords (bs : CompressedRowBlockStructure) (row : CompressedRow)
    : list (Z * Z) :=
  cell ← cells row;
  block_coords (Block.position (block row)) (Block.size (block row))
               (col_position bs (Cell.block_id cell))
               (col_size bs (Cell.block_id cell)).

(** What the claims C5 and C7 say of the dense form, as stated. *)
Definition dense_matches_triples (d : Matrix.t) (t : TripletSparseMatrix.t) : Prop :=
  (forall i j v, (i, j, v) ∈ TripletSparseMatrix.triples t -> Matrix_get d i j = v) /\
  (forall i j, 0 <= i < Matrix.rows d -> 0 <= j < Matrix.cols d ->
     (forall v, (i, j, v) ∉ TripletSparseMatrix.triples t) -> Matrix_get d i j = 0).

Definition column_norms_of_dense (d : Matrix.t) (x : list Z) : Prop :=
  forall j, 0 <= j < Matrix.cols d ->
    rd x j = sum_over (fun i => Matrix_get d i j * Matrix_get d i j)
                      (range (Matrix.rows d)).

(** [keeps R c]: whenever [c] leaves a state behind (a return or an
    exception), that state is [R]-related to the state before. *)
Definition keeps {S A} (R : S -> S -> Prop) (c : M S A) : Prop :=
  forall s,
    match c s with
    | Ok _ s' => R s s'
    | Throw _ s' => R s s'
    | Fatal => True
    | Undefined => True
    end.

(** The object itself is unchanged. *)
Definition preserves {S A} (c : M S A) : Prop := keeps eq c.

(** Only the value buffer may differ. *)
Definition same_shape (m m' : BlockSparseMatrix) : Prop :=
  block_structure_ m' = block_structure_ m /\
  num_rows_ m' = num_rows_ m /\
  num_cols_ m' = num_cols_ m /\
  num_nonzeros_ m' = num_nonzeros_ m /\
  max_num_nonzeros_ m' = max_num_nonzeros_ m.






(** ** Pure steps of ScaleColumns and ToTextFile, and dense products *)

Definition scale_step (scale : list Z) (values : list Z) (e : slot) : list Z :=
  wr values e.2 (rd values e.2 * rd scale e.1.2).

(** The entries [l] with every value multiplied by the scale of its column. *)
Definition scaled_entries (scale : list Z) (l : list (Z * Z * Z)) : list (Z * Z * Z) :=
  (fun e => (e.1.1, e.1.2, e.2 * rd scale e.1.2)) <$> l.

Definition text_step (values : list Z) (file : list (Z * Z * Z)) (e : slot)
    : list (Z * Z * Z) :=
  file ++ [(e.1.1, e.1.2, rd values e.2)].

(** Row [i] of the dense matrix [d] times the vector [x], and column [j] of
    [d] times [x]. *)
Definition dense_row_times (d : Matrix.t) (x : list Z) (i : Z) : Z :=
  sum_over (fun j => Matrix_get d i j * rd x j) (range (Matrix.cols d)).

Definition dense_col_times (d : Matrix.t) (x : list Z) (j : Z) : Z :=
  sum_over (fun i => Matrix_get d i j * rd x i) (range (Matrix.rows d)).

(** Every cell of the descriptor names an existing column block. *)
Definition block_ids_in_range (bs : CompressedRowBlockStructure) : Prop :=
  Forall (fun id => 0 <= id < Z.of_nat (length (col_sizes bs))) (cell_ids bs).

(** [returns P c]: whenever [c] returns, its result satisfies [P]. *)
Definition returns {S A} (P : A -> Prop) (c : M S A) : Prop :=
  forall s,
    match c s with
    | Ok a _ => P a
    | Throw _ _ | Fatal | Undefined => True
    end.

(** [stays I o]: the outcome [o] is undefined behaviour or a return whose
    result satisfies [I]. *)
Definition stays {S A} (I : A -> Prop) (o : outcome S A) : Prop :=
  match o with
  | Ok a _ => I a
  | Undefined => True
  | Throw _ _ | Fatal => False
  end.

(** A call that went wrong without an exception or a failed check. *)
Definition Ok_or_Undefined {S A} (o : outcome S A) : Prop :=
  match o with
  | Ok _ _ | Undefined => True
  | Throw _ _ | Fatal => False
  end.

(** ** Scalars with the non-finite values of IEEE 754 *)

(** Everywhere else a scalar is a finite value in exact arithmetic, a [Z].
    A double also holds the two infinities and NaN.  [double] adds them to
    the exact values, with the sums and products IEEE 754 gives them (the
    sign of zero is not modelled), and [NonFinite] embeds SetZero and
    RightMultiply over these scalars, to say what the two do on vectors that
    are not finite. *)
Inductive double : Type :=
| Finite (z : Z)
| Infinity (negative : bool)
| NaN.

Definition is_finite (d : double) : Prop :=
  match d with
  | Finite _ => True
  | Infinity _ | NaN => False
  end.

Definition double_add (a b : double) : double :=
  match a, b with
  | NaN, _ | _, NaN => NaN
  | Finite x, Finite y => Finite (x + y)
  | Infinity s, Finite _ => Infinity s
  | Finite _, Infinity s => Infinity s
  | Infinity s, Infinity t => if bool_decide (s = t) then Infinity s else NaN
  end.

Definition double_mul (a b : double) : double :=
  match a, b with
  | NaN, _ | _, NaN => NaN
  | Finite x, Finite y => Finite (x * y)
  | Infinity s, Finite x =>
      if decide (x = 0) then NaN else Infinity (xorb s (bool_decide (x < 0)))
  | Finite x, Infinity s =>
      if decide (x = 0) then NaN else Infinity (xorb s (bool_decide (x < 0)))
  | Infinity s, Infinity t => Infinity (xorb s t)
  end.

Module NonFinite.

Definition ptr : Type := option (list double).

Definition load {S} (p : ptr) (i : Z) : M S double :=
  match p with
  | None => undefined
  | Some l => vec_at l i
  end.

Definition store {S} (p : ptr) (i : Z) (v : double) : M S ptr :=
  match p with
  | None => undefined
  | Some l =>
      match index l i with
      | Some _ => ret (Some (<[Z.to_nat i := v]> l))
      | None => undefined
      end
  end.

Definition fill {S} (p : ptr) (n : Z) (v : double) : M S ptr :=
  if decide (0 <= n) then forM (range n) (fun i p => store p i v) p
  else undefined.

Record BlockSparseMatrix : Type := mkBlockSparseMatrix {
  num_rows_ : Z;
  num_cols_ : Z;
  num_nonzeros_ : Z;
  max_num_nonzeros_ : Z;
  values_ : list double;
  block_structure_ : CompressedRowBlockStructure
}.

Definition set_values (m : BlockSparseMatrix) (v : list double) : BlockSparseMatrix :=
  {| num_rows_ := num_rows_ m;
     num_cols_ := num_cols_ m;
     num_nonzeros_ := num_nonzeros_ m;
     max_num_nonzeros_ := max_num_nonzeros_ m;
     values_ := v;
     block_structure_ := block_structure_ m |}.

(** Modelled from the spec: [MatrixVectorMultiply<Dynamic, Dynamic, 1>],
    c += A * b, as over [Z]. *)
Definition MatrixVectorMultiply {S} (A : ptr) (a_off : Z)
    (num_row_a num_col_a : Z) (b : ptr) (b_off : Z) (c : ptr) (c_off : Z)
    : M S ptr :=
  forM (range num_row_a) (fun row c =>
    forM (range num_col_a) (fun col c =>
      let* a := load A (a_off + (row * num_col_a + col)) in
      let* bv := load b (b_off + col) in
      let* cv := load c (c_off + row) in
      store c (c_off + row) (double_add cv (double_mul a bv))) c) c.

Definition values_get : M BlockSparseMatrix ptr :=
  let* self := get in ret (Some (values_ self)).

Definition values_put (p : ptr) : M BlockSparseMatrix unit :=
  match p with
  | Some v => let* self := get in put (set_values self v)
  | None => undefined
  end.

(** SetZero (lines 94-96). *)
Definition SetZero : M BlockSparseMatrix unit :=
  let* self := get in
  let* values := values_get in
  let* values := fill values (num_nonzeros_ self) (Finite 0) in
  values_put values.

(** RightMultiply (lines 98-123). *)
Definition RightMultiply (DCHECK_IS_ON : bool) (x y : ptr) : M BlockSparseMatrix ptr :=
  let* _ := DCHECK_NOTNULL DCHECK_IS_ON x in
  let* _ := DCHECK_NOTNULL DCHECK_IS_ON y in
  let* self := get in
  let bs := block_structure_ self in
  let* values_ptr := values_get in
  forM (rows bs) (fun row y =>
    let row_block_pos := Block.position (block row) in
    let row_block_size := Block.size (block row) in
    forM (cells row) (fun cell y =>
      let col_block_id := Cell.block_id cell in
      let* col_block_size := vec_at (col_sizes bs) col_block_id in
      let* col_block_pos := vec_at (col_positions bs) col_block_id in
      MatrixVectorMultiply
        values_ptr (Cell.position cell) row_block_size col_block_size
        x col_block_pos
        y row_block_pos) y) y.

Definition rd (l : list double) (i : Z) : double := default (Finite 0) (index l i).

Definition matrix_invariant (m : BlockSparseMatrix) : Prop :=
  structure_invariant (block_structure_ m) /\
  num_rows_ m = sum_over id (row_sizes (block_structure_ m)) /\
  num_cols_ m = sum_over id (col_sizes (block_structure_ m)) /\
  num_nonzeros_ m = sum_over id (cell_sizes (block_structure_ m)) /\
  Z.of_nat (length (values_ m)) = num_nonzeros_ m.

Global Instance matrix_invariant_dec m : Decision (matrix_invariant m).
Proof. unfold matrix_invariant. apply _. Defined.

End NonFinite.

(** The one-by-one matrix with the value 5. *)
Definition one_m : NonFinite.BlockSparseMatrix :=
  NonFinite.mkBlockSparseMatrix 1 1 1 1 [Finite 5] one_bs.

(** * Reasoning about loops *)

Section Loops.
Context {S : Type}.

Lemma bind_Ok {A B} (c : M S A) (k : A -> M S B) s a s' :
  c s = Ok a s' -> bind c k s = k a s'.
Proof. intros E. unfold bind. by rewrite E. Qed.

Lemma bind_ret {A B} (a : A) (k : A -> M S B) s : bind (ret a) k s = k a s.
Proof. reflexivity. Qed.

Lemma bind_get {B} (k : S -> M S B) s : bind get k s = k s s.
Proof. reflexivity. Qed.

Lemma bind_assoc {A B C} (c : M S A) (k : A -> M S B) (h : B -> M S C) s :
  bind (bind c k) h s = bind c (fun a => bind (k a) h) s.
Proof. unfold bind. by destruct (c s). Qed.

Lemma forM_ext {A B} (l : list A) (body1 body2 : A -> B -> M S B) b s :
  (forall a b s, a ∈ l -> body1 a b s = body2 a b s) ->
  forM l body1 b s = forM l body2 b s.
Proof.
  revert b s. induction l as [|a l IH]; intros b s H; simpl; [done|].
  unfold bind. rewrite H by left.
  destruct (body2 a b s); try done.
  apply IH. intros. apply H. by right.
Qed.

(** A loop whose body computes the pure step [f] and keeps [I] computes
    the fold of [f]. *)
Lemma forM_ok {A B C} (inj : C -> B) (I : C -> Prop) (l : list A)
    (body : A -> B -> M S B) (f : C -> A -> C) (s : S) (c : C) :
  I c ->
  (forall a c, a ∈ l -> I c -> body a (inj c) s = Ok (inj (f c a)) s /\ I (f c a)) ->
  forM l body (inj c) s = Ok (inj (foldl f c l)) s /\ I (foldl f c l).
Proof.
  revert c. induction l as [|a l IH]; intros c Hc Hbody; simpl; [done|].
  destruct (Hbody a c) as [E Hi]; [left | done |].
  rewrite (bind_Ok _ _ _ _ _ E).
  apply IH; [done|]. intros. apply Hbody; [by right | done].
Qed.

Lemma foldl_bind {A B C} (f : C -> B -> C) (g : A -> list B) (c : C) (l : list A) :
  foldl f c (l ≫= g) = foldl (fun c a => foldl f c (g a)) c l.
Proof.
  revert c. induction l as [|a l IH]; intros c; [done|].
  rewrite bind_cons, foldl_app. simpl. apply IH.
Qed.

(** The two loops over the rows and columns of one block. *)
Lemma block_loop_ok {B C} (inj : C -> B) (I : C -> Prop)
    (E : Z -> Z -> Z -> B -> M S B) (g : C -> slot -> C)
    (rp rs cp cs pos : Z) (s : S) (c : C) :
  I c ->
  (forall r cc c, 0 <= r < rs -> 0 <= cc < cs -> I c ->
     E (rp + r) (cp + cc) (pos + (r * cs + cc)) (inj c) s
       = Ok (inj (g c (rp + r, cp + cc, pos + (r * cs + cc)))) s
     /\ I (g c (rp + r, cp + cc, pos + (r * cs + cc)))) ->
  forM (range rs) (fun r st =>
    forM (range cs) (fun cc st =>
      E (rp + r) (cp + cc) (pos + (r * cs + cc)) st) st) (inj c) s
    = Ok (inj (foldl g c (block_slots rp rs cp cs pos))) s
  /\ I (foldl g c (block_slots rp rs cp cs pos)).
Proof.
  intros Hc HE. unfold block_slots. rewrite foldl_bind.
  apply forM_ok; [done|]. intros r c' Hr Hc'.
  rewrite foldl_fmap. apply forM_ok; [done|]. intros cc c'' Hcc Hc''.
  unfold range in *. apply elem_of_seqZ in Hr, Hcc.
  apply HE; [lia | lia | done].
Qed.

(** The loops of a method over the row blocks and their cells, around the
    work [K] on one cell. *)
Lemma visit_cells_ok {B C} (inj : C -> B) (I : C -> Prop)
    (K : Z -> Z -> Z -> Z -> Z -> B -> M S B) (g : C -> slot -> C)
    (bs : CompressedRowBlockStructure) (nr nc nnz : Z) (s : S) (c : C) :
  in_bounds bs nr nc nnz ->
  I c ->
  (forall rp rs cp cs pos c,
     0 <= rs -> 0 <= cs -> 0 <= rp -> rp + rs <= nr -> 0 <= cp -> cp + cs <= nc ->
     0 <= pos -> pos + rs * cs <= nnz -> I c ->
     K rp rs cp cs pos (inj c) s
       = Ok (inj (foldl g c (block_slots rp rs cp cs pos))) s
     /\ I (foldl g c (block_slots rp rs cp cs pos))) ->
  forM (rows bs) (fun row st =>
    forM (cells row) (fun cell st =>
      let* col_block_size := vec_at (col_sizes bs) (Cell.block_id cell) in
      let* col_block_pos := vec_at (col_positions bs) (Cell.block_id cell) in
      K (Block.position (block row)) (Block.size (block row))
        col_block_pos col_block_size (Cell.position cell) st) st)
    (inj c) s
    = Ok (inj (foldl g c (slots bs))) s
  /\ I (foldl g c (slots bs)).
Proof.
  intros Hb Hc HK. unfold slots. rewrite foldl_bind.
  apply forM_ok; [done|]. intros row c' Hrow Hc'.
  unfold row_slots. rewrite foldl_bind.
  apply forM_ok; [done|]. intros cell c'' Hcell Hc''.
  destruct (Hb row cell Hrow Hcell)
    as (cs & cp & Ecs & Ecp & ? & ? & ? & ? & ? & ? & ? & ?).
  unfold col_size, col_position. rewrite Ecs, Ecp. simpl.
  unfold vec_at at 1. rewrite Ecs, bind_ret.
  unfold vec_at at 1. rewrite Ecp, bind_ret.
  by apply HK.
Qed.

(** The same, when the work on a cell is the two loops over its scalars. *)
Lemma visit_ok {B C} (inj : C -> B) (I : C -> Prop)
    (E : Z -> Z -> Z -> B -> M S B) (g : C -> slot -> C)
    (bs : CompressedRowBlockStructure) (nr nc nnz : Z) (s : S) (c : C) :
  in_bounds bs nr nc nnz ->
  I c ->
  (forall i j k c, 0 <= i < nr -> 0 <= j < nc -> 0 <= k < nnz -> I c ->
     E i j k (inj c) s = Ok (inj (g c (i, j, k))) s /\ I (g c (i, j, k))) ->
  forM (rows bs) (fun row st =>
    forM (cells row) (fun cell st =>
      let* col_block_size := vec_at (col_sizes bs) (Cell.block_id cell) in
      let* col_block_pos := vec_at (col_positions bs) (Cell.block_id cell) in
      forM (range (Block.size (block row))) (fun r st =>
        forM (range col_block_size) (fun cc st =>
          E (Block.position (block row) + r) (col_block_pos + cc)
            (Cell.position cell + (r * col_block_size + cc)) st) st) st) st)
    (inj c) s
    = Ok (inj (foldl g c (slots bs))) s
  /\ I (foldl g c (slots bs)).
Proof.
  intros Hb Hc HE.
  apply (visit_cells_ok inj I
    (fun rp rs cp cs pos st =>
       forM (range rs) (fun r st =>
         forM (range cs) (fun cc st =>
           E (rp + r) (cp + cc) (pos + (r * cs + cc)) st) st) st)
    g bs nr nc nnz s c Hb Hc).
  intros rp rs cp cs pos c' ? ? ? ? ? ? ? ? Hc'.
  apply block_loop_ok; [done|]. intros r cc c3 Hr Hcc Hc3.
  apply HE; [lia | lia | nia | done].
Qed.

(** A counter advanced by [d] in every iteration is [d] times the number
    of iterations made ahead of its start. *)
Lemma forM_seqZ_counter {B} (F : Z -> Z -> B -> M S B) (d c0 : Z) (n : nat)
    (jp : Z) (b : B) (s : S) :
  forM (seqZ c0 (Z.of_nat n))
       (fun a (st : Z * B) => let* b' := F st.1 a st.2 in ret (st.1 + d, b'))
       (jp, b) s
  = (let* b' := forM (seqZ c0 (Z.of_nat n))
                     (fun a b => F (jp + (a - c0) * d) a b) b in
     ret (jp + Z.of_nat n * d, b')) s.
Proof.
  revert c0 jp b s. induction n as [|n IH]; intros c0 jp b s.
  - simpl. unfold bind, ret. f_equal. f_equal. lia.
  - rewrite seqZ_cons by lia.
    replace (Z.pred (Z.of_nat (Datatypes.S n))) with (Z.of_nat n) by lia.
    simpl. replace (jp + (c0 - c0) * d) with jp by lia.
    unfold bind. destruct (F jp c0 b s) as [b' s'| | |]; try done.
    unfold ret at 1.
    pose proof (IH (Z.succ c0) (jp + d) b' s') as IH'. unfold bind in IH'.
    rewrite IH'. clear IH'.
    rewrite (forM_ext _ _ (fun a b0 => F (jp + (a - c0) * d) a b0)).
    2:{ intros a b0 s0 _. f_equal. lia. }
    destruct (forM _ _ b' s'); try done. unfold ret. do 2 f_equal. lia.
Qed.

End Loops.

(** * Arrays: reads, writes and sums *)

Lemma index_lt {A} (l : list A) (i : Z) :
  0 <= i < Z.of_nat (length l) -> is_Some (index l i).
Proof.
  intros H. unfold index. rewrite decide_True by lia.
  apply lookup_lt_is_Some. lia.
Qed.

Lemma index_Some_lt {A} (l : list A) (i : Z) (a : A) :
  index l i = Some a -> 0 <= i < Z.of_nat (length l).
Proof.
  unfold index. case_decide; [|done]. intros E%lookup_lt_Some. lia.
Qed.

Lemma load_ok {S} (l : list Z) (i : Z) (s : S) :
  0 <= i < Z.of_nat (length l) -> load (Some l) i s = Ok (rd l i) s.
Proof.
  intros [v E]%index_lt. unfold load, vec_at, rd. by rewrite E.
Qed.

Lemma vec_at_ok {S} (l : list Z) (i : Z) (s : S) :
  0 <= i < Z.of_nat (length l) -> vec_at l i s = Ok (rd l i) s.
Proof. apply (load_ok l i s). Qed.

Lemma store_ok {S} (l : list Z) (i v : Z) (s : S) :
  0 <= i < Z.of_nat (length l) -> store (Some l) i v s = Ok (Some (wr l i v)) s.
Proof.
  intros H. destruct (index_lt l i H) as [w E]. unfold store, wr.
  rewrite E. by rewrite decide_True by lia.
Qed.

Lemma length_wr (l : list Z) (i v : Z) : length (wr l i v) = length l.
Proof. unfold wr. case_decide; [apply length_insert | done]. Qed.

Lemma length_add_at (l : list Z) (i v : Z) : length (add_at l i v) = length l.
Proof. apply length_wr. Qed.

Lemma rd_wr_eq (l : list Z) (i v : Z) :
  0 <= i < Z.of_nat (length l) -> rd (wr l i v) i = v.
Proof.
  intros H. unfold rd, wr, index. rewrite !decide_True by lia.
  rewrite list_lookup_insert_eq by lia. done.
Qed.

Lemma rd_wr_ne (l : list Z) (i j v : Z) : i <> j -> rd (wr l i v) j = rd l j.
Proof.
  intros H. unfold rd, wr, index. case_decide; [|done].
  case_decide; [|done]. rewrite list_lookup_insert_ne by lia. done.
Qed.

Lemma rd_add_at (l : list Z) (i n v : Z) :
  0 <= n < Z.of_nat (length l) ->
  rd (add_at l i v) n = rd l n + (if decide (i = n) then v else 0).
Proof.
  intros H. unfold add_at. case_decide as E.
  - subst. by rewrite rd_wr_eq.
  - rewrite rd_wr_ne by done. lia.
Qed.

Lemma sum_over_cons {A} (f : A -> Z) (a : A) (l : list A) :
  sum_over f (a :: l) = f a + sum_over f l.
Proof. reflexivity. Qed.


Lemma sum_over_ext {A} (f g : A -> Z) (l : list A) :
  (forall a, a ∈ l -> f a = g a) -> sum_over f l = sum_over g l.
Proof.
  induction l as [|a l IH]; intros H; simpl; [done|].
  rewrite H by left. rewrite IH; [done|]. intros. apply H. by right.
Qed.

Lemma sum_over_fmap {A B} (f : B -> Z) (h : A -> B) (l : list A) :
  sum_over f (h <$> l) = sum_over (fun a => f (h a)) l.
Proof. induction l as [|a l IH]; csimpl; [done|]. by rewrite IH. Qed.


Lemma sum_over_zero {A} (f : A -> Z) (l : list A) :
  (forall a, a ∈ l -> f a = 0) -> sum_over f l = 0.
Proof.
  induction l as [|a l IH]; intros H; simpl; [done|].
  rewrite H by left. rewrite IH; [done|]. intros. apply H. by right.
Qed.

Lemma sum_over_nonneg {A} (f : A -> Z) (l : list A) :
  Forall (fun a => 0 <= f a) l -> 0 <= sum_over f l.
Proof. induction 1; simpl; lia. Qed.

(** Scattered additions: entry [n] of the result is entry [n] of the start
    plus everything added at [n]. *)
Lemma rd_foldl_add_at {A} (ix val : A -> Z) (l : list A) (y : list Z) (n : Z) :
  0 <= n < Z.of_nat (length y) ->
  rd (foldl (fun y a => add_at y (ix a) (val a)) y l) n
    = rd y n + sum_over (fun a => if decide (ix a = n) then val a else 0) l.
Proof.
  revert y. induction l as [|a l IH]; intros y H; simpl; [lia|].
  rewrite IH by (by rewrite length_add_at). rewrite rd_add_at by done. lia.
Qed.

Lemma length_foldl_add_at {A} (ix val : A -> Z) (l : list A) (y : list Z) :
  length (foldl (fun y a => add_at y (ix a) (val a)) y l) = length y.
Proof.
  revert y. induction l as [|a l IH]; intros y; simpl; [done|].
  by rewrite IH, length_add_at.
Qed.

Lemma dot_comm (u v : list Z) : dot u v = dot v u.
Proof.
  revert v. induction u as [|a u IH]; intros [|b v]; try done.
  unfold dot in *. simpl. rewrite IH. unfold id. lia.
Qed.

Lemma dot_add_at (y w : list Z) (i v : Z) :
  0 <= i < Z.of_nat (length y) -> length w = length y ->
  dot (add_at y i v) w = dot y w + v * rd w i.
Proof.
  intros Hi Hl. unfold add_at, wr, rd at 2, index. rewrite !decide_True by lia.
  assert (Hn : (Z.to_nat i < length y)%nat) by lia.
  assert (Er : rd y i = default 0 (y !! Z.to_nat i)).
  { unfold rd, index. by rewrite decide_True by lia. }
  rewrite Er. clear Er Hi. revert Hn. generalize (Z.to_nat i). clear i.
  revert w Hl. induction y as [|a y IH]; intros [|b w] Hl n Hn; simpl in *; try lia.
  destruct n as [|n]; simpl.
  - unfold dot. simpl. unfold id. lia.
  - unfold dot in *. simpl. rewrite IH by lia. unfold id. lia.
Qed.

(** The dot product against scattered additions. *)
Lemma dot_foldl_add_at {A} (ix val : A -> Z) (l : list A) (y w : list Z) :
  Forall (fun a => 0 <= ix a < Z.of_nat (length y)) l ->
  length w = length y ->
  dot (foldl (fun y a => add_at y (ix a) (val a)) y l) w
    = dot y w + sum_over (fun a => val a * rd w (ix a)) l.
Proof.
  revert y. induction l as [|a l IH]; intros y H Hl; simpl; [lia|].
  inversion H as [|? ? Ha Hrest]; subst.
  rewrite IH; [| by rewrite length_add_at | by rewrite length_add_at].
  rewrite dot_add_at by done. lia.
Qed.

(** * From the invariant to bounds *)

Lemma length_prefix_sums (start : Z) (l : list Z) :
  length (prefix_sums start l) = length l.
Proof. revert start. induction l as [|x l IH]; intros start; simpl; [done|]. by rewrite IH. Qed.

Lemma prefix_sums_lookup (l : list Z) (start : Z) (n : nat) (x : Z) :
  Forall (fun n => 0 <= n) l ->
  l !! n = Some x ->
  exists p, prefix_sums start l !! n = Some p /\
            start <= p /\ p + x <= start + sum_over id l.
Proof.
  intros H. revert start n. induction H as [|a l Ha Hl IH]; intros start n E.
  - done.
  - pose proof (sum_over_nonneg id l Hl) as Hs. destruct n as [|n]; simpl in *.
    + inversion E; subst. exists start. unfold id in *. repeat split; lia.
    + destruct (IH (start + a) n E) as (p & Ep & ? & ?).
      exists p. unfold id in *. repeat split; [done | lia | lia].
Qed.

Lemma elem_of_all_cells bs row cell :
  (row, cell) ∈ all_cells bs <-> row ∈ rows bs /\ cell ∈ cells row.
Proof.
  unfold all_cells. rewrite list_elem_of_bind. split.
  - intros (row' & (cell' & E & Hc)%list_elem_of_fmap & Hr).
    inversion E; subst. done.
  - intros [Hr Hc]. exists row. split; [|done].
    apply list_elem_of_fmap. by exists cell.
Qed.

Lemma col_size_nonneg bs id :
  Forall (fun n => 0 <= n) (col_sizes bs) -> 0 <= col_size bs id.
Proof.
  intros H. unfold col_size, index. case_decide; [|done].
  destruct (col_sizes bs !! Z.to_nat id) as [x|] eqn:E; [|done].
  simpl. eapply (Forall_lookup_1 _ _ _ _ H E).
Qed.

Lemma structure_invariant_in_bounds bs :
  structure_invariant bs ->
  in_bounds bs (sum_over id (row_sizes bs)) (sum_over id (col_sizes bs))
            (sum_over id (cell_sizes bs)).
Proof.
  intros ((Hcs & Hrs & Hid) & Ecp & Erp & Ecell) row cell Hrow Hcell.
  (* the column block *)
  assert (Hrc : (row, cell) ∈ all_cells bs) by by apply elem_of_all_cells.
  apply list_elem_of_lookup in Hrc as [n En].
  assert (Hin : 0 <= Cell.block_id cell < Z.of_nat (length (col_sizes bs))).
  { eapply (Forall_lookup_1 _ _ n _ Hid). unfold cell_ids.
    by rewrite list_lookup_fmap, En. }
  destruct (index_lt _ _ Hin) as [cs Hcs'].
  assert (Hcs2 := Hcs'). unfold index in Hcs2. rewrite decide_True in Hcs2 by lia.
  destruct (prefix_sums_lookup _ 0 _ _ Hcs Hcs2) as (cp & Hcp & ? & ?).
  assert (0 <= cs) by (eapply (Forall_lookup_1 _ _ _ _ Hcs Hcs2)).
  (* the row block *)
  apply list_elem_of_lookup in Hrow as [nr Enr].
  assert (Ers : row_sizes bs !! nr = Some (Block.size (block row))).
  { unfold row_sizes. by rewrite list_lookup_fmap, Enr. }
  destruct (prefix_sums_lookup _ 0 _ _ Hrs Ers) as (rp & Hrp & ? & ?).
  assert (rp = Block.position (block row)) as ->.
  { rewrite <- Erp in Hrp. unfold row_positions in Hrp.
    rewrite list_lookup_fmap, Enr in Hrp. by inversion Hrp. }
  assert (0 <= Block.size (block row)) by (eapply (Forall_lookup_1 _ _ _ _ Hrs Ers)).
  (* the cell *)
  assert (Hsz : Forall (fun n => 0 <= n) (cell_sizes bs)).
  { unfold cell_sizes. apply Forall_fmap, Forall_forall. intros [row' cell'] Hin'.
    simpl. apply elem_of_all_cells in Hin' as [Hr' _].
    apply list_elem_of_lookup in Hr' as [n' En'].
    assert (0 <= Block.size (block row')).
    { eapply (Forall_lookup_1 _ _ n' _ Hrs). unfold row_sizes.
      by rewrite list_lookup_fmap, En'. }
    pose proof (col_size_nonneg bs (Cell.block_id cell') Hcs). nia. }
  assert (Esz : cell_sizes bs !! n = Some (Block.size (block row) * cs)).
  { unfold cell_sizes. rewrite list_lookup_fmap, En. simpl.
    unfold col_size. by rewrite Hcs'. }
  destruct (prefix_sums_lookup _ 0 _ _ Hsz Esz) as (pos & Hpos & ? & ?).
  assert (pos = Cell.position cell) as ->.
  { rewrite <- Ecell in Hpos. unfold cell_positions in Hpos.
    rewrite list_lookup_fmap, En in Hpos. by inversion Hpos. }
  exists cs, cp. unfold index. rewrite !decide_True by lia.
  rewrite Ecp. repeat split; try done; lia.
Qed.

Lemma matrix_invariant_in_bounds m :
  matrix_invariant m ->
  in_bounds (block_structure_ m) (num_rows_ m) (num_cols_ m)
            (Z.of_nat (length (values_ m))).
Proof.
  intros (Hs & -> & -> & Hn & ->). rewrite Hn.
  by apply structure_invariant_in_bounds.
Qed.

(** * Construction *)

Lemma cell_sizes_unfold bs :
  cell_sizes bs = rows bs ≫= row_cell_sizes bs.
Proof.
  unfold cell_sizes, all_cells, row_cell_sizes.
  induction (rows bs) as [|row l IH]; [done|].
  rewrite !bind_cons, fmap_app, IH. f_equal.
  by rewrite <- list_fmap_compose.
Qed.

Lemma forM_cons {S A B} (a : A) (l : list A) (body : A -> B -> M S B) b s :
  forM (a :: l) body b s = bind (body a b) (forM l body) s.
Proof. reflexivity. Qed.

Lemma int_value_ok {S} (z : Z) (s : S) :
  in_int z -> int_value z s = Ok z s.
Proof. intros H. unfold int_value. by rewrite decide_True. Qed.

Lemma int_sum_from_Some (l : list Z) (acc z : Z) :
  int_sum_from acc l = Some z -> z = acc + sum_over id l.
Proof.
  revert acc. induction l as [|x l IH]; intros acc.
  - simpl. intros [= <-]. lia.
  - rewrite sum_over_cons. cbn [int_sum_from].
    case_decide; [|done]. intros E%IH. unfold id at 1. lia.
Qed.

Lemma int_sum_from_app (l1 l2 : list Z) (acc : Z) :
  int_sum_from acc (l1 ++ l2) = int_sum_from acc l1 ≫= (fun a => int_sum_from a l2).
Proof.
  revert acc. induction l1 as [|x l1 IH]; intros acc; simpl; [done|].
  case_decide; [apply IH | done].
Qed.

(** Sums of counts stay within [int] when the total does. *)
Lemma int_sum_from_nonneg (l : list Z) (acc : Z) :
  Forall (fun n => 0 <= n) l ->
  INT_MIN <= acc -> acc + sum_over id l <= INT_MAX ->
  int_sum_from acc l = Some (acc + sum_over id l).
Proof.
  intros H. revert acc. induction H as [|x l Hx Hl IH]; intros acc Hlo Hhi.
  - simpl. f_equal. lia.
  - pose proof (sum_over_nonneg id l Hl).
    rewrite sum_over_cons in Hhi |- *. unfold id at 1 in Hhi. unfold id at 1.
    cbn [int_sum_from].
    rewrite decide_True by (unfold in_int; lia).
    rewrite IH by lia. f_equal. lia.
Qed.

Lemma forM_int_add {S} (l : list Z) (acc : Z) (s : S) :
  forM l (fun x acc => int_add acc x) acc s
  = match int_sum_from acc l with
    | Some z => Ok z s
    | None => Undefined
    end.
Proof.
  revert acc. induction l as [|x l IH]; intros acc; simpl; [done|].
  unfold bind, int_add, int_value. case_decide; [apply IH | done].
Qed.

Lemma block_id_in_range bs row cell :
  block_ids_in_range bs -> row ∈ rows bs -> cell ∈ cells row ->
  index (col_sizes bs) (Cell.block_id cell) = Some (col_size bs (Cell.block_id cell)).
Proof.
  intros Hid Hrow Hcell.
  assert (Hrc : (row, cell) ∈ all_cells bs) by by apply elem_of_all_cells.
  apply list_elem_of_lookup in Hrc as [n En].
  assert (Hin : 0 <= Cell.block_id cell < Z.of_nat (length (col_sizes bs))).
  { eapply (Forall_lookup_1 _ _ n _ Hid). unfold cell_ids.
    by rewrite list_lookup_fmap, En. }
  destruct (index_lt _ _ Hin) as [cs E]. unfold col_size. by rewrite E.
Qed.

Lemma descriptor_ok_cell_id bs row cell :
  descriptor_ok bs -> row ∈ rows bs -> cell ∈ cells row ->
  index (col_sizes bs) (Cell.block_id cell) = Some (col_size bs (Cell.block_id cell)).
Proof. intros (_ & _ & Hid). by apply block_id_in_range. Qed.

Lemma cell_sizes_nonneg bs :
  descriptor_ok bs -> Forall (fun n => 0 <= n) (cell_sizes bs).
Proof.
  intros (Hcs & Hrs & _). unfold cell_sizes.
  apply Forall_fmap, Forall_forall. intros [row cell] Hin. simpl.
  apply elem_of_all_cells in Hin as [Hr _].
  apply list_elem_of_lookup in Hr as [n En].
  assert (0 <= Block.size (block row)).
  { eapply (Forall_lookup_1 _ _ n _ Hrs). unfold row_sizes.
    by rewrite list_lookup_fmap, En. }
  pose proof (col_size_nonneg bs (Cell.block_id cell) Hcs). nia.
Qed.

Lemma DCHECK_NOTNULL_Some {S A} (dchk : bool) (a : A) :
  @DCHECK_NOTNULL dchk S A (Some a) = ret tt.
Proof. unfold DCHECK_NOTNULL. by destruct dchk. Qed.

(** The loop over the cells of one row block, when no product and no
    partial sum leaves [int]. *)
Lemma count_cells_loop {S} bs (row : CompressedRow) (cl : list Cell.t)
    (nnz nnz' : Z) (s : S) :
  (forall cell, cell ∈ cl ->
     index (col_sizes bs) (Cell.block_id cell)
     = Some (col_size bs (Cell.block_id cell))) ->
  Forall in_int
    ((fun cell => Block.size (block row) * col_size bs (Cell.block_id cell)) <$> cl) ->
  int_sum_from nnz
    ((fun cell => Block.size (block row) * col_size bs (Cell.block_id cell)) <$> cl)
  = Some nnz' ->
  forM cl (fun cell num_nonzeros =>
    let* col_block_size := vec_at (col_sizes bs) (Cell.block_id cell) in
    let* n := int_mul col_block_size (Block.size (block row)) in
    int_add num_nonzeros n) nnz s
  = Ok nnz' s.
Proof.
  revert nnz. induction cl as [|cell cl IH]; intros nnz Hid Hin Hsum.
  - simpl in *. by inversion Hsum.
  - csimpl in Hin. csimpl in Hsum. apply Forall_cons in Hin as [Hc Hin].
    case_decide as Hadd; [|done].
    rewrite (Z.mul_comm (Block.size (block row))) in Hc, Hadd.
    assert (Ev : vec_at (col_sizes bs) (Cell.block_id cell) s
                 = Ok (col_size bs (Cell.block_id cell)) s).
    { unfold vec_at. by rewrite Hid by left. }
    rewrite forM_cons.
    rewrite (bind_Ok _ _ s
      (nnz + col_size bs (Cell.block_id cell) * Block.size (block row)) s).
    2:{ cbv beta. rewrite (bind_Ok _ _ _ _ _ Ev).
        unfold int_mul at 1. rewrite (bind_Ok _ _ _ _ _ (int_value_ok _ s Hc)).
        unfold int_add. by rewrite int_value_ok. }
    rewrite (Z.mul_comm (col_size _ _)).
    apply IH; [|done|done]. intros. apply Hid. by right.
Qed.

(** The loop over the row blocks. *)
Lemma count_rows_loop {S} bs (l : list CompressedRow) (nr nnz nr' nnz' : Z) (s : S) :
  (forall row cell, row ∈ l -> cell ∈ cells row ->
     index (col_sizes bs) (Cell.block_id cell)
     = Some (col_size bs (Cell.block_id cell))) ->
  int_sum_from nr ((fun row => Block.size (block row)) <$> l) = Some nr' ->
  Forall in_int (l ≫= row_cell_sizes bs) ->
  int_sum_from nnz (l ≫= row_cell_sizes bs) = Some nnz' ->
  forM l (fun row '(num_rows, num_nonzeros) =>
    let row_block_size := Block.size (block row) in
    let* num_rows := int_add num_rows row_block_size in
    let* num_nonzeros :=
      forM (cells row) (fun cell num_nonzeros =>
        let col_block_id := Cell.block_id cell in
        let* col_block_size := vec_at (col_sizes bs) col_block_id in
        let* n := int_mul col_block_size row_block_size in
        int_add num_nonzeros n) num_nonzeros in
    ret (num_rows, num_nonzeros)) (nr, nnz) s
  = Ok (nr', nnz') s.
Proof.
  revert nr nnz. induction l as [|row l IH]; intros nr nnz Hid Hr Hin Hsum.
  - simpl in *. inversion Hr. inversion Hsum. done.
  - csimpl in Hr. case_decide as Hadd; [|done].
    rewrite bind_cons in Hin, Hsum. apply Forall_app in Hin as [Hin1 Hin2].
    rewrite int_sum_from_app in Hsum.
    destruct (int_sum_from nnz (row_cell_sizes bs row)) as [n1|] eqn:E1; [|done].
    simpl in Hsum.
    rewrite forM_cons.
    rewrite (bind_Ok _ _ s (nr + Block.size (block row), n1) s).
    2:{ cbv beta iota zeta.
        unfold int_add at 1. rewrite (bind_Ok _ _ _ _ _ (int_value_ok _ s Hadd)).
        rewrite (bind_Ok _ _ _ _ _
          (count_cells_loop bs row (cells row) nnz n1 s
             (fun cell Hc => Hid row cell ltac:(left) Hc) Hin1 E1)).
        reflexivity. }
    apply IH; try done. intros r c Hr' Hc. apply (Hid r c); [by right | done].
Qed.

(** The counting loops of the constructor, whenever no sum and no product
    leaves [int]. *)
Lemma BlockSparseMatrix_new_counts (dchk : bool) (heap : nat -> Z)
    (bs : CompressedRowBlockStructure) (nr nc nnz : Z) :
  block_ids_in_range bs ->
  int_sum (row_sizes bs) = Some nr ->
  int_sum (col_sizes bs) = Some nc ->
  Forall in_int (cell_sizes bs) ->
  int_sum (cell_sizes bs) = Some nnz ->
  BlockSparseMatrix_new dchk heap (Some bs) tt
  = (let* _ := DCHECK_GE dchk nr 0 in
     let* _ := DCHECK_GE dchk nc 0 in
     let* _ := DCHECK_GE dchk nnz 0 in
     let* values := new_array heap nnz in
     ret {| num_rows_ := nr;
            num_cols_ := nc;
            num_nonzeros_ := nnz;
            max_num_nonzeros_ := nnz;
            values_ := values;
            block_structure_ := bs |}) tt.
Proof.
  intros Hid Hr Hc Hin Hn. unfold BlockSparseMatrix_new.
  rewrite DCHECK_NOTNULL_Some, bind_ret. unfold deref. rewrite bind_ret.
  unfold int_sum in *.
  erewrite bind_Ok; [|by rewrite forM_int_add, Hc].
  rewrite cell_sizes_unfold in Hin, Hn.
  erewrite bind_Ok;
    [|apply (count_rows_loop bs (rows bs) 0 0 nr nnz tt);
      [intros; by apply (block_id_in_range bs row) | exact Hr | exact Hin | exact Hn]].
  cbv beta iota.
  unfold bind. destruct (DCHECK_GE dchk nr 0 tt) as [[] []| | |]; try done.
  destruct (DCHECK_GE dchk nc 0 tt) as [[] []| | |]; try done.
  destruct (DCHECK_GE dchk nnz 0 tt) as [[] []| | |]; try done.
  destruct (new_array heap nnz tt) as [v []| | |]; try done.
  by rewrite DCHECK_NOTNULL_Some.
Qed.

Lemma descriptor_ok_int_sums bs :
  descriptor_ok bs -> counts_fit_int bs ->
  block_ids_in_range bs /\
  int_sum (row_sizes bs) = Some (sum_over id (row_sizes bs)) /\
  int_sum (col_sizes bs) = Some (sum_over id (col_sizes bs)) /\
  Forall in_int (cell_sizes bs) /\
  int_sum (cell_sizes bs) = Some (sum_over id (cell_sizes bs)).
Proof.
  intros Hok (Hr & Hc & Hn). pose proof Hok as (Hcs & Hrs & Hid).
  pose proof (cell_sizes_nonneg bs Hok) as Hnn.
  unfold int_sum. split; [exact Hid|].
  rewrite !int_sum_from_nonneg by (done || unfold INT_MIN; lia).
  split_and!; try done.
  apply Forall_forall. intros x Hx.
  assert (0 <= x) by (rewrite Forall_forall in Hnn; by apply Hnn).
  assert (x <= sum_over id (cell_sizes bs)).
  { clear -Hx Hnn. induction Hnn as [|y l Hy Hl IH]; [by apply elem_of_nil in Hx|].
    pose proof (sum_over_nonneg id l Hl). rewrite sum_over_cons. unfold id at 1.
    apply elem_of_cons in Hx as [->|Hx]; [lia|]. apply IH in Hx. lia. }
  unfold in_int, INT_MIN. lia.
Qed.

Lemma BlockSparseMatrix_new_ok (dchk : bool) (heap : nat -> Z)
    (bs : CompressedRowBlockStructure) :
  descriptor_ok bs ->
  counts_fit_int bs ->
  BlockSparseMatrix_new dchk heap (Some bs) tt
  = Ok {| num_rows_ := sum_over id (row_sizes bs);
          num_cols_ := sum_over id (col_sizes bs);
          num_nonzeros_ := sum_over id (cell_sizes bs);
          max_num_nonzeros_ := sum_over id (cell_sizes bs);
          values_ := heap <$> seq 0 (Z.to_nat (sum_over id (cell_sizes bs)));
          block_structure_ := bs |} tt.
Proof.
  intros Hok Hfit. pose proof Hok as (Hcs & Hrs & _).
  destruct (descriptor_ok_int_sums bs Hok Hfit) as (Hid & Er & Ec & Hin & En).
  rewrite (BlockSparseMatrix_new_counts dchk heap bs _ _ _ Hid Er Ec Hin En).
  pose proof (sum_over_nonneg id _ Hcs).
  pose proof (sum_over_nonneg id _ Hrs).
  pose proof (sum_over_nonneg id _ (cell_sizes_nonneg bs Hok)).
  assert (EG : forall a, 0 <= a -> @DCHECK_GE dchk unit a 0 = ret tt).
  { intros. unfold DCHECK_GE. destruct dchk; [|done]. by rewrite decide_True. }
  rewrite !EG by done. rewrite !bind_ret.
  unfold new_array. rewrite decide_True by done. reflexivity.
Qed.

(** C1 (amended). For every block structure descriptor (sizes that are
    counts, cells that name existing column blocks) whose numbers of rows,
    columns and non-zeros are within int, construction returns a matrix whose
    num_cols is the sum of the column-block sizes, whose num_rows is the sum
    of the row-block sizes, whose num_nonzeros is the sum over every cell of
    row_block_size * column_block_size, and whose value buffer has exactly
    num_nonzeros scalars. *)
Theorem construction_counts (dchk : bool) (heap : nat -> Z)
    (bs : CompressedRowBlockStructure) :
  descriptor_ok bs ->
  counts_fit_int bs ->
  exists m,
    BlockSparseMatrix_new dchk heap (Some bs) tt = Ok m tt /\
    num_cols_ m = sum_over id (col_sizes bs) /\
    num_rows_ m = sum_over id (row_sizes bs) /\
    num_nonzeros_ m = sum_over id (cell_sizes bs) /\
    Z.of_nat (length (values_ m)) = num_nonzeros_ m /\
    block_structure_ m = bs.
Proof.
  intros Hok Hfit. eexists. split; [by apply BlockSparseMatrix_new_ok|].
  simpl. repeat split.
  rewrite length_fmap, length_seq.
  pose proof (sum_over_nonneg id _ (cell_sizes_nonneg bs Hok)). lia.
Qed.

(** * The arithmetic operations as folds over the slots *)

Lemma elem_of_block_slots rp rs cp cs pos (e : slot) :
  e ∈ block_slots rp rs cp cs pos ->
  exists r c, 0 <= r < rs /\ 0 <= c < cs /\
              e = (rp + r, cp + c, pos + (r * cs + c)).
Proof.
  unfold block_slots. rewrite list_elem_of_bind.
  intros (r & (c & -> & Hc)%list_elem_of_fmap & Hr).
  unfold range in *. apply elem_of_seqZ in Hr, Hc.
  exists r, c. repeat split; lia.
Qed.

Lemma slots_in_bounds bs nr nc nnz (e : slot) :
  in_bounds bs nr nc nnz -> e ∈ slots bs ->
  0 <= e.1.1 < nr /\ 0 <= e.1.2 < nc /\ 0 <= e.2 < nnz.
Proof.
  intros Hb. unfold slots, row_slots. rewrite list_elem_of_bind.
  intros (row & (cell & He & Hcell)%list_elem_of_bind & Hrow).
  destruct (Hb row cell Hrow Hcell)
    as (cs & cp & Ecs & Ecp & ? & ? & ? & ? & ? & ? & ? & ?).
  unfold col_size, col_position in He. rewrite Ecs, Ecp in He. simpl in He.
  apply elem_of_block_slots in He as (r & c & Hr & Hc & ->). simpl.
  repeat split; try lia; nia.
Qed.

Lemma RightMultiply_ok (dchk : bool) (m : BlockSparseMatrix) (x y : list Z) :
  in_bounds (block_structure_ m) (Z.of_nat (length y)) (Z.of_nat (length x))
            (Z.of_nat (length (values_ m))) ->
  RightMultiply dchk (Some x) (Some y) m
  = Ok (Some (foldl (right_step (values_ m) x) y (slots (block_structure_ m)))) m.
Proof.
  intros Hb. unfold RightMultiply. rewrite !DCHECK_NOTNULL_Some.
  destruct (visit_ok Some (fun y' => length y' = length y)
    (fun i j k c =>
       let* a := load (Some (values_ m)) k in
       let* bv := load (Some x) j in
       let* cv := load c i in
       store c i (cv + a * bv))
    (right_step (values_ m) x)
    (block_structure_ m) _ _ _ m y Hb eq_refl) as [E _]; [|exact E].
  intros i j k c Hi Hj Hk Hc.
  rewrite (bind_Ok _ _ _ _ _ (load_ok _ _ _ Hk)).
  rewrite (bind_Ok _ _ _ _ _ (load_ok _ _ _ Hj)).
  rewrite (bind_Ok _ _ _ _ _ (load_ok c i _ ltac:(lia))).
  rewrite store_ok by lia. split; [reflexivity|].
  unfold right_step, left_step. by rewrite length_add_at.
Qed.

Lemma LeftMultiply_ok (dchk : bool) (m : BlockSparseMatrix) (x y : list Z) :
  in_bounds (block_structure_ m) (Z.of_nat (length x)) (Z.of_nat (length y))
            (Z.of_nat (length (values_ m))) ->
  LeftMultiply dchk (Some x) (Some y) m
  = Ok (Some (foldl (left_step (values_ m) x) y (slots (block_structure_ m)))) m.
Proof.
  intros Hb. unfold LeftMultiply. rewrite !DCHECK_NOTNULL_Some.
  destruct (visit_ok Some (fun y' => length y' = length y)
    (fun i j k c =>
       let* a := load (Some (values_ m)) k in
       let* bv := load (Some x) i in
       let* cv := load c j in
       store c j (cv + a * bv))
    (left_step (values_ m) x)
    (block_structure_ m) _ _ _ m y Hb eq_refl) as [E _]; [|exact E].
  intros i j k c Hi Hj Hk Hc.
  rewrite (bind_Ok _ _ _ _ _ (load_ok _ _ _ Hk)).
  rewrite (bind_Ok _ _ _ _ _ (load_ok _ _ _ Hi)).
  rewrite (bind_Ok _ _ _ _ _ (load_ok c j _ ltac:(lia))).
  rewrite store_ok by lia. split; [reflexivity|].
  unfold right_step, left_step. by rewrite length_add_at.
Qed.

(** C2. For every matrix satisfying the invariant, x of length num_cols and
    y of length num_rows: what RightMultiply adds for x, dotted with y, is
    x dotted with what LeftMultiply adds for y (exact arithmetic). *)
Theorem adjoint_identity (dchk : bool) (m : BlockSparseMatrix)
    (x y y0 x0 : list Z) :
  matrix_invariant m ->
  Z.of_nat (length x) = num_cols_ m ->
  Z.of_nat (length y) = num_rows_ m ->
  length y0 = length y -> length x0 = length x ->
  exists y1 x1,
    RightMultiply dchk (Some x) (Some y0) m = Ok (Some y1) m /\
    LeftMultiply dchk (Some y) (Some x0) m = Ok (Some x1) m /\
    dot y1 y - dot y0 y = dot x x1 - dot x x0.
Proof.
  intros Hinv Hx Hy Hy0 Hx0.
  pose proof (matrix_invariant_in_bounds m Hinv) as Hb.
  rewrite <- Hx, <- Hy in Hb.
  eexists _, _. split; [|split].
  - apply RightMultiply_ok. by rewrite Hy0.
  - apply LeftMultiply_ok. by rewrite Hx0.
  - unfold right_step, left_step.
    rewrite (dot_foldl_add_at (fun e : slot => e.1.1)
               (fun e => rd (values_ m) e.2 * rd x e.1.2)); [| |done].
    2:{ apply Forall_forall. intros e He. rewrite Hy0.
        by apply (slots_in_bounds _ _ _ _ e Hb). }
    rewrite (dot_comm x (foldl _ _ _)).
    rewrite (dot_foldl_add_at (fun e : slot => e.1.2)
               (fun e => rd (values_ m) e.2 * rd y e.1.1)); [| |done].
    2:{ apply Forall_forall. intros e He. rewrite Hx0.
        by apply (slots_in_bounds _ _ _ _ e Hb). }
    rewrite (dot_comm x x0).
    assert (E : sum_over (fun e : slot => rd (values_ m) e.2 * rd x e.1.2 * rd y e.1.1)
                  (slots (block_structure_ m))
              = sum_over (fun e : slot => rd (values_ m) e.2 * rd y e.1.1 * rd x e.1.2)
                  (slots (block_structure_ m))).
    { apply sum_over_ext. intros. ring. }
    lia.
Qed.

(** * Writes at consecutive indices *)

Lemma foldl_wr_seq {A} (key val : A -> Z) (l : list A) (a : list Z) :
  key <$> l = seqZ 0 (Z.of_nat (length l)) ->
  (length l <= length a)%nat ->
  foldl (fun a e => wr a (key e) (val e)) a l
  = (val <$> l) ++ drop (length l) a.
Proof.
  induction l as [|e l IH] using rev_ind; intros Hk Hl.
  - simpl. by rewrite drop_0.
  - rewrite length_app in Hk, Hl. simpl in Hk, Hl.
    replace (length l + 1)%nat with (Datatypes.S (length l)) in Hk by lia.
    rewrite seqZ_S, fmap_app in Hk. simpl in Hk.
    apply app_inj_tail in Hk as [Hk1 Hk2].
    rewrite foldl_app, IH by (done || lia). simpl.
    rewrite Hk2. unfold wr. rewrite decide_True by lia.
    replace (Z.to_nat (0 + Z.of_nat (length l))) with (length (val <$> l) + 0)%nat
      by (rewrite length_fmap; lia).
    rewrite insert_app_r.
    destruct (lookup_lt_is_Some_2 a (length l)) as [x Hx]; [lia|].
    rewrite (drop_S _ _ _ Hx). simpl.
    rewrite fmap_app, length_app, <- app_assoc. simpl.
    by replace (length l + 1)%nat with (Datatypes.S (length l)) by lia.
Qed.

Lemma fmap_const_replicate {A} (v : Z) (l : list A) :
  (fun _ => v) <$> l = replicate (length l) v.
Proof. induction l as [|a l IH]; csimpl; [done|]. by rewrite IH. Qed.

Lemma fill_ok {S} (l : list Z) (n v : Z) (s : S) :
  0 <= n <= Z.of_nat (length l) ->
  fill (Some l) n v s
  = Ok (Some (replicate (Z.to_nat n) v ++ drop (Z.to_nat n) l)) s.
Proof.
  intros Hn. unfold fill. rewrite decide_True by lia.
  destruct (forM_ok (S:=S) Some (fun l' => length l' = length l) (range n)
    (fun i p => store p i v) (fun l' i => wr l' i v) s l eq_refl) as [E _].
  { intros i l' Hi Hl'. unfold range in Hi. apply elem_of_seqZ in Hi.
    rewrite store_ok by lia. by rewrite length_wr. }
  etrans; [exact E|]. do 2 f_equal.
  rewrite (foldl_wr_seq id (fun _ => v)).
  - unfold range. by rewrite fmap_const_replicate, length_seqZ.
  - unfold range. rewrite length_seqZ, Z2Nat.id by lia. by rewrite list_fmap_id.
  - unfold range. rewrite length_seqZ. lia.
Qed.

Lemma SetZero_ok (m : BlockSparseMatrix) :
  Z.of_nat (length (values_ m)) = num_nonzeros_ m ->
  SetZero m = Ok tt (set_values m (replicate (length (values_ m)) 0)).
Proof.
  intros Hn. unfold SetZero, values_get.
  rewrite bind_get, bind_assoc, bind_get, bind_ret.
  rewrite (bind_Ok _ _ _ _ _ (fill_ok (values_ m) (num_nonzeros_ m) 0 m ltac:(lia))).
  rewrite <- Hn, Nat2Z.id, drop_all, app_nil_r. reflexivity.
Qed.

Lemma add_at_0 (y : list Z) (i : Z) : add_at y i 0 = y.
Proof.
  unfold add_at, wr, rd, index. case_decide; [|done].
  destruct (y !! Z.to_nat i) as [v|] eqn:E; simpl.
  - apply list_insert_id. rewrite E. f_equal. lia.
  - apply list_insert_ge. by apply lookup_ge_None.
Qed.

Lemma rd_replicate_0 (n : nat) (k : Z) : rd (replicate n 0) k = 0.
Proof.
  unfold rd, index. case_decide; [|done].
  destruct (replicate n 0 !! Z.to_nat k) as [v|] eqn:E; [|done].
  apply lookup_replicate in E as [-> _]. done.
Qed.

Lemma set_values_in_bounds m v nr nc :
  length v = length (values_ m) ->
  in_bounds (block_structure_ m) nr nc (Z.of_nat (length (values_ m))) ->
  in_bounds (block_structure_ (set_values m v)) nr nc
            (Z.of_nat (length (values_ (set_values m v)))).
Proof. intros E H. simpl. by rewrite E. Qed.

(** Over the finite scalars in exact arithmetic: SetZero followed by
    RightMultiply returns the output vector y as it was before the call. *)
Lemma SetZero_RightMultiply_exact (dchk : bool) (m : BlockSparseMatrix)
    (x y : list Z) :
  matrix_invariant m ->
  Z.of_nat (length x) = num_cols_ m ->
  Z.of_nat (length y) = num_rows_ m ->
  (let* _ := SetZero in RightMultiply dchk (Some x) (Some y)) m
  = Ok (Some y) (set_values m (replicate (length (values_ m)) 0)).
Proof.
  intros Hinv Hx Hy.
  pose proof (matrix_invariant_in_bounds m Hinv) as Hb.
  destruct Hinv as (_ & _ & _ & _ & Hlen).
  rewrite (bind_Ok _ _ _ _ _ (SetZero_ok m Hlen)).
  rewrite RightMultiply_ok.
  2:{ apply set_values_in_bounds; [by rewrite length_replicate|].
      by rewrite Hx, Hy. }
  do 2 f_equal. simpl.
  generalize (slots (block_structure_ m)). intros l.
  induction l as [|e l IH] in y |- *; simpl; [done|].
  unfold right_step at 2. rewrite rd_replicate_0, Z.mul_0_l, add_at_0. apply IH.
Qed.

(** ** The same on scalars that may not be finite *)

Lemma NonFinite_index_rd (l : list double) (i : Z) :
  0 <= i < Z.of_nat (length l) -> index l i = Some (NonFinite.rd l i).
Proof.
  intros H. destruct (index_lt l i H) as [v E]. unfold NonFinite.rd. by rewrite E.
Qed.

Lemma NonFinite_load_ok {S} (l : list double) (i : Z) (s : S) :
  0 <= i < Z.of_nat (length l) ->
  NonFinite.load (Some l) i s = Ok (NonFinite.rd l i) s.
Proof.
  intros H. unfold NonFinite.load, vec_at. by rewrite NonFinite_index_rd.
Qed.

Lemma NonFinite_store_ok {S} (l : list double) (i : Z) (v : double) (s : S) :
  0 <= i < Z.of_nat (length l) ->
  NonFinite.store (Some l) i v s = Ok (Some (<[Z.to_nat i := v]> l)) s.
Proof.
  intros H. unfold NonFinite.store. by rewrite NonFinite_index_rd.
Qed.

Lemma foldl_insert_seqZ {A} (v : A) (n : nat) (l : list A) :
  (n <= length l)%nat ->
  foldl (fun l i => <[Z.to_nat i := v]> l) l (seqZ 0 (Z.of_nat n))
  = replicate n v ++ drop n l.
Proof.
  induction n as [|n IH]; intros Hn.
  - simpl. by rewrite drop_0.
  - rewrite seqZ_S, foldl_app, IH by lia. cbn [foldl].
    replace (Z.to_nat (0 + Z.of_nat n)) with (length (replicate n v) + 0)%nat
      by (rewrite length_replicate; lia).
    rewrite insert_app_r.
    destruct (lookup_lt_is_Some_2 l n) as [x Hx]; [lia|].
    rewrite (drop_S _ _ _ Hx), replicate_S_end, <- app_assoc. done.
Qed.

Lemma NonFinite_SetZero_ok (m : NonFinite.BlockSparseMatrix) :
  Z.of_nat (length (NonFinite.values_ m)) = NonFinite.num_nonzeros_ m ->
  NonFinite.SetZero m
  = Ok tt (NonFinite.set_values m
             (replicate (length (NonFinite.values_ m)) (Finite 0))).
Proof.
  intros Hn. unfold NonFinite.SetZero, NonFinite.values_get.
  rewrite bind_get, bind_assoc, bind_get, bind_ret.
  unfold NonFinite.fill. rewrite decide_True by lia.
  destruct (forM_ok (S:=NonFinite.BlockSparseMatrix) Some
    (fun l' => length l' = length (NonFinite.values_ m))
    (range (NonFinite.num_nonzeros_ m))
    (fun i p => NonFinite.store p i (Finite 0))
    (fun l' i => <[Z.to_nat i := Finite 0]> l') m (NonFinite.values_ m) eq_refl)
    as [E _].
  { intros i l' Hi Hl'. unfold range in Hi. apply elem_of_seqZ in Hi.
    rewrite NonFinite_store_ok by lia. by rewrite length_insert. }
  rewrite (bind_Ok _ _ _ _ _ E). unfold range.
  rewrite <- Hn, foldl_insert_seqZ by lia.
  by rewrite drop_all, app_nil_r.
Qed.

Lemma double_add_0 (a : double) : double_add a (Finite 0) = a.
Proof. destruct a as [z| |]; simpl; [by rewrite Z.add_0_r | done | done]. Qed.

Lemma double_mul_0_finite (b : double) :
  is_finite b -> double_mul (Finite 0) b = Finite 0.
Proof. by destruct b. Qed.

Lemma NonFinite_rd_finite (x : list double) (j : Z) :
  Forall is_finite x -> is_finite (NonFinite.rd x j).
Proof.
  intros H. unfold NonFinite.rd, index. case_decide; [|done].
  destruct (x !! Z.to_nat j) as [v|] eqn:E; [|done].
  simpl. eapply (Forall_lookup_1 _ _ _ _ H E).
Qed.

Lemma NonFinite_rd_zeros (n : nat) (k : Z) :
  NonFinite.rd (replicate n (Finite 0)) k = Finite 0.
Proof.
  unfold NonFinite.rd, index. case_decide; [|done].
  destruct (replicate n (Finite 0) !! Z.to_nat k) as [v|] eqn:E; [|done].
  apply lookup_replicate in E as [-> _]. done.
Qed.

Lemma foldl_const {A B} (l : list B) (a : A) : foldl (fun a _ => a) a l = a.
Proof. induction l as [|b l IH]; simpl; done. Qed.

(** C6 (amended). For every matrix satisfying the invariant, whatever its
    values, SetZero followed by RightMultiply with a vector x of length
    num_cols whose entries are all finite returns the output vector y as it
    was before the call, for every y of length num_rows, finite or not. *)
Theorem SetZero_RightMultiply_finite (dchk : bool) (m : NonFinite.BlockSparseMatrix)
    (x y : list double) :
  NonFinite.matrix_invariant m ->
  Forall is_finite x ->
  Z.of_nat (length x) = NonFinite.num_cols_ m ->
  Z.of_nat (length y) = NonFinite.num_rows_ m ->
  (let* _ := NonFinite.SetZero in NonFinite.RightMultiply dchk (Some x) (Some y)) m
  = Ok (Some y)
       (NonFinite.set_values m
          (replicate (length (NonFinite.values_ m)) (Finite 0))).
Proof.
  intros (Hs & Hr & Hc & Hn & Hlen) Hfin Hx Hy.
  pose proof (structure_invariant_in_bounds _ Hs) as Hb.
  rewrite <- Hr, <- Hc, <- Hn, <- Hy, <- Hx, <- Hlen in Hb.
  rewrite (bind_Ok _ _ _ _ _ (NonFinite_SetZero_ok m Hlen)).
  set (zeros := replicate (length (NonFinite.values_ m)) (Finite 0)).
  assert (Hz : length zeros = length (NonFinite.values_ m))
    by apply length_replicate.
  rewrite <- Hz in Hb.
  unfold NonFinite.RightMultiply. rewrite !DCHECK_NOTNULL_Some.
  rewrite !bind_ret, bind_get.
  rewrite (bind_Ok NonFinite.values_get _ (NonFinite.set_values m zeros)
             (Some zeros) (NonFinite.set_values m zeros) eq_refl).
  destruct (visit_ok Some (fun y' => y' = y)
    (fun i j k c =>
       let* a := NonFinite.load (Some zeros) k in
       let* bv := NonFinite.load (Some x) j in
       let* cv := NonFinite.load c i in
       NonFinite.store c i (double_add cv (double_mul a bv)))
    (fun y' _ => y')
    (NonFinite.block_structure_ m) _ _ _
    (NonFinite.set_values m zeros) y Hb eq_refl) as [E _].
  { intros i j k c Hi Hj Hk ->. split; [|done].
    rewrite (bind_Ok _ _ _ _ _ (NonFinite_load_ok _ _ _ Hk)).
    rewrite (bind_Ok _ _ _ _ _ (NonFinite_load_ok _ _ _ Hj)).
    rewrite (bind_Ok _ _ _ _ _ (NonFinite_load_ok _ _ _ Hi)).
    rewrite NonFinite_store_ok by done.
    unfold zeros. rewrite NonFinite_rd_zeros.
    rewrite double_mul_0_finite by by apply NonFinite_rd_finite.
    rewrite double_add_0. do 2 f_equal.
    apply list_insert_id. unfold NonFinite.rd, index.
    rewrite decide_True by lia.
    destruct (lookup_lt_is_Some_2 y (Z.to_nat i)) as [v Ev]; [lia|].
    by rewrite Ev. }
  etrans; [exact E|]. by rewrite foldl_const.
Qed.

Lemma SquaredColumnNorm_ok (dchk : bool) (m : BlockSparseMatrix) (x : list Z) (nr : Z) :
  Z.of_nat (length x) = num_cols_ m ->
  in_bounds (block_structure_ m) nr (num_cols_ m) (Z.of_nat (length (values_ m))) ->
  SquaredColumnNorm dchk (Some x) m
  = Ok (Some (foldl (norm_step (values_ m)) (replicate (length x) 0)
                    (slots (block_structure_ m)))) m.
Proof.
  intros Hx Hb. unfold SquaredColumnNorm. rewrite DCHECK_NOTNULL_Some.
  rewrite bind_ret, bind_get.
  rewrite (bind_Ok _ _ _ _ _ (fill_ok x (num_cols_ m) 0 m ltac:(lia))).
  rewrite <- Hx, Nat2Z.id, drop_all, app_nil_r.
  rewrite <- Hx in Hb.
  destruct (visit_ok Some (fun x' => length x' = length x)
    (fun i j k c =>
       let* a := load (Some (values_ m)) k in
       let* xv := load c j in
       store c j (xv + a * a))
    (norm_step (values_ m))
    (block_structure_ m) _ _ _ m (replicate (length x) 0) Hb
    (length_replicate _ _)) as [E _]; [|exact E].
  intros i j k c Hi Hj Hk Hc.
  rewrite (bind_Ok _ _ _ _ _ (load_ok _ _ _ Hk)).
  rewrite (bind_Ok _ _ _ _ _ (load_ok c j _ ltac:(lia))).
  rewrite store_ok by lia. split; [reflexivity|].
  unfold norm_step. by rewrite length_add_at.
Qed.

Lemma Matrix_coeff_ok {S} (nr nc : Z) (data : list Z) (i j : Z) (s : S) :
  Z.of_nat (length data) = nr * nc -> 0 <= i < nr -> 0 <= j < nc ->
  Matrix.coeff (Matrix.mk nr nc data) i j s = Ok (rd data (i * nc + j)) s.
Proof.
  intros Hl Hi Hj. unfold Matrix.coeff. simpl.
  rewrite decide_True by done. apply vec_at_ok. nia.
Qed.

Lemma Matrix_set_coeff_ok {S} (nr nc : Z) (data : list Z) (i j v : Z) (s : S) :
  Z.of_nat (length data) = nr * nc -> 0 <= i < nr -> 0 <= j < nc ->
  Matrix.set_coeff (Matrix.mk nr nc data) i j v s
  = Ok (Matrix.mk nr nc (wr data (i * nc + j) v)) s.
Proof.
  intros Hl Hi Hj. unfold Matrix.set_coeff. simpl.
  rewrite decide_True by done.
  rewrite (bind_Ok _ _ _ _ _ (store_ok data (i * nc + j) v s ltac:(nia))).
  reflexivity.
Qed.

Lemma ToDenseMatrix_ok (dchk : bool) (m : BlockSparseMatrix) (d0 : Matrix.t) :
  0 <= num_rows_ m -> 0 <= num_cols_ m ->
  in_bounds (block_structure_ m) (num_rows_ m) (num_cols_ m)
            (Z.of_nat (length (values_ m))) ->
  ToDenseMatrix dchk (Some d0) m
  = Ok (Matrix.mk (num_rows_ m) (num_cols_ m)
          (foldl (dense_step (values_ m) (num_cols_ m))
                 (replicate (Z.to_nat (num_rows_ m * num_cols_ m)) 0)
                 (slots (block_structure_ m)))) m.
Proof.
  intros Hr Hc Hb. unfold ToDenseMatrix. rewrite DCHECK_NOTNULL_Some.
  rewrite bind_ret, bind_get. unfold deref at 1. rewrite bind_ret.
  unfold Matrix.resize at 1. rewrite decide_True by done. rewrite bind_ret.
  unfold Matrix.setZero at 1. simpl Matrix.rows. simpl Matrix.cols.
  simpl Matrix.data. rewrite length_resize.
  destruct (visit_ok (Matrix.mk (num_rows_ m) (num_cols_ m))
    (fun data => Z.of_nat (length data) = num_rows_ m * num_cols_ m)
    (fun i j k c =>
       let* a := load (Some (values_ m)) k in
       let* mv := Matrix.coeff c i j in
       Matrix.set_coeff c i j (mv + a))
    (dense_step (values_ m) (num_cols_ m))
    (block_structure_ m) _ _ _ m
    (replicate (Z.to_nat (num_rows_ m * num_cols_ m)) 0) Hb) as [E _];
    [ rewrite length_replicate; nia | | exact E].
  intros i j k c Hi Hj Hk Hlen.
  rewrite (bind_Ok _ _ _ _ _ (load_ok _ _ _ Hk)).
  rewrite (bind_Ok _ _ _ _ _ (Matrix_coeff_ok _ _ _ _ _ _ Hlen Hi Hj)).
  rewrite Matrix_set_coeff_ok by done. split; [reflexivity|].
  unfold dense_step. by rewrite length_add_at.
Qed.

(** * The triplet export *)

Lemma counter_block_loops {S B} (F : Z -> Z -> Z -> B -> M S B)
    (rs cs pos : Z) (b : B) (s : S) :
  0 <= rs -> 0 <= cs ->
  forM (range rs) (fun r st =>
    forM (range cs) (fun c (st : Z * B) =>
      let* b' := F r c st.1 st.2 in ret (st.1 + 1, b')) st) (pos, b) s
  = (let* b' :=
       forM (range rs) (fun r b =>
         forM (range cs) (fun c b => F r c (pos + (r * cs + c)) b) b) b in
     ret (pos + rs * cs, b')) s.
Proof.
  intros Hrs Hcs. unfold range.
  rewrite (forM_ext _ _ (fun r (st : Z * B) =>
    let* b' := (fun jp r b => forM (seqZ 0 cs) (fun c b => F r c (jp + c) b) b)
                 st.1 r st.2 in
    ret (st.1 + cs, b'))).
  2:{ intros r [jp b0] s0 _.
      rewrite <- (Z2Nat.id cs) at 1 by done.
      rewrite (forM_seqZ_counter (fun jp c b => F r c jp b) 1 0 (Z.to_nat cs)).
      rewrite !Z2Nat.id by done. simpl. unfold bind.
      rewrite (forM_ext _ _ (fun c b1 => F r c (jp + c) b1)).
      2:{ intros c b1 s1 _. f_equal. lia. }
      destruct (forM _ _ b0 s0); try done. unfold ret. do 2 f_equal. lia. }
  rewrite <- (Z2Nat.id rs) at 1 by done.
  rewrite (forM_seqZ_counter
    (fun jp r b => forM (seqZ 0 cs) (fun c b => F r c (jp + c) b) b) cs 0 (Z.to_nat rs)).
  rewrite !Z2Nat.id by done. unfold bind.
  rewrite (forM_ext _ _ (fun r b0 =>
    forM (seqZ 0 cs) (fun c b1 => F r c (pos + (r * cs + c)) b1) b0)).
  2:{ intros r b0 s0 _. apply forM_ext. intros c b1 s1 _. f_equal. lia. }
  done.
Qed.

Lemma triplet_write_ok {S} (values : list Z) (t : TripletSparseMatrix.t)
    (i j k : Z) (s : S) :
  triplet_room (Z.of_nat (length values)) t ->
  0 <= k < Z.of_nat (length values) ->
  (let* t := TripletSparseMatrix.set_row k i t in
   let* t := TripletSparseMatrix.set_col k j t in
   let* v := vec_at values k in
   TripletSparseMatrix.set_value k v t) s
  = Ok (triplet_step values t (i, j, k)) s
  /\ triplet_room (Z.of_nat (length values)) (triplet_step values t (i, j, k)).
Proof.
  intros (Hr & Hc & Hv) Hk. split.
  - unfold TripletSparseMatrix.set_row.
    rewrite bind_assoc.
    rewrite (bind_Ok _ _ _ _ _ (store_ok (TripletSparseMatrix.rows t) k i s ltac:(lia))).
    rewrite bind_ret.
    unfold TripletSparseMatrix.set_col. simpl.
    rewrite bind_assoc.
    rewrite (bind_Ok _ _ _ _ _ (store_ok (TripletSparseMatrix.cols t) k j s ltac:(lia))).
    rewrite bind_ret.
    rewrite (bind_Ok _ _ _ _ _ (vec_at_ok _ k s Hk)).
    unfold TripletSparseMatrix.set_value. simpl.
    rewrite (bind_Ok _ _ _ _ _
      (store_ok (TripletSparseMatrix.values t) k (rd values k) s ltac:(lia))).
    reflexivity.
  - unfold triplet_room, triplet_step. simpl. rewrite !length_wr. done.
Qed.

Lemma ToTripletSparseMatrix_ok (dchk : bool) (m : BlockSparseMatrix)
    (t : TripletSparseMatrix.t) :
  Z.of_nat (length (values_ m)) = num_nonzeros_ m ->
  in_bounds (block_structure_ m) (num_rows_ m) (num_cols_ m)
            (Z.of_nat (length (values_ m))) ->
  ToTripletSparseMatrix dchk (Some t) m
  = Ok (TripletSparseMatrix.set_num_nonzeros (num_nonzeros_ m)
          (foldl (triplet_step (values_ m))
             (TripletSparseMatrix.SetZero
                (TripletSparseMatrix.Resize (num_rows_ m) (num_cols_ m)
                   (TripletSparseMatrix.Reserve (num_nonzeros_ m) t)))
             (slots (block_structure_ m)))) m.
Proof.
  intros Hn Hb. unfold ToTripletSparseMatrix. rewrite DCHECK_NOTNULL_Some.
  rewrite bind_ret, bind_get. unfold deref at 1. rewrite bind_ret.
  set (t0 := TripletSparseMatrix.SetZero _).
  assert (Hroom : triplet_room (Z.of_nat (length (values_ m))) t0).
  { unfold t0, triplet_room. simpl. rewrite length_replicate.
    unfold TripletSparseMatrix.grow. rewrite Hn.
    repeat split; case_decide; rewrite ?length_resize; lia. }
  destruct (visit_cells_ok id (triplet_room (Z.of_nat (length (values_ m))))
    (fun row_block_pos row_block_size col_block_pos col_block_size jac_pos matrix =>
       let* st :=
         forM (range row_block_size) (fun r st =>
           forM (range col_block_size) (fun c '(jac_pos, matrix) =>
             let* matrix := TripletSparseMatrix.set_row jac_pos (row_block_pos + r) matrix in
             let* matrix := TripletSparseMatrix.set_col jac_pos (col_block_pos + c) matrix in
             let* v := vec_at (values_ m) jac_pos in
             let* matrix := TripletSparseMatrix.set_value jac_pos v matrix in
             ret (jac_pos + 1, matrix)) st) (jac_pos, matrix) in
       ret (snd st))
    (triplet_step (values_ m))
    (block_structure_ m) _ _ _ m t0 Hb Hroom) as [E _].
  2:{ unfold id in E. rewrite (bind_Ok _ _ _ _ _ E). reflexivity. }
  intros rp rs cp cs pos t1 Hrs Hcs Hrp Hrp' Hcp Hcp' Hpos Hpos' Ht1. unfold id.
  unfold bind at 1.
  rewrite (forM_ext _ _ (fun r st =>
    forM (range cs) (fun c (st : Z * TripletSparseMatrix.t) =>
      let* b' := (fun r c jp t =>
                    let* t := TripletSparseMatrix.set_row jp (rp + r) t in
                    let* t := TripletSparseMatrix.set_col jp (cp + c) t in
                    let* v := vec_at (values_ m) jp in
                    TripletSparseMatrix.set_value jp v t) r c st.1 st.2 in
      ret (st.1 + 1, b')) st)).
  2:{ intros r st s0 _. apply forM_ext. intros c [jp t2] s1 _. simpl.
      unfold bind. by repeat case_match. }
  rewrite (counter_block_loops
    (fun r c jp t =>
       let* t := TripletSparseMatrix.set_row jp (rp + r) t in
       let* t := TripletSparseMatrix.set_col jp (cp + c) t in
       let* v := vec_at (values_ m) jp in
       TripletSparseMatrix.set_value jp v t) rs cs pos t1 m Hrs Hcs).
  destruct (block_loop_ok id (triplet_room (Z.of_nat (length (values_ m))))
    (fun i j k t =>
       let* t := TripletSparseMatrix.set_row k i t in
       let* t := TripletSparseMatrix.set_col k j t in
       let* v := vec_at (values_ m) k in
       TripletSparseMatrix.set_value k v t)
    (triplet_step (values_ m)) rp rs cp cs pos m t1 Ht1) as [E HI].
  { intros r c t2 Hr Hc Ht2. apply triplet_write_ok; [done|]. nia. }
  unfold id in E. rewrite (bind_Ok _ _ _ _ _ E). simpl.
  split; [reflexivity | exact HI].
Qed.

(** * The slots of a well-formed structure fill the buffer in order *)

Lemma fmap_bind_list {A B C} (f : B -> C) (h : A -> list B) (l : list A) :
  f <$> (l ≫= h) = l ≫= (fun x => f <$> h x).
Proof.
  induction l as [|a l IH]; [done|].
  by rewrite !bind_cons, fmap_app, IH.
Qed.

Lemma bind_bind_list {A B C} (f : A -> list B) (g : B -> list C) (l : list A) :
  (l ≫= f) ≫= g = l ≫= (fun x => f x ≫= g).
Proof.
  induction l as [|a l IH]; [done|].
  by rewrite !bind_cons, bind_app, IH.
Qed.

Lemma bind_ext_in {A B} (f g : A -> list B) (l : list A) :
  (forall a, a ∈ l -> f a = g a) -> l ≫= f = l ≫= g.
Proof.
  induction l as [|a l IH]; intros H; [done|].
  rewrite !bind_cons, H by left. rewrite IH; [done|]. intros. apply H. by right.
Qed.

Lemma slots_all_cells bs :
  slots bs
  = all_cells bs ≫= (fun rc =>
      block_slots (Block.position (block rc.1)) (Block.size (block rc.1))
                  (col_position bs (Cell.block_id rc.2))
                  (col_size bs (Cell.block_id rc.2))
                  (Cell.position rc.2)).
Proof.
  unfold slots, all_cells, row_slots. rewrite bind_bind_list.
  apply bind_ext_in. intros row _. by rewrite list_fmap_bind.
Qed.

Lemma block_slots_keys rp rs cp cs pos :
  0 <= rs -> 0 <= cs ->
  (fun e : slot => e.2) <$> block_slots rp rs cp cs pos = seqZ pos (rs * cs).
Proof.
  intros Hrs Hcs. unfold block_slots, range.
  rewrite <- (Z2Nat.id rs) by done. generalize (Z.to_nat rs). clear Hrs rs.
  intros n. induction n as [|n IH].
  - simpl. by rewrite seqZ_nil by lia.
  - rewrite seqZ_S, bind_app, fmap_app, IH, bind_singleton. simpl.
    rewrite <- list_fmap_compose.
    replace (Z.of_nat (Datatypes.S n) * cs) with (Z.of_nat n * cs + cs) by lia.
    rewrite seqZ_app by lia. f_equal.
    transitivity (Z.add (pos + Z.of_nat n * cs) <$> seqZ 0 cs).
    + apply list_fmap_ext. intros _ c _. simpl. lia.
    + rewrite fmap_add_seqZ. f_equal. lia.
Qed.

(** Consecutive segments whose starts are the prefix sums of their lengths
    make one segment. *)
Lemma bind_seqZ_prefix_sums {X} (p sz : X -> Z) (L : list X) (start : Z) :
  Forall (fun x => 0 <= sz x) L ->
  p <$> L = prefix_sums start (sz <$> L) ->
  L ≫= (fun x => seqZ (p x) (sz x)) = seqZ start (sum_over id (sz <$> L)).
Proof.
  intros H. revert start. induction H as [|x L Hx HL IH]; intros start E.
  - simpl. by rewrite seqZ_nil.
  - csimpl in E. inversion E as [[E1 E2]].
    rewrite bind_cons, (IH _ E2). csimpl. unfold id at 1.
    rewrite seqZ_app; [by rewrite E1 | done |].
    apply sum_over_nonneg. by apply Forall_fmap.
Qed.

Lemma slots_keys bs :
  structure_invariant bs ->
  (fun e : slot => e.2) <$> slots bs = seqZ 0 (sum_over id (cell_sizes bs)).
Proof.
  intros Hinv. pose proof Hinv as (Hok & _ & _ & Ecell).
  pose proof Hok as (Hcs & Hrs & _).
  rewrite slots_all_cells, fmap_bind_list.
  rewrite (bind_ext_in _ (fun rc =>
    seqZ ((fun rc => Cell.position rc.2) rc)
         ((fun rc => Block.size (block rc.1) * col_size bs (Cell.block_id rc.2)) rc))).
  - apply bind_seqZ_prefix_sums; [|exact Ecell].
    pose proof (cell_sizes_nonneg bs Hok) as H.
    unfold cell_sizes in H. rewrite Forall_forall in H.
    apply Forall_forall. intros rc Hrc. apply H.
    apply list_elem_of_fmap. by exists rc.
  - intros [row cell] Hin. simpl. apply block_slots_keys.
    + apply elem_of_all_cells in Hin as [Hr _].
      apply list_elem_of_lookup in Hr as [n En].
      eapply (Forall_lookup_1 _ _ n _ Hrs). unfold row_sizes.
      by rewrite list_lookup_fmap, En.
    + by apply col_size_nonneg.
Qed.

Lemma length_slots bs :
  structure_invariant bs ->
  Z.of_nat (length (slots bs)) = sum_over id (cell_sizes bs).
Proof.
  intros Hinv. rewrite <- (length_fmap (fun e : slot => e.2)), slots_keys by done.
  rewrite length_seqZ. pose proof Hinv as (Hok & _).
  pose proof (sum_over_nonneg id _ (cell_sizes_nonneg bs Hok)). lia.
Qed.

Lemma triplet_rows_foldl values t (l : list slot) :
  TripletSparseMatrix.rows (foldl (triplet_step values) t l)
  = foldl (fun a e => wr a e.2 e.1.1) (TripletSparseMatrix.rows t) l.
Proof. revert t. induction l as [|e l IH]; intros t; simpl; [done|]. by rewrite IH. Qed.

Lemma triplet_cols_foldl values t (l : list slot) :
  TripletSparseMatrix.cols (foldl (triplet_step values) t l)
  = foldl (fun a e => wr a e.2 e.1.2) (TripletSparseMatrix.cols t) l.
Proof. revert t. induction l as [|e l IH]; intros t; simpl; [done|]. by rewrite IH. Qed.

Lemma triplet_values_foldl values t (l : list slot) :
  TripletSparseMatrix.values (foldl (triplet_step values) t l)
  = foldl (fun a e => wr a e.2 (rd values e.2)) (TripletSparseMatrix.values t) l.
Proof. revert t. induction l as [|e l IH]; intros t; simpl; [done|]. by rewrite IH. Qed.

Lemma triplet_dims_foldl values t (l : list slot) :
  TripletSparseMatrix.num_rows (foldl (triplet_step values) t l)
    = TripletSparseMatrix.num_rows t /\
  TripletSparseMatrix.num_cols (foldl (triplet_step values) t l)
    = TripletSparseMatrix.num_cols t.
Proof. revert t. induction l as [|e l IH]; intros t; simpl; [done|]. by rewrite !(proj1 (IH _)), !(proj2 (IH _)). Qed.

Lemma take_zip3 {A} (f g h : A -> Z) (l : list A) (a b c : list Z) :
  take (length l) (zip (zip ((f <$> l) ++ a) ((g <$> l) ++ b)) ((h <$> l) ++ c))
  = (fun e => (f e, g e, h e)) <$> l.
Proof. induction l as [|e l IH]; csimpl; [done|]. by rewrite IH. Qed.

Lemma entries_unfold (m : BlockSparseMatrix) :
  entries m
  = (row ← rows (block_structure_ m);
     cell ← cells row;
     r ← range (Block.size (block row));
     (fun c =>
        (Block.position (block row) + r,
         col_position (block_structure_ m) (Cell.block_id cell) + c,
         rd (values_ m)
            (Cell.position cell
             + (r * col_size (block_structure_ m) (Cell.block_id cell) + c))))
       <$> range (col_size (block_structure_ m) (Cell.block_id cell))).
Proof.
  unfold entries, slots, row_slots, block_slots.
  rewrite fmap_bind_list. apply bind_ext_in. intros row _.
  rewrite fmap_bind_list. apply bind_ext_in. intros cell _.
  rewrite fmap_bind_list. apply bind_ext_in. intros r _.
  by rewrite <- list_fmap_compose.
Qed.

Lemma ToTripletSparseMatrix_entries (dchk : bool) (m : BlockSparseMatrix)
    (t : TripletSparseMatrix.t) :
  matrix_invariant m ->
  exists t',
    ToTripletSparseMatrix dchk (Some t) m = Ok t' m /\
    TripletSparseMatrix.triples t' = entries m /\
    Z.of_nat (length (entries m)) = num_nonzeros_ m /\
    TripletSparseMatrix.num_nonzeros t' = num_nonzeros_ m /\
    TripletSparseMatrix.num_rows t' = num_rows_ m /\
    TripletSparseMatrix.num_cols t' = num_cols_ m.
Proof.
  intros Hinv. pose proof (matrix_invariant_in_bounds m Hinv) as Hb.
  destruct Hinv as (Hs & Hnr & Hnc & Hnnz & Hlen).
  eexists. split; [by apply ToTripletSparseMatrix_ok|].
  set (t0 := TripletSparseMatrix.SetZero _).
  assert (Hroom : triplet_room (num_nonzeros_ m) t0).
  { unfold t0, triplet_room. simpl. rewrite length_replicate.
    unfold TripletSparseMatrix.grow.
    repeat split; case_decide; rewrite ?length_resize; lia. }
  assert (Hdims : TripletSparseMatrix.num_rows t0 = num_rows_ m /\
                  TripletSparseMatrix.num_cols t0 = num_cols_ m) by done.
  clearbody t0.
  pose proof (length_slots _ Hs) as Hls. rewrite <- Hnnz in Hls.
  pose proof (slots_keys _ Hs) as Hk. rewrite <- Hnnz, <- Hls in Hk.
  destruct Hroom as (Hr1 & Hr2 & Hr3).
  split.
  { unfold TripletSparseMatrix.triples. simpl.
    rewrite triplet_rows_foldl, triplet_cols_foldl, triplet_values_foldl.
    assert (Hn : forall a : list Z, num_nonzeros_ m <= Z.of_nat (length a) ->
              (length (slots (block_structure_ m)) <= length a)%nat) by (intros; lia).
    rewrite (foldl_wr_seq (fun e : slot => e.2) (fun e => e.1.1)) by (exact Hk || by apply Hn).
    rewrite (foldl_wr_seq (fun e : slot => e.2) (fun e => e.1.2)) by (exact Hk || by apply Hn).
    rewrite (foldl_wr_seq (fun e : slot => e.2) (fun e => rd (values_ m) e.2))
      by (exact Hk || by apply Hn).
    rewrite <- Hls, Nat2Z.id. apply take_zip3. }
  split; [unfold entries; rewrite length_fmap; lia|].
  simpl. split; [done|].
  rewrite !(proj1 (triplet_dims_foldl _ _ _)), !(proj2 (triplet_dims_foldl _ _ _)).
  exact Hdims.
Qed.

(** C4. For every matrix satisfying the invariant, ToTripletSparseMatrix
    produces exactly num_nonzeros triples: for every row block in order,
    every cell of it in order, every row offset r and every column offset c
    of the cell in row-major order, the triple
    (row_block_position + r, column_block_position + c, value). *)
Theorem ToTripletSparseMatrix_triples (dchk : bool) (m : BlockSparseMatrix)
    (t : TripletSparseMatrix.t) :
  matrix_invariant m ->
  exists t',
    ToTripletSparseMatrix dchk (Some t) m = Ok t' m /\
    TripletSparseMatrix.triples t'
    = (row ← rows (block_structure_ m);
       cell ← cells row;
       r ← range (Block.size (block row));
       (fun c =>
          (Block.position (block row) + r,
           col_position (block_structure_ m) (Cell.block_id cell) + c,
           rd (values_ m)
              (Cell.position cell
               + (r * col_size (block_structure_ m) (Cell.block_id cell) + c))))
         <$> range (col_size (block_structure_ m) (Cell.block_id cell))) /\
    Z.of_nat (length (TripletSparseMatrix.triples t')) = num_nonzeros_ m /\
    TripletSparseMatrix.num_nonzeros t' = num_nonzeros_ m /\
    TripletSparseMatrix.num_rows t' = num_rows_ m /\
    TripletSparseMatrix.num_cols t' = num_cols_ m.
Proof.
  intros Hinv.
  destruct (ToTripletSparseMatrix_entries dchk m t Hinv)
    as (t' & E & Et & Hl & Hn & Hr & Hc).
  exists t'. rewrite Et. repeat split; try done. apply entries_unfold.
Qed.

(** * The dense form and the column norms *)

Lemma flat_index_inj (nc a b i j : Z) :
  0 <= b < nc -> 0 <= j < nc -> a * nc + b = i * nc + j -> a = i /\ b = j.
Proof. intros Hb Hj E. assert (a = i) by nia. subst. lia. Qed.

Lemma dense_entry (m : BlockSparseMatrix) (i j : Z) :
  in_bounds (block_structure_ m) (num_rows_ m) (num_cols_ m)
            (Z.of_nat (length (values_ m))) ->
  0 <= i < num_rows_ m -> 0 <= j < num_cols_ m ->
  rd (foldl (dense_step (values_ m) (num_cols_ m))
            (replicate (Z.to_nat (num_rows_ m * num_cols_ m)) 0)
            (slots (block_structure_ m)))
     (i * num_cols_ m + j)
  = sum_at i j (entries m).
Proof.
  intros Hb Hi Hj. unfold dense_step.
  rewrite (rd_foldl_add_at (fun e : slot => e.1.1 * num_cols_ m + e.1.2)
             (fun e => rd (values_ m) e.2)).
  2:{ rewrite length_replicate. nia. }
  rewrite rd_replicate_0, Z.add_0_l.
  unfold sum_at, entries. rewrite sum_over_fmap.
  apply sum_over_ext. intros e He. simpl.
  destruct (slots_in_bounds _ _ _ _ e Hb He) as (_ & Hc & _).
  repeat case_decide; try done.
  - exfalso. match goal with H : ~ _ |- _ => apply H end.
    by apply (flat_index_inj (num_cols_ m)).
  - exfalso. match goal with H : ~ _ |- _ => apply H end.
    destruct_and!. by subst.
Qed.

Lemma sum_over_unique {A} `{EqDecision K} (key : A -> K) (val : A -> Z)
    (l : list A) (e : A) :
  NoDup (key <$> l) -> e ∈ l ->
  sum_over (fun e' => if decide (key e' = key e) then val e' else 0) l = val e.
Proof.
  induction l as [|a l IH]; intros Hnd He; [by apply elem_of_nil in He|].
  csimpl in Hnd. apply NoDup_cons in Hnd as [Ha Hnd]. simpl.
  apply elem_of_cons in He as [->|He].
  - rewrite decide_True by done. rewrite sum_over_zero; [lia|].
    intros a' Ha'. case_decide as E; [|done].
    exfalso. apply Ha. rewrite <- E. apply list_elem_of_fmap. by exists a'.
  - rewrite decide_False.
    + rewrite IH by done. lia.
    + intros E. apply Ha. rewrite E. apply list_elem_of_fmap. by exists e.
Qed.

Lemma sum_at_unique (l : list (Z * Z * Z)) (i j v : Z) :
  NoDup (fst <$> l) -> (i, j, v) ∈ l -> sum_at i j l = v.
Proof.
  intros Hnd He. unfold sum_at.
  etrans; [|exact (sum_over_unique fst snd l (i, j, v) Hnd He)].
  apply sum_over_ext. intros [[i' j'] v'] _. simpl.
  repeat case_decide; try done.
  - exfalso. destruct_and!. subst. done.
  - exfalso. match goal with H : ~ _ |- _ => apply H end.
    match goal with H : _ = _ |- _ => by inversion H end.
Qed.

Lemma sum_at_none (l : list (Z * Z * Z)) (i j : Z) :
  (forall v, (i, j, v) ∉ l) -> sum_at i j l = 0.
Proof.
  intros H. apply sum_over_zero. intros [[i' j'] v'] He. simpl.
  case_decide as E; [|done]. destruct E; subst. by apply H in He.
Qed.

Lemma invariant_counts_nonneg m :
  matrix_invariant m -> 0 <= num_rows_ m /\ 0 <= num_cols_ m /\ 0 <= num_nonzeros_ m.
Proof.
  intros ((Hok & _) & -> & -> & -> & _). pose proof Hok as (Hcs & Hrs & Hid).
  split; [by apply sum_over_nonneg|]. split; [by apply sum_over_nonneg|].
  apply sum_over_nonneg. by apply cell_sizes_nonneg.
Qed.

Lemma ToDenseMatrix_entries (dchk : bool) (m : BlockSparseMatrix) (d0 : Matrix.t) :
  matrix_invariant m ->
  exists d,
    ToDenseMatrix dchk (Some d0) m = Ok d m /\
    Matrix.rows d = num_rows_ m /\ Matrix.cols d = num_cols_ m /\
    forall i j, 0 <= i < num_rows_ m -> 0 <= j < num_cols_ m ->
      Matrix_get d i j = sum_at i j (entries m).
Proof.
  intros Hinv. pose proof (matrix_invariant_in_bounds m Hinv) as Hb.
  destruct (invariant_counts_nonneg m Hinv) as (Hr & Hc & _).
  eexists. split; [by apply ToDenseMatrix_ok|].
  split; [done|]. split; [done|].
  intros i j Hi Hj. unfold Matrix_get. simpl. by apply dense_entry.
Qed.

Lemma entries_in_bounds m (e : Z * Z * Z) :
  matrix_invariant m -> e ∈ entries m ->
  0 <= e.1.1 < num_rows_ m /\ 0 <= e.1.2 < num_cols_ m.
Proof.
  intros Hinv He. pose proof (matrix_invariant_in_bounds m Hinv) as Hb.
  unfold entries in He. apply list_elem_of_fmap in He as (sl & -> & Hsl).
  destruct (slots_in_bounds _ _ _ _ sl Hb Hsl) as (? & ? & _). done.
Qed.

Lemma sum_over_plus {A} (f g : A -> Z) (l : list A) :
  sum_over (fun a => f a + g a) l = sum_over f l + sum_over g l.
Proof. induction l as [|a l IH]; simpl; [done|]. rewrite IH. lia. Qed.

Lemma sum_over_swap {A B} (f : A -> B -> Z) (la : list A) (lb : list B) :
  sum_over (fun a => sum_over (f a) lb) la
  = sum_over (fun b => sum_over (fun a => f a b) la) lb.
Proof.
  induction la as [|a la IH]; simpl.
  - by rewrite sum_over_zero.
  - by rewrite IH, <- sum_over_plus.
Qed.

Lemma sum_over_indicator_range (a n w : Z) :
  0 <= a < n ->
  sum_over (fun i => if decide (a = i) then w else 0) (seqZ 0 n) = w.
Proof.
  intros Ha.
  etrans; [|apply (sum_over_unique id (fun _ => w) (seqZ 0 n) a)].
  - apply sum_over_ext. intros i _. unfold id. by repeat case_decide.
  - rewrite list_fmap_id. apply NoDup_seqZ.
  - apply elem_of_seqZ. lia.
Qed.

Lemma sq_sum_at (l : list (Z * Z * Z)) (i j : Z) :
  NoDup (fst <$> l) ->
  sum_at i j l * sum_at i j l
  = sum_over (fun e => if decide (e.1.1 = i /\ e.1.2 = j) then e.2 * e.2 else 0) l.
Proof.
  induction l as [|a l IH]; intros Hnd; [done|].
  csimpl in Hnd. apply NoDup_cons in Hnd as [Ha Hnd].
  unfold sum_at in *. simpl. case_decide as E.
  - rewrite !sum_over_zero; [lia | |].
    + intros e He. case_decide as E'; [|done]. exfalso. apply Ha.
      apply list_elem_of_fmap. exists e. split; [|done].
      destruct a as [[? ?] ?], e as [[? ?] ?]. simpl in *.
      destruct E, E'. by subst.
    + intros e He. case_decide as E'; [|done]. exfalso. apply Ha.
      apply list_elem_of_fmap. exists e. split; [|done].
      destruct a as [[? ?] ?], e as [[? ?] ?]. simpl in *.
      destruct E, E'. by subst.
  - rewrite !Z.add_0_l. by apply IH.
Qed.

Lemma dense_column_norm (l : list (Z * Z * Z)) (nr j : Z) :
  NoDup (fst <$> l) ->
  (forall e, e ∈ l -> 0 <= e.1.1 < nr) ->
  sum_over (fun i => sum_at i j l * sum_at i j l) (range nr)
  = sum_squares_in_col j l.
Proof.
  intros Hnd Hb.
  rewrite (sum_over_ext _ (fun i =>
    sum_over (fun e => if decide (e.1.1 = i /\ e.1.2 = j) then e.2 * e.2 else 0) l)).
  2:{ intros i _. by apply sq_sum_at. }
  rewrite sum_over_swap. unfold sum_squares_in_col.
  apply sum_over_ext. intros e He.
  case_decide as E.
  - etrans; [|apply (sum_over_indicator_range e.1.1 nr (e.2 * e.2)); by apply Hb].
    apply sum_over_ext. intros i _. repeat case_decide; try done.
    + exfalso. destruct_and!. done.
    + exfalso. match goal with H : ~ _ |- _ => by apply H end.
  - apply sum_over_zero. intros i _. case_decide as E'; [|done]. by destruct E'.
Qed.

(** * Distinct coordinates *)

Lemma elem_of_block_coords rp rs cp cs (y : Z * Z) :
  y ∈ block_coords rp rs cp cs ->
  rp <= y.1 < rp + rs /\ cp <= y.2 < cp + cs.
Proof.
  unfold block_coords. rewrite list_elem_of_bind.
  intros (r & (c & -> & Hc)%list_elem_of_fmap & Hr).
  unfold range in *. apply elem_of_seqZ in Hr, Hc. simpl. lia.
Qed.

Lemma NoDup_block_coords rp rs cp cs : NoDup (block_coords rp rs cp cs).
Proof.
  unfold block_coords. apply NoDup_bind.
  - intros r1 r2 y _ _ (c1 & -> & _)%list_elem_of_fmap (c2 & E & _)%list_elem_of_fmap.
    inversion E. lia.
  - intros r _. apply NoDup_fmap_2; [|apply NoDup_seqZ].
    intros c1 c2 E. inversion E. lia.
  - apply NoDup_seqZ.
Qed.

Lemma prefix_sums_mono (l : list Z) (start : Z) (a b : nat) (sa pa pb : Z) :
  Forall (fun n => 0 <= n) l ->
  l !! a = Some sa ->
  prefix_sums start l !! a = Some pa ->
  prefix_sums start l !! b = Some pb ->
  (a < b)%nat -> pa + sa <= pb.
Proof.
  intros H. revert start a b. induction H as [|x l Hx Hl IH]; intros start a b Ea Epa Epb Hab.
  - done.
  - destruct b as [|b]; [lia|]. destruct a as [|a]; simpl in *.
    + inversion Ea; inversion Epa; subst.
      destruct (lookup_lt_is_Some_2 l b) as [sb Esb].
      { apply lookup_lt_Some in Epb. by rewrite length_prefix_sums in Epb. }
      destruct (prefix_sums_lookup l (pa + sa) b sb Hl Esb) as (p & Ep & ? & _).
      rewrite Ep in Epb. inversion Epb. lia.
    + apply (IH (start + x) a b); (done || lia).
Qed.

Lemma NoDup_fmap_eq {A B} (g : A -> B) (l : list A) (x y : A) :
  NoDup (g <$> l) -> x ∈ l -> y ∈ l -> g x = g y -> x = y.
Proof.
  induction l as [|a l IH]; intros Hnd Hx Hy E; [by apply elem_of_nil in Hx|].
  csimpl in Hnd. apply NoDup_cons in Hnd as [Ha Hnd].
  apply elem_of_cons in Hx as [->|Hx]; apply elem_of_cons in Hy as [->|Hy]; try done.
  - exfalso. apply Ha. rewrite E. apply list_elem_of_fmap. by exists y.
  - exfalso. apply Ha. rewrite <- E. apply list_elem_of_fmap. by exists x.
  - by apply IH.
Qed.

Lemma NoDup_row_coords bs row :
  structure_invariant bs -> row ∈ rows bs ->
  NoDup (Cell.block_id <$> cells row) ->
  NoDup (row_coords bs row).
Proof.
  intros Hinv Hrow Hnd. pose proof Hinv as ((Hcs & _ & _) & Ecp & _).
  pose proof (structure_invariant_in_bounds bs Hinv) as Hb.
  unfold row_coords. apply NoDup_bind.
  - intros c1 c2 y H1 H2 Hy1 Hy2.
    apply (NoDup_fmap_eq Cell.block_id (cells row)); try done.
    apply elem_of_block_coords in Hy1 as [_ Hy1], Hy2 as [_ Hy2].
    destruct (Hb row c1 Hrow H1) as (s1 & p1 & Es1 & Ep1 & _).
    destruct (Hb row c2 Hrow H2) as (s2 & p2 & Es2 & Ep2 & _).
    unfold col_position, col_size in Hy1, Hy2.
    rewrite Es1, Ep1 in Hy1. rewrite Es2, Ep2 in Hy2. simpl in Hy1, Hy2.
    pose proof (index_Some_lt _ _ _ Es1). pose proof (index_Some_lt _ _ _ Es2).
    unfold index in Es1, Ep1, Es2, Ep2.
    rewrite decide_True in Es1 by lia. rewrite decide_True in Ep1 by lia.
    rewrite decide_True in Es2 by lia. rewrite decide_True in Ep2 by lia.
    rewrite Ecp in Ep1, Ep2.
    destruct (Z.lt_trichotomy (Cell.block_id c1) (Cell.block_id c2)) as [Hlt|[Heq|Hgt]];
      [exfalso | done | exfalso].
    + pose proof (prefix_sums_mono _ 0 _ _ _ _ _ Hcs Es1 Ep1 Ep2 ltac:(lia)). lia.
    + pose proof (prefix_sums_mono _ 0 _ _ _ _ _ Hcs Es2 Ep2 Ep1 ltac:(lia)). lia.
  - intros cell _. apply NoDup_block_coords.
  - by apply NoDup_fmap_1 in Hnd.
Qed.

Lemma NoDup_rows_coords bs (l : list CompressedRow) (p : Z) :
  (fun row => Block.position (block row)) <$> l
    = prefix_sums p ((fun row => Block.size (block row)) <$> l) ->
  Forall (fun row => 0 <= Block.size (block row)) l ->
  Forall (fun row => NoDup (row_coords bs row)) l ->
  NoDup (l ≫= row_coords bs) /\
  (forall y, y ∈ l ≫= row_coords bs -> p <= y.1).
Proof.
  revert p. induction l as [|row l IH]; intros p Epos Hsz Hnd.
  - split; [constructor | by intros y Hy%elem_of_nil].
  - csimpl in Epos. inversion Epos as [[Ep Erest]].
    apply Forall_cons in Hsz as [Hs Hsz]. apply Forall_cons in Hnd as [Hn Hnd].
    destruct (IH _ Erest Hsz Hnd) as [IH1 IH2].
    assert (Hrow : forall y, y ∈ row_coords bs row ->
              Block.position (block row) <= y.1
              < Block.position (block row) + Block.size (block row)).
    { intros y (cell & Hy & _)%list_elem_of_bind.
      by apply elem_of_block_coords in Hy as [? _]. }
    rewrite bind_cons. split.
    + apply NoDup_app. split_and!; [done | | done].
      intros y Hy Hy'. apply Hrow in Hy. apply IH2 in Hy'. lia.
    + intros y [Hy|Hy]%elem_of_app.
      * apply Hrow in Hy. lia.
      * apply IH2 in Hy. lia.
Qed.

Lemma slots_coords bs :
  (fun e : slot => e.1) <$> slots bs = rows bs ≫= row_coords bs.
Proof.
  unfold slots, row_slots, row_coords, block_slots, block_coords.
  rewrite fmap_bind_list. apply bind_ext_in. intros row _.
  rewrite fmap_bind_list. apply bind_ext_in. intros cell _.
  rewrite fmap_bind_list. apply bind_ext_in. intros r _.
  by rewrite <- list_fmap_compose.
Qed.

Lemma no_repeated_blocks_distinct (m : BlockSparseMatrix) :
  matrix_invariant m ->
  no_repeated_blocks (block_structure_ m) ->
  NoDup (fst <$> entries m).
Proof.
  intros (Hinv & _) Hrep. pose proof Hinv as ((_ & Hrs & _) & _ & Erp & _).
  unfold entries. rewrite <- list_fmap_compose.
  assert (E : fst ∘ (fun e : slot => (e.1.1, e.1.2, rd (values_ m) e.2))
                <$> slots (block_structure_ m)
              = (fun e : slot => e.1) <$> slots (block_structure_ m)).
  { apply list_fmap_ext. intros _ [[i j] k] _. done. }
  rewrite E, slots_coords.
  apply (NoDup_rows_coords _ _ 0).
  - exact Erp.
  - unfold row_sizes in Hrs. rewrite Forall_forall in Hrs.
    apply Forall_forall. intros row Hrow. apply Hrs.
    apply list_elem_of_fmap. by exists row.
  - apply Forall_forall. intros row Hrow.
    apply NoDup_row_coords; [done | done |].
    unfold no_repeated_blocks in Hrep. rewrite Forall_forall in Hrep. by apply Hrep.
Qed.

(** C7 (amended). For every matrix satisfying the invariant, every triple
    of ToTripletSparseMatrix lands inside the matrix of ToDenseMatrix, and
    every dense entry is the sum of the values of the triples at its
    coordinates: zero where no triple lands, and the triple's value where the
    triples have pairwise distinct coordinates, as they have when no row
    block lists a column block in two cells. *)
Theorem dense_is_sum_of_triples (dchk : bool) (m : BlockSparseMatrix)
    (d0 : Matrix.t) (t0 : TripletSparseMatrix.t) :
  matrix_invariant m ->
  exists d t,
    ToDenseMatrix dchk (Some d0) m = Ok d m /\
    ToTripletSparseMatrix dchk (Some t0) m = Ok t m /\
    Matrix.rows d = num_rows_ m /\ Matrix.cols d = num_cols_ m /\
    (forall i j v, (i, j, v) ∈ TripletSparseMatrix.triples t ->
       0 <= i < Matrix.rows d /\ 0 <= j < Matrix.cols d) /\
    (forall i j, 0 <= i < Matrix.rows d -> 0 <= j < Matrix.cols d ->
       Matrix_get d i j = sum_at i j (TripletSparseMatrix.triples t)) /\
    (forall i j, 0 <= i < Matrix.rows d -> 0 <= j < Matrix.cols d ->
       (forall v, (i, j, v) ∉ TripletSparseMatrix.triples t) ->
       Matrix_get d i j = 0) /\
    (NoDup (fst <$> TripletSparseMatrix.triples t) -> dense_matches_triples d t) /\
    (no_repeated_blocks (block_structure_ m) -> dense_matches_triples d t).
Proof.
  intros Hinv.
  destruct (ToDenseMatrix_entries dchk m d0 Hinv) as (d & Ed & Hr & Hc & Hd).
  destruct (ToTripletSparseMatrix_entries dchk m t0 Hinv) as (t & Et & Htr & _).
  exists d, t. rewrite Htr, Hr, Hc.
  assert (Hin : forall i j v, (i, j, v) ∈ entries m ->
            0 <= i < num_rows_ m /\ 0 <= j < num_cols_ m).
  { intros i j v He. apply (entries_in_bounds m (i, j, v) Hinv He). }
  assert (Hnone : forall i j, 0 <= i < num_rows_ m -> 0 <= j < num_cols_ m ->
            (forall v, (i, j, v) ∉ entries m) -> Matrix_get d i j = 0).
  { intros i j Hi Hj Hn. rewrite Hd by done. by apply sum_at_none. }
  assert (Hmatch : NoDup (fst <$> entries m) -> dense_matches_triples d t).
  { intros Hnd. split.
    - intros i j v He. rewrite Htr in He.
      destruct (Hin i j v He). rewrite Hd by done.
      by apply sum_at_unique.
    - rewrite Htr, Hr, Hc. apply Hnone. }
  split_and!; try done.
  intros Hrep. by apply Hmatch, no_repeated_blocks_distinct.
Qed.

(** C5 (amended). For every matrix satisfying the invariant,
    SquaredColumnNorm overwrites x and leaves in it, for each global column
    index, the sum of the squares of all stored entries of that column; this
    is the per-column squared norm of the dense form when the entries have
    pairwise distinct coordinates, as they have when no row block lists a
    column block in two cells. *)
Theorem SquaredColumnNorm_columns (dchk : bool) (m : BlockSparseMatrix)
    (x : list Z) (d0 : Matrix.t) :
  matrix_invariant m ->
  Z.of_nat (length x) = num_cols_ m ->
  exists x' d,
    SquaredColumnNorm dchk (Some x) m = Ok (Some x') m /\
    ToDenseMatrix dchk (Some d0) m = Ok d m /\
    length x' = length x /\
    (forall j, 0 <= j < num_cols_ m -> rd x' j = sum_squares_in_col j (entries m)) /\
    (NoDup (fst <$> entries m) -> column_norms_of_dense d x') /\
    (no_repeated_blocks (block_structure_ m) -> column_norms_of_dense d x').
Proof.
  intros Hinv Hx. pose proof (matrix_invariant_in_bounds m Hinv) as Hb.
  destruct (ToDenseMatrix_entries dchk m d0 Hinv) as (d & Ed & Hr & Hc & Hd).
  eexists _, d. split; [by apply (SquaredColumnNorm_ok dchk m x (num_rows_ m))|].
  split; [done|]. unfold norm_step.
  split; [by rewrite length_foldl_add_at, length_replicate|].
  assert (Hn : forall j, 0 <= j < num_cols_ m ->
    rd (foldl (fun (x0 : list Z) (e : slot) =>
                 add_at x0 e.1.2 (rd (values_ m) e.2 * rd (values_ m) e.2))
              (replicate (length x) 0) (slots (block_structure_ m))) j
    = sum_squares_in_col j (entries m)).
  { intros j Hj.
    rewrite (rd_foldl_add_at (fun e : slot => e.1.2)
               (fun e => rd (values_ m) e.2 * rd (values_ m) e.2)).
    2:{ rewrite length_replicate. lia. }
    rewrite rd_replicate_0, Z.add_0_l.
    unfold sum_squares_in_col, entries. by rewrite sum_over_fmap. }
  split; [exact Hn|].
  assert (Hdense : NoDup (fst <$> entries m) ->
    column_norms_of_dense d
      (foldl (fun (x0 : list Z) (e : slot) =>
                add_at x0 e.1.2 (rd (values_ m) e.2 * rd (values_ m) e.2))
             (replicate (length x) 0) (slots (block_structure_ m)))).
  { intros Hnd j Hj. rewrite Hc in Hj. rewrite Hn, Hr by done.
    rewrite <- (dense_column_norm _ (num_rows_ m)); [|done|].
    - apply sum_over_ext. intros i Hi. unfold range in Hi.
      apply elem_of_seqZ in Hi. rewrite Hd by lia. done.
    - intros e He. by apply (entries_in_bounds m e Hinv He). }
  split; [exact Hdense|].
  intros Hrep. by apply Hdense, no_repeated_blocks_distinct.
Qed.

(** * Frame properties *)

Global Instance same_shape_refl : Reflexive same_shape.
Proof. by intros m. Qed.

Global Instance same_shape_trans : Transitive same_shape.
Proof.
  intros m1 m2 m3 (? & ? & ? & ? & ?) (? & ? & ? & ? & ?).
  unfold same_shape. split_and!; congruence.
Qed.

Section Frame.
Context {S : Type} (R : S -> S -> Prop) `{!Reflexive R, !Transitive R}.

Lemma keeps_ret {A} (a : A) : keeps R (ret a).
Proof. intros s. simpl. reflexivity. Qed.

Lemma keeps_get : keeps R get.
Proof. intros s. simpl. reflexivity. Qed.

Lemma keeps_fatal {A} : keeps R (@fatal S A).
Proof. by intros s. Qed.

Lemma keeps_undefined {A} : keeps R (@undefined S A).
Proof. by intros s. Qed.

Lemma keeps_throw {A} w : keeps R (@throw S A w).
Proof. intros s. simpl. reflexivity. Qed.

Lemma keeps_bind {A B} (c : M S A) (k : A -> M S B) :
  keeps R c -> (forall a, keeps R (k a)) -> keeps R (bind c k).
Proof.
  intros Hc Hk s. unfold bind. specialize (Hc s).
  destruct (c s) as [a s'| | |]; try done.
  specialize (Hk a s'). destruct (k a s'); try done; by etrans.
Qed.

Lemma keeps_forM {A B} (l : list A) (body : A -> B -> M S B) (b : B) :
  (forall a b, keeps R (body a b)) -> keeps R (forM l body b).
Proof.
  intros Hbody. revert b. induction l as [|a l IH]; intros b; simpl.
  - apply keeps_ret.
  - apply keeps_bind; [apply Hbody | apply IH].
Qed.

Lemma keeps_vec_at {A} (v : list A) (i : Z) : keeps R (vec_at v i).
Proof. unfold vec_at. destruct (index v i); [apply keeps_ret | apply keeps_undefined]. Qed.

Lemma keeps_load (p : ptr) (i : Z) : keeps R (load p i).
Proof. destruct p; [apply keeps_vec_at | apply keeps_undefined]. Qed.

Lemma keeps_store (p : ptr) (i v : Z) : keeps R (store p i v).
Proof.
  destruct p as [l|]; [|apply keeps_undefined]. simpl.
  destruct (index l i); [apply keeps_ret | apply keeps_undefined].
Qed.

Lemma keeps_fill (p : ptr) (n v : Z) : keeps R (fill p n v).
Proof.
  unfold fill. case_decide; [|apply keeps_undefined].
  apply keeps_forM. intros. apply keeps_store.
Qed.

Lemma keeps_deref {A} (p : option A) : keeps R (deref p).
Proof. destruct p; [apply keeps_ret | apply keeps_undefined]. Qed.

Lemma keeps_CHECK_NOTNULL {A} (p : option A) : keeps R (CHECK_NOTNULL p).
Proof. destruct p; [apply keeps_ret | apply keeps_fatal]. Qed.

Lemma keeps_DCHECK_NOTNULL {A} dchk (p : option A) : keeps R (DCHECK_NOTNULL dchk p).
Proof. unfold DCHECK_NOTNULL. destruct dchk; [apply keeps_CHECK_NOTNULL | apply keeps_ret]. Qed.

End Frame.

Create HintDb frame discriminated.
#[export] Hint Resolve keeps_ret keeps_get keeps_fatal keeps_undefined
  keeps_throw keeps_vec_at keeps_load keeps_store keeps_fill keeps_deref
  keeps_CHECK_NOTNULL keeps_DCHECK_NOTNULL : frame.

Ltac frame :=
  repeat first
    [ progress intros
    | apply keeps_bind
    | apply keeps_forM
    | solve [eauto with frame typeclass_instances]
    | match goal with
      | |- keeps _ (match ?x with _ => _ end) => destruct x
      | |- keeps _ (if ?x then _ else _) => destruct x
      end ].

Lemma preserves_values_get : preserves values_get.
Proof. unfold preserves, values_get. frame. Qed.

Lemma same_shape_values_put p : keeps same_shape (values_put p).
Proof.
  destruct p as [v|]; [|apply keeps_undefined; apply _].
  intros s. simpl. done.
Qed.

Lemma eq_keeps_same_shape {A} (c : M BlockSparseMatrix A) :
  preserves c -> keeps same_shape c.
Proof.
  intros H s. specialize (H s). destruct (c s); try done; by subst.
Qed.

Lemma preserves_RightMultiply dchk x y : preserves (RightMultiply dchk x y).
Proof.
  unfold preserves, RightMultiply, MatrixVectorMultiply, values_get. frame.
Qed.

Lemma preserves_LeftMultiply dchk x y : preserves (LeftMultiply dchk x y).
Proof.
  unfold preserves, LeftMultiply, MatrixTransposeVectorMultiply, values_get. frame.
Qed.

Lemma preserves_SquaredColumnNorm dchk x : preserves (SquaredColumnNorm dchk x).
Proof.
  unfold preserves, SquaredColumnNorm, add_colwise_squaredNorm, values_get. frame.
Qed.

Lemma preserves_ToDenseMatrix dchk d : preserves (ToDenseMatrix dchk d).
Proof.
  unfold preserves, ToDenseMatrix, add_to_block, values_get,
    Matrix.resize, Matrix.coeff, Matrix.set_coeff.
  frame.
Qed.

Lemma preserves_ToTripletSparseMatrix dchk t : preserves (ToTripletSparseMatrix dchk t).
Proof.
  unfold preserves, ToTripletSparseMatrix, TripletSparseMatrix.set_row,
    TripletSparseMatrix.set_col, TripletSparseMatrix.set_value.
  frame.
Qed.

Lemma same_shape_SetZero : keeps same_shape SetZero.
Proof.
  unfold SetZero. apply keeps_bind; [apply _ | frame |]. intros self.
  apply keeps_bind; [apply _ | apply eq_keeps_same_shape, preserves_values_get |].
  intros p. apply keeps_bind; [apply _ | frame |]. intros p'.
  apply same_shape_values_put.
Qed.

Lemma same_shape_ScaleColumns dchk scale : keeps same_shape (ScaleColumns dchk scale).
Proof.
  unfold ScaleColumns, scale_columns_in_place.
  apply keeps_bind; [apply _ | frame |]. intros _.
  apply keeps_bind; [apply _ | frame |]. intros self.
  apply keeps_bind; [apply _ | apply eq_keeps_same_shape, preserves_values_get |].
  intros p. apply keeps_bind; [apply _ | frame |]. intros p'.
  apply same_shape_values_put.
Qed.

Lemma ScaleColumns_example :
  ScaleColumns true (Some [1; 10; 100]) ex_m
  = Ok tt (set_values ex_m [1; 20; 300; 4; 50; 6; 70]).
Proof. reflexivity. Qed.

Lemma SetZero_example :
  SetZero ex_m = Ok tt (set_values ex_m [0; 0; 0; 0; 0; 0; 0]).
Proof. reflexivity. Qed.

(** C10. RightMultiply, LeftMultiply, SquaredColumnNorm, ToDenseMatrix and
    ToTripletSparseMatrix leave the matrix as it was (value buffer,
    descriptor and the derived counts); SetZero and ScaleColumns leave the
    descriptor and the derived counts as they were. *)
Theorem frame_invariant (dchk : bool) :
  (forall x y, preserves (RightMultiply dchk x y)) /\
  (forall x y, preserves (LeftMultiply dchk x y)) /\
  (forall x, preserves (SquaredColumnNorm dchk x)) /\
  (forall d, preserves (ToDenseMatrix dchk d)) /\
  (forall t, preserves (ToTripletSparseMatrix dchk t)) /\
  keeps same_shape SetZero /\
  (forall scale, keeps same_shape (ScaleColumns dchk scale)).
Proof.
  split_and!.
  - apply preserves_RightMultiply.
  - apply preserves_LeftMultiply.
  - apply preserves_SquaredColumnNorm.
  - apply preserves_ToDenseMatrix.
  - apply preserves_ToTripletSparseMatrix.
  - apply same_shape_SetZero.
  - apply same_shape_ScaleColumns.
Qed.

(** * Faults *)

(** C8. AppendRows, DeleteRowBlocks and CreateRandomMatrix throw
    "Unsupported" at once: the exception leaves the matrix exactly as it was
    (value buffer, descriptor, num_rows, num_cols, num_nonzeros). *)
Theorem unsupported_operations (m other : BlockSparseMatrix)
    (delta_row_blocks : Z) (options : RandomMatrixOptions) :
  AppendRows other m = Throw "Unsupported" m /\
  DeleteRowBlocks delta_row_blocks m = Throw "Unsupported" m /\
  CreateRandomMatrix options tt = Throw "Unsupported" tt.
Proof. split_and!; reflexivity. Qed.

(** C9 (amended). In a build with debug checks on, constructing from a null
    descriptor and passing a null x, y, scale, dense_matrix or matrix halt
    with a fatal check failure; a null file halts ToTextFile with a fatal
    check failure in every build. *)
Theorem null_arguments_are_fatal (heap : nat -> Z)
    (m : BlockSparseMatrix) (p : ptr) :
  BlockSparseMatrix_new true heap None tt = Fatal /\
  RightMultiply true None p m = Fatal /\
  RightMultiply true p None m = Fatal /\
  LeftMultiply true None p m = Fatal /\
  LeftMultiply true p None m = Fatal /\
  SquaredColumnNorm true None m = Fatal /\
  ScaleColumns true None m = Fatal /\
  ToDenseMatrix true None m = Fatal /\
  ToTripletSparseMatrix true None m = Fatal /\
  ToTextFile None m = Fatal.
Proof. split_and!; try reflexivity; by destruct p. Qed.

(** * CreateDiagonalMatrix *)


Lemma vec_at_Some {S A} (l : list A) (i : Z) (a : A) (s : S) :
  index l i = Some a -> vec_at l i s = Ok a s.
Proof. intros E. unfold vec_at. by rewrite E. Qed.


























(** With cells that every copy of the prototype row shares, the structure
    the function builds for the column blocks [2; 1] has both row blocks
    point at the cell written last, three scalars are allocated, and the
    second diagonal entry of the first block is written past the end of the
    value buffer. *)
Lemma CreateDiagonalMatrix_shared_cells (dchk : bool) (heap : nat -> Z) :
  CreateDiagonalMatrix dchk shares_cells heap (Some [3; 4; 5]) [2; 1] [0; 2] tt
  = Undefined.
Proof. by destruct dchk. Qed.


(** * The theorems at concrete matrices *)

Lemma ex_bs_ok : descriptor_ok ex_bs.
Proof. apply (bool_decide_unpack _). vm_compute. exact I. Defined.

Lemma ex_m_invariant : matrix_invariant ex_m.
Proof. apply (bool_decide_unpack _). vm_compute. exact I. Defined.

Lemma dup_m_invariant : matrix_invariant dup_m.
Proof. apply (bool_decide_unpack _). vm_compute. exact I. Defined.

Lemma ex_bs_fits : counts_fit_int ex_bs.
Proof. apply (bool_decide_unpack _). vm_compute. exact I. Defined.

Lemma construction_counts_witness :
  descriptor_ok ex_bs /\ counts_fit_int ex_bs /\
  exists m,
    BlockSparseMatrix_new true (fun _ => 0) (Some ex_bs) tt = Ok m tt /\
    num_cols_ m = 3 /\ num_rows_ m = 3 /\ num_nonzeros_ m = 7 /\
    Z.of_nat (length (values_ m)) = num_nonzeros_ m /\
    block_structure_ m = ex_bs.
Proof.
  split; [exact ex_bs_ok|]. split; [exact ex_bs_fits|].
  exact (construction_counts true (fun _ => 0) ex_bs ex_bs_ok ex_bs_fits).
Defined.

(** C1 as stated fails on a descriptor the data model allows: two row blocks
    of 2^30 rows each, without cells.  The number of rows is 2^31, and the
    second addition into num_rows_ overflows int. *)
Lemma construction_overflow_counterexample :
  descriptor_ok huge_bs /\
  structure_invariant huge_bs /\
  sum_over id (row_sizes huge_bs) = INT_MAX + 1 /\
  BlockSparseMatrix_new true (fun _ => 0) (Some huge_bs) tt = Undefined /\
  BlockSparseMatrix_new false (fun _ => 0) (Some huge_bs) tt = Undefined /\
  ~ (exists m,
       BlockSparseMatrix_new false (fun _ => 0) (Some huge_bs) tt = Ok m tt /\
       num_rows_ m = sum_over id (row_sizes huge_bs)).
Proof.
  split; [apply (bool_decide_unpack _); vm_compute; exact I|].
  split; [apply (bool_decide_unpack _); vm_compute; exact I|].
  split; [reflexivity|]. split; [reflexivity|]. split; [reflexivity|].
  intros (m & E & _). vm_compute in E. discriminate E.
Qed.

Lemma adjoint_identity_witness :
  matrix_invariant ex_m /\
  exists y1 x1,
    RightMultiply true (Some [1; 10; 100]) (Some [0; 0; 0]) ex_m = Ok (Some y1) ex_m /\
    LeftMultiply true (Some [1; 2; 3]) (Some [0; 0; 0]) ex_m = Ok (Some x1) ex_m /\
    dot y1 [1; 2; 3] - dot [0; 0; 0] [1; 2; 3]
      = dot [1; 10; 100] x1 - dot [1; 10; 100] [0; 0; 0].
Proof.
  split; [exact ex_m_invariant|].
  apply (adjoint_identity true ex_m [1; 10; 100] [1; 2; 3] [0; 0; 0] [0; 0; 0]
           ex_m_invariant); reflexivity.
Defined.



Lemma ToTripletSparseMatrix_triples_witness :
  matrix_invariant ex_m /\
  exists t',
    ToTripletSparseMatrix true (Some (TripletSparseMatrix.mk 0 0 0 [] [] [])) ex_m
      = Ok t' ex_m /\
    TripletSparseMatrix.triples t'
      = [(0, 0, 1); (0, 1, 2); (0, 2, 3); (1, 0, 4); (1, 1, 5); (2, 0, 6); (2, 1, 7)] /\
    Z.of_nat (length (TripletSparseMatrix.triples t')) = 7 /\
    TripletSparseMatrix.num_nonzeros t' = 7 /\
    TripletSparseMatrix.num_rows t' = 3 /\
    TripletSparseMatrix.num_cols t' = 3.
Proof.
  split; [exact ex_m_invariant|].
  exact (ToTripletSparseMatrix_triples true ex_m
           (TripletSparseMatrix.mk 0 0 0 [] [] []) ex_m_invariant).
Defined.

Lemma ex_m_no_repeated_blocks : no_repeated_blocks (block_structure_ ex_m).
Proof. apply (bool_decide_unpack _). vm_compute. exact I. Defined.

Lemma SquaredColumnNorm_columns_witness :
  matrix_invariant ex_m /\
  exists x' d,
    SquaredColumnNorm true (Some [9; 9; 9]) ex_m = Ok (Some x') ex_m /\
    ToDenseMatrix true (Some (Matrix.mk 0 0 [])) ex_m = Ok d ex_m /\
    length x' = 3%nat /\
    (forall j, 0 <= j < 3 -> rd x' j = sum_squares_in_col j (entries ex_m)) /\
    column_norms_of_dense d x'.
Proof.
  split; [exact ex_m_invariant|].
  destruct (SquaredColumnNorm_columns true ex_m [9; 9; 9] (Matrix.mk 0 0 [])
              ex_m_invariant eq_refl)
    as (x' & d & Ex & Ed & Hl & Hs & _ & Hn).
  exists x', d. split; [exact Ex|]. split; [exact Ed|]. split; [exact Hl|].
  split; [exact Hs|]. exact (Hn ex_m_no_repeated_blocks).
Defined.

Lemma one_m_invariant : NonFinite.matrix_invariant one_m.
Proof. apply (bool_decide_unpack _). vm_compute. exact I. Defined.

Lemma SetZero_RightMultiply_finite_witness :
  NonFinite.matrix_invariant one_m /\
  Forall is_finite [Finite 7] /\
  (let* _ := NonFinite.SetZero in
   NonFinite.RightMultiply true (Some [Finite 7]) (Some [Infinity false])) one_m
  = Ok (Some [Infinity false]) (NonFinite.set_values one_m [Finite 0]).
Proof.
  assert (H : Forall is_finite [Finite 7]) by (repeat constructor).
  split; [exact one_m_invariant|]. split; [exact H|].
  exact (SetZero_RightMultiply_finite true one_m [Finite 7] [Infinity false]
           one_m_invariant H eq_refl eq_refl).
Defined.

(** C6 as stated fails for a vector x that is not finite: on the one-by-one
    matrix, after SetZero the value is 0, and RightMultiply adds
    0 * infinity, which is NaN, to y: the output 1 becomes NaN.  The same
    happens for x = NaN. *)
Lemma SetZero_RightMultiply_infinity_counterexample :
  NonFinite.matrix_invariant one_m /\
  (let* _ := NonFinite.SetZero in
   NonFinite.RightMultiply true (Some [Infinity false]) (Some [Finite 1])) one_m
  = Ok (Some [NaN]) (NonFinite.set_values one_m [Finite 0]) /\
  (let* _ := NonFinite.SetZero in
   NonFinite.RightMultiply true (Some [NaN]) (Some [Finite 1])) one_m
  = Ok (Some [NaN]) (NonFinite.set_values one_m [Finite 0]) /\
  (let* _ := NonFinite.SetZero in
   NonFinite.RightMultiply true (Some [Infinity false]) (Some [Finite 1])) one_m
  <> Ok (Some [Finite 1]) (NonFinite.set_values one_m [Finite 0]).
Proof.
  split; [exact one_m_invariant|]. split; [reflexivity|]. split; [reflexivity|].
  discriminate.
Qed.

Lemma dense_is_sum_of_triples_witness :
  matrix_invariant ex_m /\
  exists d t,
    ToDenseMatrix true (Some (Matrix.mk 0 0 [])) ex_m = Ok d ex_m /\
    ToTripletSparseMatrix true (Some (TripletSparseMatrix.mk 0 0 0 [] [] [])) ex_m
      = Ok t ex_m /\
    Matrix.rows d = 3 /\ Matrix.cols d = 3 /\
    (forall i j v, (i, j, v) ∈ TripletSparseMatrix.triples t ->
       0 <= i < Matrix.rows d /\ 0 <= j < Matrix.cols d) /\
    (forall i j, 0 <= i < Matrix.rows d -> 0 <= j < Matrix.cols d ->
       Matrix_get d i j = sum_at i j (TripletSparseMatrix.triples t)) /\
    dense_matches_triples d t.
Proof.
  split; [exact ex_m_invariant|].
  destruct (dense_is_sum_of_triples true ex_m (Matrix.mk 0 0 [])
              (TripletSparseMatrix.mk 0 0 0 [] [] []) ex_m_invariant)
    as (d & t & Ed & Et & Hr & Hc & Hin & Hsum & _ & _ & Hn).
  exists d, t. split; [exact Ed|]. split; [exact Et|]. split; [exact Hr|].
  split; [exact Hc|]. split; [exact Hin|]. split; [exact Hsum|].
  exact (Hn ex_m_no_repeated_blocks).
Defined.

(** C5 as stated fails where a row block lists a column block twice: the
    column norm of [dup_m] is 1*1 + 2*2 = 5, the dense entry is 1 + 2 = 3 and
    its square is 9. *)
Lemma SquaredColumnNorm_dense_counterexample :
  matrix_invariant dup_m /\
  SquaredColumnNorm true (Some [0]) dup_m = Ok (Some [5]) dup_m /\
  ToDenseMatrix true (Some (Matrix.mk 0 0 [])) dup_m = Ok (Matrix.mk 1 1 [3]) dup_m /\
  ~ column_norms_of_dense (Matrix.mk 1 1 [3]) [5].
Proof.
  split; [exact dup_m_invariant|]. split; [reflexivity|]. split; [reflexivity|].
  intros H. specialize (H 0 ltac:(simpl; lia)). vm_compute in H. discriminate H.
Qed.

(** C7 as stated fails on the same matrix: both triples (0,0,1) and (0,0,2)
    are produced, and the dense entry at (0,0) is 3. *)
Lemma dense_triples_counterexample :
  matrix_invariant dup_m /\
  ToDenseMatrix true (Some (Matrix.mk 0 0 [])) dup_m = Ok (Matrix.mk 1 1 [3]) dup_m /\
  ToTripletSparseMatrix true (Some (TripletSparseMatrix.mk 0 0 0 [] [] [])) dup_m
    = Ok (TripletSparseMatrix.mk 1 1 2 [0; 0] [0; 0] [1; 2]) dup_m /\
  ~ dense_matches_triples (Matrix.mk 1 1 [3])
      (TripletSparseMatrix.mk 1 1 2 [0; 0] [0; 0] [1; 2]).
Proof.
  split; [exact dup_m_invariant|]. split; [reflexivity|]. split; [reflexivity|].
  intros [H _]. specialize (H 0 0 1 ltac:(left)). vm_compute in H. discriminate H.
Qed.

(** C9 as stated fails in a build without debug checks: RightMultiply with a
    null x on the matrix without blocks returns, y untouched. *)
Lemma null_x_counterexample :
  RightMultiply false None (Some []) empty_m = Ok (Some []) empty_m /\
  RightMultiply false None (Some []) empty_m <> Fatal.
Proof. split; [reflexivity | discriminate]. Qed.

(** * ScaleColumns *)

Lemma ScaleColumns_ok (dchk : bool) (m : BlockSparseMatrix) (scale : list Z) (nr : Z) :
  in_bounds (block_structure_ m) nr (Z.of_nat (length scale))
            (Z.of_nat (length (values_ m))) ->
  ScaleColumns dchk (Some scale) m
  = Ok tt (set_values m (foldl (scale_step scale) (values_ m)
                               (slots (block_structure_ m)))).
Proof.
  intros Hb. unfold ScaleColumns. rewrite DCHECK_NOTNULL_Some.
  rewrite bind_ret, bind_get.
  rewrite (bind_Ok values_get _ m (Some (values_ m)) m eq_refl).
  destruct (visit_ok Some (fun v' => length v' = length (values_ m))
    (fun i j k A =>
       let* a := load A k in
       let* sv := load (Some scale) j in
       store A k (a * sv))
    (scale_step scale)
    (block_structure_ m) _ _ _ m (values_ m) Hb eq_refl) as [E _].
  { intros i j k c Hi Hj Hk Hc.
    rewrite (bind_Ok _ _ _ _ _ (load_ok c k _ ltac:(lia))).
    rewrite (bind_Ok _ _ _ _ _ (load_ok _ _ _ Hj)).
    rewrite store_ok by lia. split; [reflexivity|].
    unfold scale_step. by rewrite length_wr. }
  erewrite bind_Ok; [|exact E]. reflexivity.
Qed.

(** Read-modify-write at consecutive indices: every element is rewritten
    once, from its value at the start. *)
Lemma foldl_rmw_seq {A} (key : A -> Z) (g : Z -> A -> Z) (l : list A) (a : list Z) :
  key <$> l = seqZ 0 (Z.of_nat (length l)) ->
  (length l <= length a)%nat ->
  foldl (fun a' e => wr a' (key e) (g (rd a' (key e)) e)) a l
  = ((fun e => g (rd a (key e)) e) <$> l) ++ drop (length l) a.
Proof.
  induction l as [|e l IH] using rev_ind; intros Hk Hl.
  - simpl. by rewrite drop_0.
  - rewrite length_app in Hk, Hl. simpl in Hk, Hl.
    replace (length l + 1)%nat with (Datatypes.S (length l)) in Hk by lia.
    rewrite seqZ_S, fmap_app in Hk. simpl in Hk.
    apply app_inj_tail in Hk as [Hk1 Hk2].
    rewrite foldl_app, IH by (done || lia). simpl.
    destruct (lookup_lt_is_Some_2 a (length l)) as [x Hx]; [lia|].
    set (f := fun e0 => g (rd a (key e0)) e0).
    assert (Erd : rd ((f <$> l) ++ drop (length l) a) (key e) = rd a (key e)).
    { rewrite Hk2. unfold rd, index. rewrite !decide_True by lia.
      rewrite lookup_app_r by (rewrite length_fmap; lia).
      rewrite length_fmap, lookup_drop. do 2 f_equal. lia. }
    rewrite Erd. fold (f e).
    rewrite fmap_app, length_app, <- app_assoc. simpl.
    rewrite Hk2 at 1. unfold wr. rewrite decide_True by lia.
    replace (Z.to_nat (0 + Z.of_nat (length l))) with (length (f <$> l) + 0)%nat
      by (rewrite length_fmap; lia).
    rewrite insert_app_r. rewrite (drop_S _ _ _ Hx). simpl.
    by replace (length l + 1)%nat with (Datatypes.S (length l)) by lia.
Qed.

Lemma rd_fmap_key {A} (key f : A -> Z) (l : list A) (e : A) :
  key <$> l = seqZ 0 (Z.of_nat (length l)) -> e ∈ l ->
  rd (f <$> l) (key e) = f e.
Proof.
  intros Hk He. apply list_elem_of_lookup in He as [n En].
  assert (Hn : (key <$> l) !! n = Some (key e)) by by rewrite list_lookup_fmap, En.
  rewrite Hk in Hn. apply lookup_seqZ in Hn as [-> Hlt].
  unfold rd, index. rewrite decide_True by lia.
  replace (Z.to_nat (0 + Z.of_nat n)) with n by lia.
  by rewrite list_lookup_fmap, En.
Qed.

Lemma fmap_rd_seqZ (v : list Z) : rd v <$> seqZ 0 (Z.of_nat (length v)) = v.
Proof.
  apply list_eq. intros n. rewrite list_lookup_fmap.
  destruct (decide (n < length v)%nat) as [Hn|Hn].
  - rewrite lookup_seqZ_lt by lia. simpl.
    destruct (lookup_lt_is_Some_2 v n Hn) as [x Hx]. rewrite Hx. f_equal.
    unfold rd, index. rewrite decide_True by lia.
    replace (Z.to_nat (0 + Z.of_nat n)) with n by lia. by rewrite Hx.
  - rewrite lookup_seqZ_ge by lia. simpl. symmetry. apply lookup_ge_None. lia.
Qed.

Lemma invariant_slots_keys (m : BlockSparseMatrix) :
  matrix_invariant m ->
  (fun e : slot => e.2) <$> slots (block_structure_ m)
    = seqZ 0 (Z.of_nat (length (slots (block_structure_ m)))) /\
  length (slots (block_structure_ m)) = length (values_ m).
Proof.
  intros (Hs & _ & _ & Hnnz & Hlen).
  pose proof (length_slots _ Hs) as Hls. pose proof (slots_keys _ Hs) as Hk.
  split; [by rewrite Hls | lia].
Qed.

(** Under the invariant the scaled buffer lists, slot by slot, the value
    times the scale of the slot's column. *)
Lemma scale_values (m : BlockSparseMatrix) (scale : list Z) :
  matrix_invariant m ->
  foldl (scale_step scale) (values_ m) (slots (block_structure_ m))
  = (fun e : slot => rd (values_ m) e.2 * rd scale e.1.2) <$> slots (block_structure_ m).
Proof.
  intros Hinv. destruct (invariant_slots_keys m Hinv) as [Hk Hl].
  unfold scale_step.
  rewrite (foldl_rmw_seq (fun e : slot => e.2) (fun a e => a * rd scale e.1.2))
    by (exact Hk || lia).
  by rewrite Hl, drop_all, app_nil_r.
Qed.

Lemma set_values_invariant (m : BlockSparseMatrix) (v : list Z) :
  matrix_invariant m -> length v = length (values_ m) ->
  matrix_invariant (set_values m v).
Proof.
  intros (Hs & Hr & Hc & Hn & Hl) Hv. unfold matrix_invariant. simpl.
  split_and!; try done. lia.
Qed.

Lemma entries_set_values_scaled (m : BlockSparseMatrix) (scale : list Z) :
  matrix_invariant m ->
  entries (set_values m
             ((fun e : slot => rd (values_ m) e.2 * rd scale e.1.2)
                <$> slots (block_structure_ m)))
  = scaled_entries scale (entries m).
Proof.
  intros Hinv. destruct (invariant_slots_keys m Hinv) as [Hk Hl].
  unfold entries, scaled_entries. simpl. rewrite <- list_fmap_compose.
  apply list_fmap_ext. intros n e En. simpl. f_equal.
  apply (rd_fmap_key (fun e : slot => e.2)); [exact Hk|].
  by apply list_elem_of_lookup_2 in En.
Qed.

Lemma ScaleColumns_invariant (dchk : bool) (m : BlockSparseMatrix) (scale : list Z) :
  matrix_invariant m ->
  Z.of_nat (length scale) = num_cols_ m ->
  ScaleColumns dchk (Some scale) m
  = Ok tt (set_values m
             ((fun e : slot => rd (values_ m) e.2 * rd scale e.1.2)
                <$> slots (block_structure_ m))).
Proof.
  intros Hinv Hs. pose proof (matrix_invariant_in_bounds m Hinv) as Hb.
  rewrite <- Hs in Hb. rewrite (ScaleColumns_ok dchk m scale _ Hb).
  by rewrite scale_values.
Qed.

(** X1. For every matrix satisfying the invariant and every scale vector of
    length num_cols, ScaleColumns returns and leaves a matrix of the same
    shape whose entries are the entries before the call, in the same order,
    each value multiplied by the scale of its column. *)
Theorem ScaleColumns_entries (dchk : bool) (m : BlockSparseMatrix) (scale : list Z) :
  matrix_invariant m ->
  Z.of_nat (length scale) = num_cols_ m ->
  exists m',
    ScaleColumns dchk (Some scale) m = Ok tt m' /\
    same_shape m m' /\
    length (values_ m') = length (values_ m) /\
    entries m' = scaled_entries scale (entries m).
Proof.
  intros Hinv Hs. destruct (invariant_slots_keys m Hinv) as [Hk Hl].
  eexists. split; [by apply ScaleColumns_invariant|].
  split; [done|]. split; [simpl; by rewrite length_fmap|].
  by apply entries_set_values_scaled.
Qed.

Lemma ScaleColumns_entries_witness :
  matrix_invariant ex_m /\
  exists m',
    ScaleColumns true (Some [1; 10; 100]) ex_m = Ok tt m' /\
    same_shape ex_m m' /\
    length (values_ m') = 7%nat /\
    entries m'
    = [(0, 0, 1); (0, 1, 20); (0, 2, 300); (1, 0, 4); (1, 1, 50); (2, 0, 6); (2, 1, 70)].
Proof.
  split; [exact ex_m_invariant|].
  exact (ScaleColumns_entries true ex_m [1; 10; 100] ex_m_invariant eq_refl).
Defined.

Lemma rd_replicate (n : nat) (v k : Z) :
  0 <= k < Z.of_nat n -> rd (replicate n v) k = v.
Proof.
  intros Hk. unfold rd, index. rewrite decide_True by lia.
  rewrite lookup_replicate_2 by lia. done.
Qed.

Lemma set_values_id (m : BlockSparseMatrix) : set_values m (values_ m) = m.
Proof. by destruct m. Qed.

(** X2. Scaling the columns by the vector of ones leaves the matrix exactly
    as it was. *)
Theorem ScaleColumns_ones (dchk : bool) (m : BlockSparseMatrix) :
  matrix_invariant m ->
  ScaleColumns dchk (Some (replicate (Z.to_nat (num_cols_ m)) 1)) m = Ok tt m.
Proof.
  intros Hinv. pose proof (matrix_invariant_in_bounds m Hinv) as Hb.
  destruct (invariant_counts_nonneg m Hinv) as (_ & Hc & _).
  destruct (invariant_slots_keys m Hinv) as [Hk Hl].
  rewrite ScaleColumns_invariant by (done || rewrite length_replicate; lia).
  f_equal. etrans; [|apply set_values_id]. f_equal.
  etrans; [|apply fmap_rd_seqZ].
  rewrite <- Hl, <- Hk, <- list_fmap_compose.
  apply list_fmap_ext. intros n e En. simpl.
  apply list_elem_of_lookup_2 in En.
  destruct (slots_in_bounds _ _ _ _ e Hb En) as (_ & Hj & _).
  rewrite rd_replicate by lia. lia.
Qed.

Lemma ScaleColumns_ones_witness :
  matrix_invariant ex_m /\
  ScaleColumns true (Some [1; 1; 1]) ex_m = Ok tt ex_m.
Proof.
  split; [exact ex_m_invariant|].
  exact (ScaleColumns_ones true ex_m ex_m_invariant).
Defined.

Lemma rd_zip_with_mul (s t : list Z) (j : Z) :
  rd (zip_with Z.mul s t) j = rd s j * rd t j.
Proof.
  unfold rd, index. case_decide; [|done]. rewrite lookup_zip_with.
  destruct (s !! Z.to_nat j) as [a|], (t !! Z.to_nat j) as [b|]; simpl; lia.
Qed.

(** X3. Scaling the columns by s and then by t is scaling them once by the
    elementwise product of s and t. *)
Theorem ScaleColumns_compose (dchk : bool) (m : BlockSparseMatrix) (s t : list Z) :
  matrix_invariant m ->
  Z.of_nat (length s) = num_cols_ m ->
  Z.of_nat (length t) = num_cols_ m ->
  (let* _ := ScaleColumns dchk (Some s) in ScaleColumns dchk (Some t)) m
  = ScaleColumns dchk (Some (zip_with Z.mul s t)) m.
Proof.
  intros Hinv Hs Ht. destruct (invariant_slots_keys m Hinv) as [Hk Hl].
  rewrite (bind_Ok _ _ _ _ _ (ScaleColumns_invariant dchk m s Hinv Hs)).
  set (v' := (fun e : slot => rd (values_ m) e.2 * rd s e.1.2)
               <$> slots (block_structure_ m)).
  assert (Hv' : length v' = length (values_ m)) by (unfold v'; by rewrite length_fmap).
  rewrite (ScaleColumns_invariant dchk (set_values m v') t
             (set_values_invariant m v' Hinv Hv') Ht).
  rewrite ScaleColumns_invariant; [|done|].
  2:{ rewrite length_zip_with. lia. }
  f_equal. simpl. unfold set_values. simpl. f_equal.
  apply list_fmap_ext. intros n e En. simpl.
  apply list_elem_of_lookup_2 in En.
  unfold v'. rewrite (rd_fmap_key (fun e : slot => e.2)) by done.
  rewrite rd_zip_with_mul. lia.
Qed.

Lemma ScaleColumns_compose_witness :
  matrix_invariant ex_m /\
  (let* _ := ScaleColumns true (Some [1; 10; 100]) in
   ScaleColumns true (Some [2; 3; 4])) ex_m
  = ScaleColumns true (Some [2; 30; 400]) ex_m.
Proof.
  split; [exact ex_m_invariant|].
  exact (ScaleColumns_compose true ex_m [1; 10; 100] [2; 3; 4]
           ex_m_invariant eq_refl eq_refl).
Defined.

Lemma sum_over_mul_r {A} (f : A -> Z) (c : Z) (l : list A) :
  sum_over (fun a => f a * c) l = sum_over f l * c.
Proof. induction l as [|a l IH]; simpl; [done|]. rewrite IH. lia. Qed.

Lemma sum_at_scaled (scale : list Z) (l : list (Z * Z * Z)) (i j : Z) :
  sum_at i j (scaled_entries scale l) = sum_at i j l * rd scale j.
Proof.
  unfold sum_at, scaled_entries. rewrite sum_over_fmap, <- sum_over_mul_r.
  apply sum_over_ext. intros e _. simpl.
  case_decide as E; [|done]. destruct E as [_ <-]. done.
Qed.

Lemma sum_squares_in_col_scaled (scale : list Z) (l : list (Z * Z * Z)) (j : Z) :
  sum_squares_in_col j (scaled_entries scale l)
  = rd scale j * rd scale j * sum_squares_in_col j l.
Proof.
  unfold sum_squares_in_col, scaled_entries.
  rewrite sum_over_fmap, Z.mul_comm, <- sum_over_mul_r.
  apply sum_over_ext. intros e _. simpl.
  case_decide as E; [|done]. rewrite <- E. lia.
Qed.

Lemma SquaredColumnNorm_entries (dchk : bool) (m : BlockSparseMatrix) (x : list Z) :
  matrix_invariant m ->
  Z.of_nat (length x) = num_cols_ m ->
  exists x',
    SquaredColumnNorm dchk (Some x) m = Ok (Some x') m /\
    length x' = length x /\
    forall j, 0 <= j < num_cols_ m -> rd x' j = sum_squares_in_col j (entries m).
Proof.
  intros Hinv Hx. pose proof (matrix_invariant_in_bounds m Hinv) as Hb.
  eexists. split; [by apply (SquaredColumnNorm_ok dchk m x (num_rows_ m))|].
  unfold norm_step.
  split; [by rewrite length_foldl_add_at, length_replicate|].
  intros j Hj.
  rewrite (rd_foldl_add_at (fun e : slot => e.1.2)
             (fun e => rd (values_ m) e.2 * rd (values_ m) e.2)).
  2:{ rewrite length_replicate. lia. }
  rewrite rd_replicate_0, Z.add_0_l.
  unfold sum_squares_in_col, entries. by rewrite sum_over_fmap.
Qed.

(** X4. ScaleColumns multiplies column j of the dense form by scale[j], and
    the squared norm of column j that SquaredColumnNorm reports by
    scale[j] * scale[j]. *)
Theorem ScaleColumns_dense (dchk : bool) (m : BlockSparseMatrix)
    (scale x0 : list Z) (d0 : Matrix.t) :
  matrix_invariant m ->
  Z.of_nat (length scale) = num_cols_ m ->
  Z.of_nat (length x0) = num_cols_ m ->
  exists m' d d' x x',
    ScaleColumns dchk (Some scale) m = Ok tt m' /\
    ToDenseMatrix dchk (Some d0) m = Ok d m /\
    ToDenseMatrix dchk (Some d0) m' = Ok d' m' /\
    SquaredColumnNorm dchk (Some x0) m = Ok (Some x) m /\
    SquaredColumnNorm dchk (Some x0) m' = Ok (Some x') m' /\
    Matrix.rows d' = Matrix.rows d /\ Matrix.cols d' = Matrix.cols d /\
    (forall i j, 0 <= i < num_rows_ m -> 0 <= j < num_cols_ m ->
       Matrix_get d' i j = Matrix_get d i j * rd scale j) /\
    (forall j, 0 <= j < num_cols_ m ->
       rd x' j = rd scale j * rd scale j * rd x j).
Proof.
  intros Hinv Hs Hx0.
  set (v' := (fun e : slot => rd (values_ m) e.2 * rd scale e.1.2)
               <$> slots (block_structure_ m)).
  assert (Hv' : length v' = length (values_ m)).
  { unfold v'. rewrite length_fmap. by destruct (invariant_slots_keys m Hinv). }
  pose proof (set_values_invariant m v' Hinv Hv') as Hinv'.
  destruct (ToDenseMatrix_entries dchk m d0 Hinv) as (d & Ed & Hr & Hc & Hd).
  destruct (ToDenseMatrix_entries dchk _ d0 Hinv') as (d' & Ed' & Hr' & Hc' & Hd').
  destruct (SquaredColumnNorm_entries dchk m x0 Hinv Hx0) as (x & Ex & _ & Hxn).
  destruct (SquaredColumnNorm_entries dchk _ x0 Hinv' Hx0) as (x' & Ex' & _ & Hxn').
  exists (set_values m v'), d, d', x, x'.
  split; [by apply ScaleColumns_invariant|].
  split; [exact Ed|]. split; [exact Ed'|]. split; [exact Ex|]. split; [exact Ex'|].
  split; [simpl in *; congruence|]. split; [simpl in *; congruence|]. split.
  - intros i j Hi Hj. rewrite Hd, (Hd' i j Hi Hj) by done.
    unfold v'. rewrite entries_set_values_scaled by done. apply sum_at_scaled.
  - intros j Hj. rewrite Hxn, (Hxn' j Hj) by done.
    unfold v'. rewrite entries_set_values_scaled by done.
    apply sum_squares_in_col_scaled.
Qed.

Lemma ScaleColumns_dense_witness :
  matrix_invariant ex_m /\
  exists m' d d' x x',
    ScaleColumns true (Some [1; 10; 100]) ex_m = Ok tt m' /\
    ToDenseMatrix true (Some (Matrix.mk 0 0 [])) ex_m = Ok d ex_m /\
    ToDenseMatrix true (Some (Matrix.mk 0 0 [])) m' = Ok d' m' /\
    SquaredColumnNorm true (Some [0; 0; 0]) ex_m = Ok (Some x) ex_m /\
    SquaredColumnNorm true (Some [0; 0; 0]) m' = Ok (Some x') m' /\
    Matrix.rows d' = Matrix.rows d /\ Matrix.cols d' = Matrix.cols d /\
    (forall i j, 0 <= i < 3 -> 0 <= j < 3 ->
       Matrix_get d' i j = Matrix_get d i j * rd [1; 10; 100] j) /\
    (forall j, 0 <= j < 3 ->
       rd x' j = rd [1; 10; 100] j * rd [1; 10; 100] j * rd x j).
Proof.
  split; [exact ex_m_invariant|].
  exact (ScaleColumns_dense true ex_m [1; 10; 100] [0; 0; 0] (Matrix.mk 0 0 [])
           ex_m_invariant eq_refl eq_refl).
Defined.

(** * The products against the dense form *)

Lemma RightMultiply_entries (dchk : bool) (m : BlockSparseMatrix) (x y : list Z) :
  matrix_invariant m ->
  Z.of_nat (length x) = num_cols_ m ->
  Z.of_nat (length y) = num_rows_ m ->
  exists y',
    RightMultiply dchk (Some x) (Some y) m = Ok (Some y') m /\
    length y' = length y /\
    forall i, 0 <= i < num_rows_ m ->
      rd y' i = rd y i
        + sum_over (fun e => if decide (e.1.1 = i) then e.2 * rd x e.1.2 else 0)
                   (entries m).
Proof.
  intros Hinv Hx Hy. pose proof (matrix_invariant_in_bounds m Hinv) as Hb.
  rewrite <- Hx, <- Hy in Hb.
  eexists. split; [by apply RightMultiply_ok|]. unfold right_step.
  split; [by rewrite length_foldl_add_at|]. intros i Hi.
  rewrite (rd_foldl_add_at (fun e : slot => e.1.1)
             (fun e => rd (values_ m) e.2 * rd x e.1.2)) by lia.
  unfold entries. by rewrite sum_over_fmap.
Qed.

Lemma LeftMultiply_entries (dchk : bool) (m : BlockSparseMatrix) (x y : list Z) :
  matrix_invariant m ->
  Z.of_nat (length x) = num_rows_ m ->
  Z.of_nat (length y) = num_cols_ m ->
  exists y',
    LeftMultiply dchk (Some x) (Some y) m = Ok (Some y') m /\
    length y' = length y /\
    forall j, 0 <= j < num_cols_ m ->
      rd y' j = rd y j
        + sum_over (fun e => if decide (e.1.2 = j) then e.2 * rd x e.1.1 else 0)
                   (entries m).
Proof.
  intros Hinv Hx Hy. pose proof (matrix_invariant_in_bounds m Hinv) as Hb.
  rewrite <- Hx, <- Hy in Hb.
  eexists. split; [by apply LeftMultiply_ok|]. unfold left_step.
  split; [by rewrite length_foldl_add_at|]. intros j Hj.
  rewrite (rd_foldl_add_at (fun e : slot => e.1.2)
             (fun e => rd (values_ m) e.2 * rd x e.1.1)) by lia.
  unfold entries. by rewrite sum_over_fmap.
Qed.

Lemma row_sum_dense (l : list (Z * Z * Z)) (x : list Z) (i nc : Z) :
  (forall e, e ∈ l -> 0 <= e.1.2 < nc) ->
  sum_over (fun j => sum_at i j l * rd x j) (range nc)
  = sum_over (fun e => if decide (e.1.1 = i) then e.2 * rd x e.1.2 else 0) l.
Proof.
  intros Hb.
  rewrite (sum_over_ext _ (fun j =>
    sum_over (fun e => if decide (e.1.1 = i /\ e.1.2 = j)
                       then e.2 * rd x e.1.2 else 0) l)).
  2:{ intros j _. unfold sum_at. rewrite <- sum_over_mul_r.
      apply sum_over_ext. intros e _. case_decide as E; [|done].
      destruct E as [_ <-]. done. }
  rewrite sum_over_swap. apply sum_over_ext. intros e He.
  case_decide as E.
  - etrans; [|apply (sum_over_indicator_range e.1.2 nc (e.2 * rd x e.1.2)); by apply Hb].
    apply sum_over_ext. intros j _. repeat case_decide; try done.
    + exfalso. destruct_and!. done.
    + exfalso. match goal with H : ~ _ |- _ => by apply H end.
  - apply sum_over_zero. intros j _. case_decide as E'; [|done]. by destruct E'.
Qed.

Lemma col_sum_dense (l : list (Z * Z * Z)) (x : list Z) (j nr : Z) :
  (forall e, e ∈ l -> 0 <= e.1.1 < nr) ->
  sum_over (fun i => sum_at i j l * rd x i) (range nr)
  = sum_over (fun e => if decide (e.1.2 = j) then e.2 * rd x e.1.1 else 0) l.
Proof.
  intros Hb.
  rewrite (sum_over_ext _ (fun i =>
    sum_over (fun e => if decide (e.1.1 = i /\ e.1.2 = j)
                       then e.2 * rd x e.1.1 else 0) l)).
  2:{ intros i _. unfold sum_at. rewrite <- sum_over_mul_r.
      apply sum_over_ext. intros e _. case_decide as E; [|done].
      destruct E as [<- _]. done. }
  rewrite sum_over_swap. apply sum_over_ext. intros e He.
  case_decide as E.
  - etrans; [|apply (sum_over_indicator_range e.1.1 nr (e.2 * rd x e.1.1)); by apply Hb].
    apply sum_over_ext. intros i _. repeat case_decide; try done.
    + exfalso. destruct_and!. done.
    + exfalso. match goal with H : ~ _ |- _ => by apply H end.
  - apply sum_over_zero. intros i _. case_decide as E'; [|done]. by destruct E'.
Qed.

(** X5. RightMultiply is the accumulating product with the dense form:
    for x of length num_cols and y of length num_rows it returns y with, at
    every row i, row i of the dense matrix times x added. *)
Theorem RightMultiply_dense (dchk : bool) (m : BlockSparseMatrix)
    (x y : list Z) (d0 : Matrix.t) :
  matrix_invariant m ->
  Z.of_nat (length x) = num_cols_ m ->
  Z.of_nat (length y) = num_rows_ m ->
  exists y' d,
    RightMultiply dchk (Some x) (Some y) m = Ok (Some y') m /\
    ToDenseMatrix dchk (Some d0) m = Ok d m /\
    length y' = length y /\
    forall i, 0 <= i < num_rows_ m -> rd y' i = rd y i + dense_row_times d x i.
Proof.
  intros Hinv Hx Hy.
  destruct (RightMultiply_entries dchk m x y Hinv Hx Hy) as (y' & Ey & Hl & Hy').
  destruct (ToDenseMatrix_entries dchk m d0 Hinv) as (d & Ed & Hr & Hc & Hd).
  exists y', d. split; [exact Ey|]. split; [exact Ed|]. split; [exact Hl|].
  intros i Hi. rewrite Hy' by done. f_equal.
  unfold dense_row_times. rewrite Hc.
  rewrite <- (row_sum_dense _ x i (num_cols_ m)).
  - apply sum_over_ext. intros j Hj. unfold range in Hj. apply elem_of_seqZ in Hj.
    rewrite Hd by lia. done.
  - intros e He. by apply (entries_in_bounds m e Hinv He).
Qed.

Lemma RightMultiply_dense_witness :
  matrix_invariant ex_m /\
  exists y' d,
    RightMultiply true (Some [1; 10; 100]) (Some [4; 5; 6]) ex_m = Ok (Some y') ex_m /\
    ToDenseMatrix true (Some (Matrix.mk 0 0 [])) ex_m = Ok d ex_m /\
    length y' = 3%nat /\
    forall i, 0 <= i < 3 -> rd y' i = rd [4; 5; 6] i + dense_row_times d [1; 10; 100] i.
Proof.
  split; [exact ex_m_invariant|].
  exact (RightMultiply_dense true ex_m [1; 10; 100] [4; 5; 6] (Matrix.mk 0 0 [])
           ex_m_invariant eq_refl eq_refl).
Defined.

(** X6. LeftMultiply is the accumulating product with the transpose of the
    dense form: for x of length num_rows and y of length num_cols it returns
    y with, at every column j, column j of the dense matrix times x added. *)
Theorem LeftMultiply_dense (dchk : bool) (m : BlockSparseMatrix)
    (x y : list Z) (d0 : Matrix.t) :
  matrix_invariant m ->
  Z.of_nat (length x) = num_rows_ m ->
  Z.of_nat (length y) = num_cols_ m ->
  exists y' d,
    LeftMultiply dchk (Some x) (Some y) m = Ok (Some y') m /\
    ToDenseMatrix dchk (Some d0) m = Ok d m /\
    length y' = length y /\
    forall j, 0 <= j < num_cols_ m -> rd y' j = rd y j + dense_col_times d x j.
Proof.
  intros Hinv Hx Hy.
  destruct (LeftMultiply_entries dchk m x y Hinv Hx Hy) as (y' & Ey & Hl & Hy').
  destruct (ToDenseMatrix_entries dchk m d0 Hinv) as (d & Ed & Hr & Hc & Hd).
  exists y', d. split; [exact Ey|]. split; [exact Ed|]. split; [exact Hl|].
  intros j Hj. rewrite Hy' by done. f_equal.
  unfold dense_col_times. rewrite Hr.
  rewrite <- (col_sum_dense _ x j (num_rows_ m)).
  - apply sum_over_ext. intros i Hi. unfold range in Hi. apply elem_of_seqZ in Hi.
    rewrite Hd by lia. done.
  - intros e He. by apply (entries_in_bounds m e Hinv He).
Qed.

Lemma LeftMultiply_dense_witness :
  matrix_invariant ex_m /\
  exists y' d,
    LeftMultiply true (Some [1; 2; 3]) (Some [4; 5; 6]) ex_m = Ok (Some y') ex_m /\
    ToDenseMatrix true (Some (Matrix.mk 0 0 [])) ex_m = Ok d ex_m /\
    length y' = 3%nat /\
    forall j, 0 <= j < 3 -> rd y' j = rd [4; 5; 6] j + dense_col_times d [1; 2; 3] j.
Proof.
  split; [exact ex_m_invariant|].
  exact (LeftMultiply_dense true ex_m [1; 2; 3] [4; 5; 6] (Matrix.mk 0 0 [])
           ex_m_invariant eq_refl eq_refl).
Defined.

Lemma list_eq_rd (l1 l2 : list Z) :
  length l1 = length l2 ->
  (forall i, 0 <= i < Z.of_nat (length l1) -> rd l1 i = rd l2 i) ->
  l1 = l2.
Proof.
  intros Hl H. apply list_eq. intros n.
  destruct (decide (n < length l1)%nat) as [Hn|Hn].
  - specialize (H (Z.of_nat n) ltac:(lia)). unfold rd, index in H.
    rewrite !decide_True, Nat2Z.id in H by lia.
    destruct (lookup_lt_is_Some_2 l1 n Hn) as [a Ha].
    destruct (lookup_lt_is_Some_2 l2 n ltac:(lia)) as [b Hb].
    rewrite Ha, Hb in *. simpl in H. by subst.
  - rewrite (proj2 (lookup_ge_None l1 n)) by lia.
    rewrite (proj2 (lookup_ge_None l2 n)) by lia. done.
Qed.

Lemma rd_zip_with_add (s t : list Z) (j : Z) :
  length s = length t -> rd (zip_with Z.add s t) j = rd s j + rd t j.
Proof.
  intros Hl. unfold rd, index. case_decide; [|done]. rewrite lookup_zip_with.
  destruct (s !! Z.to_nat j) as [a|] eqn:Ea, (t !! Z.to_nat j) as [b|] eqn:Eb;
    simpl; try done.
  - apply lookup_lt_Some in Ea. apply lookup_ge_None in Eb. lia.
  - apply lookup_lt_Some in Eb. apply lookup_ge_None in Ea. lia.
Qed.

(** X7. The products accumulate linearly: multiplying by x1 and then by x2
    into the same output vector is multiplying once by x1 + x2, for
    RightMultiply and for LeftMultiply. *)
Theorem products_are_additive (dchk : bool) (m : BlockSparseMatrix)
    (x1 x2 y u1 u2 w : list Z) :
  matrix_invariant m ->
  Z.of_nat (length x1) = num_cols_ m -> Z.of_nat (length x2) = num_cols_ m ->
  Z.of_nat (length y) = num_rows_ m ->
  Z.of_nat (length u1) = num_rows_ m -> Z.of_nat (length u2) = num_rows_ m ->
  Z.of_nat (length w) = num_cols_ m ->
  (let* y1 := RightMultiply dchk (Some x1) (Some y) in
   RightMultiply dchk (Some x2) y1) m
  = RightMultiply dchk (Some (zip_with Z.add x1 x2)) (Some y) m /\
  (let* w1 := LeftMultiply dchk (Some u1) (Some w) in
   LeftMultiply dchk (Some u2) w1) m
  = LeftMultiply dchk (Some (zip_with Z.add u1 u2)) (Some w) m.
Proof.
  intros Hinv Hx1 Hx2 Hy Hu1 Hu2 Hw. split.
  - destruct (RightMultiply_entries dchk m x1 y Hinv Hx1 Hy) as (y1 & E1 & Hl1 & H1).
    destruct (RightMultiply_entries dchk m x2 y1 Hinv Hx2 ltac:(lia))
      as (y2 & E2 & Hl2 & H2).
    destruct (RightMultiply_entries dchk m (zip_with Z.add x1 x2) y Hinv
                ltac:(rewrite length_zip_with; lia) Hy) as (y3 & E3 & Hl3 & H3).
    rewrite (bind_Ok _ _ _ _ _ E1), E2, E3. do 2 f_equal.
    apply list_eq_rd; [lia|]. intros i Hi.
    rewrite H2, H1, H3 by lia. rewrite <- Z.add_assoc, <- sum_over_plus. f_equal.
    apply sum_over_ext. intros e _. case_decide; [|done].
    rewrite rd_zip_with_add by lia. lia.
  - destruct (LeftMultiply_entries dchk m u1 w Hinv Hu1 Hw) as (w1 & E1 & Hl1 & H1).
    destruct (LeftMultiply_entries dchk m u2 w1 Hinv Hu2 ltac:(lia))
      as (w2 & E2 & Hl2 & H2).
    destruct (LeftMultiply_entries dchk m (zip_with Z.add u1 u2) w Hinv
                ltac:(rewrite length_zip_with; lia) Hw) as (w3 & E3 & Hl3 & H3).
    rewrite (bind_Ok _ _ _ _ _ E1), E2, E3. do 2 f_equal.
    apply list_eq_rd; [lia|]. intros j Hj.
    rewrite H2, H1, H3 by lia. rewrite <- Z.add_assoc, <- sum_over_plus. f_equal.
    apply sum_over_ext. intros e _. case_decide; [|done].
    rewrite rd_zip_with_add by lia. lia.
Qed.

Lemma products_are_additive_witness :
  matrix_invariant ex_m /\
  (let* y1 := RightMultiply true (Some [1; 10; 100]) (Some [4; 5; 6]) in
   RightMultiply true (Some [2; 3; 4]) y1) ex_m
  = RightMultiply true (Some [3; 13; 104]) (Some [4; 5; 6]) ex_m /\
  (let* w1 := LeftMultiply true (Some [1; 2; 3]) (Some [4; 5; 6]) in
   LeftMultiply true (Some [7; 8; 9]) w1) ex_m
  = LeftMultiply true (Some [8; 10; 12]) (Some [4; 5; 6]) ex_m.
Proof.
  split; [exact ex_m_invariant|].
  exact (products_are_additive true ex_m [1; 10; 100] [2; 3; 4] [4; 5; 6]
           [1; 2; 3] [7; 8; 9] [4; 5; 6]
           ex_m_invariant eq_refl eq_refl eq_refl eq_refl eq_refl eq_refl).
Defined.

(** * A zeroed matrix *)

Lemma foldl_add_at_zero {A} (ix val : A -> Z) (l : list A) (y : list Z) :
  (forall a, a ∈ l -> val a = 0) ->
  foldl (fun y a => add_at y (ix a) (val a)) y l = y.
Proof.
  revert y. induction l as [|a l IH]; intros y H; simpl; [done|].
  rewrite H by left. rewrite add_at_0. apply IH. intros. apply H. by right.
Qed.

(** X8. Over exact arithmetic on finite scalars, after SetZero the matrix
    acts as the zero matrix: LeftMultiply with a finite x returns the finite
    output vector as it was, SquaredColumnNorm reports zero for every column
    and the dense form is the num_rows x num_cols matrix of zeros. *)
Theorem SetZero_zero_matrix (dchk : bool) (m : BlockSparseMatrix)
    (x y x0 : list Z) (d0 : Matrix.t) :
  matrix_invariant m ->
  Z.of_nat (length x) = num_rows_ m ->
  Z.of_nat (length y) = num_cols_ m ->
  Z.of_nat (length x0) = num_cols_ m ->
  (let* _ := SetZero in LeftMultiply dchk (Some x) (Some y)) m
  = Ok (Some y) (set_values m (replicate (length (values_ m)) 0)) /\
  (let* _ := SetZero in SquaredColumnNorm dchk (Some x0)) m
  = Ok (Some (replicate (length x0) 0))
       (set_values m (replicate (length (values_ m)) 0)) /\
  (let* _ := SetZero in ToDenseMatrix dchk (Some d0)) m
  = Ok (Matrix.mk (num_rows_ m) (num_cols_ m)
          (replicate (Z.to_nat (num_rows_ m * num_cols_ m)) 0))
       (set_values m (replicate (length (values_ m)) 0)).
Proof.
  intros Hinv Hx Hy Hx0.
  pose proof (matrix_invariant_in_bounds m Hinv) as Hb.
  destruct (invariant_counts_nonneg m Hinv) as (Hr & Hc & _).
  pose proof Hinv as (_ & _ & _ & _ & Hlen).
  set (z := set_values m (replicate (length (values_ m)) 0)).
  assert (Hbz : in_bounds (block_structure_ z) (num_rows_ m) (num_cols_ m)
                  (Z.of_nat (length (values_ z)))).
  { apply set_values_in_bounds; [by rewrite length_replicate | done]. }
  rewrite !(bind_Ok _ _ _ _ _ (SetZero_ok m Hlen)). fold z. split_and!.
  - rewrite LeftMultiply_ok by (by rewrite Hx, Hy). do 2 f_equal.
    unfold left_step. apply foldl_add_at_zero. intros e _. simpl.
    by rewrite rd_replicate_0.
  - rewrite (SquaredColumnNorm_ok dchk z x0 (num_rows_ m)) by done. do 2 f_equal.
    unfold norm_step. apply foldl_add_at_zero. intros e _. simpl.
    by rewrite rd_replicate_0.
  - rewrite ToDenseMatrix_ok by done. do 2 f_equal.
    unfold dense_step. apply foldl_add_at_zero. intros e _. simpl.
    by rewrite rd_replicate_0.
Qed.

Lemma SetZero_zero_matrix_witness :
  matrix_invariant ex_m /\
  (let* _ := SetZero in LeftMultiply true (Some [1; 2; 3]) (Some [4; 5; 6])) ex_m
  = Ok (Some [4; 5; 6]) (set_values ex_m [0; 0; 0; 0; 0; 0; 0]) /\
  (let* _ := SetZero in SquaredColumnNorm true (Some [9; 9; 9])) ex_m
  = Ok (Some [0; 0; 0]) (set_values ex_m [0; 0; 0; 0; 0; 0; 0]) /\
  (let* _ := SetZero in ToDenseMatrix true (Some (Matrix.mk 0 0 []))) ex_m
  = Ok (Matrix.mk 3 3 [0; 0; 0; 0; 0; 0; 0; 0; 0])
       (set_values ex_m [0; 0; 0; 0; 0; 0; 0]).
Proof.
  split; [exact ex_m_invariant|].
  exact (SetZero_zero_matrix true ex_m [1; 2; 3] [4; 5; 6] [9; 9; 9] (Matrix.mk 0 0 [])
           ex_m_invariant eq_refl eq_refl eq_refl).
Defined.

(** * The invariant: established by construction, kept by the mutators *)

(** X9. Construction from a descriptor that satisfies the structure
    invariant and whose counts are within int returns a matrix that
    satisfies the matrix invariant, with max_num_nonzeros equal to
    num_nonzeros; the value buffer is not initialised: it holds what the
    allocated memory held. *)
Theorem construction_invariant (dchk : bool) (heap : nat -> Z)
    (bs : CompressedRowBlockStructure) :
  structure_invariant bs ->
  counts_fit_int bs ->
  exists m,
    BlockSparseMatrix_new dchk heap (Some bs) tt = Ok m tt /\
    matrix_invariant m /\
    block_structure_ m = bs /\
    max_num_nonzeros_ m = num_nonzeros_ m /\
    values_ m = heap <$> seq 0 (Z.to_nat (num_nonzeros_ m)).
Proof.
  intros Hs Hfit. pose proof Hs as (Hok & _).
  eexists. split; [by apply BlockSparseMatrix_new_ok|].
  split; [|done]. unfold matrix_invariant. simpl. split_and!; try done.
  rewrite length_fmap, length_seq.
  pose proof (sum_over_nonneg id _ (cell_sizes_nonneg bs Hok)). lia.
Qed.

Lemma ex_bs_invariant : structure_invariant ex_bs.
Proof. apply (bool_decide_unpack _). vm_compute. exact I. Defined.

Lemma construction_invariant_witness :
  structure_invariant ex_bs /\ counts_fit_int ex_bs /\
  exists m,
    BlockSparseMatrix_new true (fun n => Z.of_nat n + 1) (Some ex_bs) tt = Ok m tt /\
    matrix_invariant m /\
    block_structure_ m = ex_bs /\
    max_num_nonzeros_ m = num_nonzeros_ m /\
    values_ m = (fun n => Z.of_nat n + 1) <$> seq 0 (Z.to_nat (num_nonzeros_ m)).
Proof.
  split; [exact ex_bs_invariant|]. split; [exact ex_bs_fits|].
  exact (construction_invariant true (fun n => Z.of_nat n + 1) ex_bs
           ex_bs_invariant ex_bs_fits).
Defined.

(** X10. SetZero and ScaleColumns keep the matrix invariant: on a matrix
    that satisfies it they return, and the matrix they leave satisfies it
    again. *)
Theorem mutators_keep_invariant (dchk : bool) (m : BlockSparseMatrix)
    (scale : list Z) :
  matrix_invariant m ->
  Z.of_nat (length scale) = num_cols_ m ->
  (exists m', SetZero m = Ok tt m' /\ matrix_invariant m') /\
  (exists m', ScaleColumns dchk (Some scale) m = Ok tt m' /\ matrix_invariant m').
Proof.
  intros Hinv Hs. pose proof Hinv as (_ & _ & _ & _ & Hlen). split.
  - eexists. split; [by apply SetZero_ok|].
    apply set_values_invariant; [done | by rewrite length_replicate].
  - eexists. split; [by apply ScaleColumns_invariant|].
    apply set_values_invariant; [done|]. rewrite length_fmap.
    by destruct (invariant_slots_keys m Hinv).
Qed.

Lemma mutators_keep_invariant_witness :
  matrix_invariant ex_m /\
  (exists m', SetZero ex_m = Ok tt m' /\ matrix_invariant m') /\
  (exists m', ScaleColumns true (Some [1; 10; 100]) ex_m = Ok tt m' /\
              matrix_invariant m').
Proof.
  split; [exact ex_m_invariant|].
  exact (mutators_keep_invariant true ex_m [1; 10; 100] ex_m_invariant eq_refl).
Defined.

(** * Construction from a descriptor outside the data model *)

(** X11. When the sizes of a descriptor are not counts but no sum and no
    product the constructor computes leaves int, the counts are the sums:
    with debug checks on, a negative number of rows, columns or non-zeros is
    a fatal check failure; with the checks off a negative number of
    non-zeros makes the allocation throw std::bad_array_new_length, and a
    negative number of rows or columns alone is accepted. *)
Theorem construction_negative_counts (heap : nat -> Z)
    (bs : CompressedRowBlockStructure) (nr nc nnz : Z) :
  block_ids_in_range bs ->
  int_sum (row_sizes bs) = Some nr ->
  int_sum (col_sizes bs) = Some nc ->
  Forall in_int (cell_sizes bs) ->
  int_sum (cell_sizes bs) = Some nnz ->
  nr = sum_over id (row_sizes bs) /\
  nc = sum_over id (col_sizes bs) /\
  nnz = sum_over id (cell_sizes bs) /\
  (nr < 0 \/ nc < 0 \/ nnz < 0 ->
   BlockSparseMatrix_new true heap (Some bs) tt = Fatal) /\
  (nnz < 0 ->
   BlockSparseMatrix_new false heap (Some bs) tt
   = Throw "std::bad_array_new_length" tt) /\
  (0 <= nnz ->
   exists m,
     BlockSparseMatrix_new false heap (Some bs) tt = Ok m tt /\
     num_rows_ m = nr /\ num_cols_ m = nc /\ num_nonzeros_ m = nnz).
Proof.
  intros Hid Hr Hc Hin Hn.
  split; [by apply int_sum_from_Some in Hr|].
  split; [by apply int_sum_from_Some in Hc|].
  split; [by apply int_sum_from_Some in Hn|].
  split_and!.
  - intros Hneg. rewrite (BlockSparseMatrix_new_counts true heap bs nr nc nnz) by done.
    unfold DCHECK_GE, bind, new_array. repeat case_decide; try done; lia.
  - intros Hneg. rewrite (BlockSparseMatrix_new_counts false heap bs nr nc nnz) by done.
    unfold DCHECK_GE, bind, new_array. simpl. by rewrite decide_False by lia.
  - intros Hnn. rewrite (BlockSparseMatrix_new_counts false heap bs nr nc nnz) by done.
    unfold DCHECK_GE, bind, new_array. simpl. rewrite decide_True by lia.
    eexists. split; [reflexivity|]. done.
Qed.

Lemma neg_bs_ids : block_ids_in_range neg_bs.
Proof. unfold block_ids_in_range. apply (bool_decide_unpack _). vm_compute. exact I. Defined.

Lemma neg_bs_cells : Forall in_int (cell_sizes neg_bs).
Proof. apply (bool_decide_unpack _). vm_compute. exact I. Defined.

Lemma construction_negative_counts_witness :
  block_ids_in_range neg_bs /\
  int_sum (row_sizes neg_bs) = Some (-2) /\
  int_sum (col_sizes neg_bs) = Some 1 /\
  Forall in_int (cell_sizes neg_bs) /\
  int_sum (cell_sizes neg_bs) = Some (-2) /\
  BlockSparseMatrix_new true (fun _ => 0) (Some neg_bs) tt = Fatal /\
  BlockSparseMatrix_new false (fun _ => 0) (Some neg_bs) tt
  = Throw "std::bad_array_new_length" tt.
Proof.
  split; [exact neg_bs_ids|]. split; [reflexivity|]. split; [reflexivity|].
  split; [exact neg_bs_cells|]. split; [reflexivity|].
  destruct (construction_negative_counts (fun _ => 0) neg_bs (-2) 1 (-2)
              neg_bs_ids eq_refl eq_refl neg_bs_cells eq_refl)
    as (_ & _ & _ & H1 & H2 & _).
  split; [apply H1; left; reflexivity | apply H2; reflexivity].
Defined.

Lemma bind_Undefined {S A B} (c : M S A) (k : A -> M S B) (s : S) :
  c s = Undefined -> bind c k s = Undefined.
Proof. intros E. unfold bind. by rewrite E. Qed.

Lemma index_None {A} (l : list A) (i : Z) :
  ~ (0 <= i < Z.of_nat (length l)) -> index l i = None.
Proof.
  intros H. unfold index. case_decide; [|done]. apply lookup_ge_None. lia.
Qed.

(** A loop none of whose iterations throws or fails a check, and one of
    whose iterations is undefined whatever it starts from, is undefined. *)
Lemma forM_Undefined {S A B} (l : list A) (body : A -> B -> M S B) (a0 : A)
    (b : B) (s : S) :
  (forall a b s, a ∈ l -> Ok_or_Undefined (body a b s)) ->
  a0 ∈ l ->
  (forall b s, body a0 b s = Undefined) ->
  forM l body b s = Undefined.
Proof.
  revert b s. induction l as [|a l IH]; intros b s Hall Hin Hbad.
  - by apply elem_of_nil in Hin.
  - simpl. unfold bind. pose proof (Hall a b s ltac:(left)) as Ha.
    destruct (body a b s) as [b' s'| | |] eqn:E; try done.
    apply elem_of_cons in Hin as [->|Hin].
    + by rewrite Hbad in E.
    + apply IH; [|done|done]. intros. apply Hall. by right.
Qed.

Lemma forM_Ok_or_Undefined {S A B} (l : list A) (body : A -> B -> M S B)
    (b : B) (s : S) :
  (forall a b s, a ∈ l -> Ok_or_Undefined (body a b s)) ->
  Ok_or_Undefined (forM l body b s).
Proof.
  revert b s. induction l as [|a l IH]; intros b s Hall; [done|].
  simpl. unfold bind. pose proof (Hall a b s ltac:(left)) as Ha.
  destruct (body a b s) as [b' s'| | |]; try done.
  apply IH. intros. apply Hall. by right.
Qed.

Lemma vec_at_Ok_or_Undefined {S A} (v : list A) (i : Z) (s : S) :
  Ok_or_Undefined (vec_at v i s).
Proof. unfold vec_at. by destruct (index v i). Qed.

Lemma bind_Ok_or_Undefined {S A B} (c : M S A) (k : A -> M S B) (s : S) :
  Ok_or_Undefined (c s) -> (forall a s', Ok_or_Undefined (k a s')) ->
  Ok_or_Undefined (bind c k s).
Proof.
  intros Hc Hk. unfold bind. by destruct (c s) as [a s'| | |].
Qed.

Lemma int_value_Ok_or_Undefined {S} (z : Z) (s : S) :
  Ok_or_Undefined (int_value z s).
Proof. unfold int_value. by case_decide. Qed.

(** X12. A cell that names a column block that does not exist makes
    construction undefined behaviour (col_sizes is read out of range), in
    debug and release builds alike: no check catches it. *)
Theorem construction_stray_block_id (dchk : bool) (heap : nat -> Z)
    (bs : CompressedRowBlockStructure) (row : CompressedRow) (cell : Cell.t) :
  row ∈ rows bs -> cell ∈ cells row ->
  ~ (0 <= Cell.block_id cell < Z.of_nat (length (col_sizes bs))) ->
  BlockSparseMatrix_new dchk heap (Some bs) tt = Undefined.
Proof.
  intros Hrow Hcell Hid. unfold BlockSparseMatrix_new.
  rewrite DCHECK_NOTNULL_Some, bind_ret. unfold deref. rewrite bind_ret.
  unfold bind at 1.
  pose proof (forM_Ok_or_Undefined (S:=unit) (col_sizes bs)
    (fun col_size num_cols => int_add num_cols col_size) 0 tt
    (fun a b s _ => int_value_Ok_or_Undefined (b + a) s)) as Hcols.
  destruct (forM (col_sizes bs) _ 0 tt) as [nc []| | |]; try done.
  apply bind_Undefined.
  assert (Hcell_body : forall (rw : CompressedRow) (c : Cell.t) (n : Z) (s : unit),
    Ok_or_Undefined
      ((let* col_block_size := vec_at (col_sizes bs) (Cell.block_id c) in
        let* n' := int_mul col_block_size (Block.size (block rw)) in
        int_add n n') s)).
  { intros rw c n s.
    apply bind_Ok_or_Undefined; [apply vec_at_Ok_or_Undefined|]. intros cs s1.
    apply bind_Ok_or_Undefined; apply int_value_Ok_or_Undefined || intros.
    apply int_value_Ok_or_Undefined. }
  apply (forM_Undefined _ _ row); [|done|].
  - intros rw [nr nnz] s _.
    apply bind_Ok_or_Undefined; [apply int_value_Ok_or_Undefined|]. intros nr' s1.
    apply bind_Ok_or_Undefined; [|done].
    apply forM_Ok_or_Undefined. intros c n s2 _. apply Hcell_body.
  - intros [nr nnz] s. unfold bind at 1.
    pose proof (int_value_Ok_or_Undefined (nr + Block.size (block row)) s) as Hi.
    unfold int_add at 1.
    destruct (int_value (nr + Block.size (block row)) s) as [nr' s'| | |]; try done.
    apply bind_Undefined.
    apply (forM_Undefined _ _ cell); [|done|].
    + intros c n s2 _. apply Hcell_body.
    + intros n' s2. apply bind_Undefined. unfold vec_at.
      by rewrite index_None.
Qed.

Lemma construction_stray_block_id_witness :
  BlockSparseMatrix_new true (fun _ => 0) (Some stray_bs) tt = Undefined /\
  BlockSparseMatrix_new false (fun _ => 0) (Some stray_bs) tt = Undefined.
Proof.
  split.
  - apply (construction_stray_block_id true (fun _ => 0) stray_bs
             (mkCompressedRow (Block.mk 1 0) [Cell.mk 5 0]) (Cell.mk 5 0));
      [left | left | simpl; lia].
  - apply (construction_stray_block_id false (fun _ => 0) stray_bs
             (mkCompressedRow (Block.mk 1 0) [Cell.mk 5 0]) (Cell.mk 5 0));
      [left | left | simpl; lia].
Defined.

(** * ToTextFile *)

Lemma foldl_snoc {A B} (f : A -> B) (l : list A) (acc : list B) :
  foldl (fun acc e => acc ++ [f e]) acc l = acc ++ (f <$> l).
Proof.
  revert acc. induction l as [|e l IH]; intros acc; csimpl.
  - by rewrite app_nil_r.
  - rewrite IH. by rewrite <- app_assoc.
Qed.

Lemma ToTextFile_ok (m : BlockSparseMatrix) (file : list (Z * Z * Z)) (nr nc : Z) :
  in_bounds (block_structure_ m) nr nc (Z.of_nat (length (values_ m))) ->
  ToTextFile (Some file) m
  = Ok (foldl (text_step (values_ m)) file (slots (block_structure_ m))) m.
Proof.
  intros Hb. unfold ToTextFile, CHECK_NOTNULL.
  rewrite bind_ret, bind_get. unfold deref at 1. rewrite bind_ret.
  destruct (visit_cells_ok id (fun _ : list (Z * Z * Z) => True)
    (fun row_block_pos row_block_size col_block_pos col_block_size jac_pos file =>
       let* st :=
         forM (range row_block_size) (fun r st =>
           forM (range col_block_size) (fun c '(jac_pos, file) =>
             let* v := vec_at (values_ m) jac_pos in
             ret (jac_pos + 1,
                  file ++ [(row_block_pos + r, col_block_pos + c, v)])) st)
           (jac_pos, file) in
       ret (snd st))
    (text_step (values_ m))
    (block_structure_ m) _ _ _ m file Hb I) as [E _]; [|exact E].
  intros rp rs cp cs pos f1 Hrs Hcs Hrp Hrp' Hcp Hcp' Hpos Hpos' _. unfold id.
  unfold bind at 1.
  rewrite (forM_ext _ _ (fun r st =>
    forM (range cs) (fun c (st : Z * list (Z * Z * Z)) =>
      let* b' := (fun r c jp f =>
                    let* v := vec_at (values_ m) jp in
                    ret (f ++ [(rp + r, cp + c, v)])) r c st.1 st.2 in
      ret (st.1 + 1, b')) st)).
  2:{ intros r st s0 _. apply forM_ext. intros c [jp f2] s1 _. simpl.
      unfold bind, ret. by destruct (vec_at (values_ m) jp s1). }
  rewrite (counter_block_loops
    (fun r c jp f =>
       let* v := vec_at (values_ m) jp in
       ret (f ++ [(rp + r, cp + c, v)])) rs cs pos f1 m Hrs Hcs).
  destruct (block_loop_ok id (fun _ : list (Z * Z * Z) => True)
    (fun i j k f =>
       let* v := vec_at (values_ m) k in
       ret (f ++ [(i, j, v)]))
    (text_step (values_ m)) rp rs cp cs pos m f1 I) as [E HI].
  { intros r c f2 Hr Hc _. split; [|done].
    rewrite (bind_Ok _ _ _ _ _
      (vec_at_ok (values_ m) (pos + (r * cs + c)) m ltac:(nia))).
    reflexivity. }
  unfold id in E. rewrite (bind_Ok _ _ _ _ _ E). simpl.
  split; [reflexivity | exact I].
Qed.

(** X13. ToTextFile appends to the file one line per stored scalar and
    nothing else: the lines are the triples (row, column, value) that
    ToTripletSparseMatrix produces, in the same order, and the lines already
    in the file stay. *)
Theorem ToTextFile_lines (dchk : bool) (m : BlockSparseMatrix)
    (file : list (Z * Z * Z)) (t0 : TripletSparseMatrix.t) :
  matrix_invariant m ->
  exists t,
    ToTripletSparseMatrix dchk (Some t0) m = Ok t m /\
    ToTextFile (Some file) m = Ok (file ++ TripletSparseMatrix.triples t) m /\
    Z.of_nat (length (TripletSparseMatrix.triples t)) = num_nonzeros_ m.
Proof.
  intros Hinv. pose proof (matrix_invariant_in_bounds m Hinv) as Hb.
  destruct (ToTripletSparseMatrix_entries dchk m t0 Hinv) as (t & Et & Htr & Hn & _).
  exists t. split; [exact Et|]. rewrite Htr. split; [|exact Hn].
  rewrite (ToTextFile_ok m file _ _ Hb). f_equal.
  unfold text_step, entries. apply foldl_snoc.
Qed.

Lemma ToTextFile_lines_witness :
  matrix_invariant ex_m /\
  exists t,
    ToTripletSparseMatrix true (Some (TripletSparseMatrix.mk 0 0 0 [] [] [])) ex_m
      = Ok t ex_m /\
    ToTextFile (Some [(9, 9, 9)]) ex_m
      = Ok ([(9, 9, 9)] ++ TripletSparseMatrix.triples t) ex_m /\
    Z.of_nat (length (TripletSparseMatrix.triples t)) = 7.
Proof.
  split; [exact ex_m_invariant|].
  exact (ToTextFile_lines true ex_m [(9, 9, 9)]
           (TripletSparseMatrix.mk 0 0 0 [] [] []) ex_m_invariant).
Defined.

(** ** What ToTextFile does on any matrix *)

Lemma returns_ret {S A} (P : A -> Prop) (a : A) : P a -> returns (S:=S) P (ret a).
Proof. by intros H s. Qed.

Lemma returns_bind {S A B} (Q : A -> Prop) (P : B -> Prop)
    (c : M S A) (k : A -> M S B) :
  returns Q c -> (forall a, Q a -> returns P (k a)) -> returns P (bind c k).
Proof.
  intros Hc Hk s. unfold bind. specialize (Hc s).
  destruct (c s) as [a s'| | |]; try done. apply (Hk a Hc s').
Qed.

Lemma returns_forM {S A B} (R : B -> B -> Prop) (l : list A)
    (body : A -> B -> M S B) (b : B) :
  (forall b, R b b) -> (forall a b c, R a b -> R b c -> R a c) ->
  (forall a b, returns (R b) (body a b)) ->
  returns (R b) (forM l body b).
Proof.
  intros Hrefl Htrans Hbody. revert b. induction l as [|a l IH]; intros b; simpl.
  - by apply returns_ret.
  - apply (returns_bind (R b)); [apply Hbody|].
    intros b' Hb' s. specialize (IH b' s).
    destruct (forM l body b' s); try done. by eapply Htrans.
Qed.

Lemma returns_any {S A} (c : M S A) : returns (fun _ => True) c.
Proof. intros s. by destruct (c s). Qed.

(** X14. Given a file, ToTextFile on any matrix, well formed or not,
    either returns or is undefined behaviour (it never throws and no check
    fails); when it returns, the matrix is as it was and the lines that were
    in the file are still there, ahead of the new ones. *)
Theorem ToTextFile_only_appends (file : list (Z * Z * Z)) (m : BlockSparseMatrix) :
  match ToTextFile (Some file) m with
  | Ok file' m' => m' = m /\ file `prefix_of` file'
  | Undefined => True
  | Throw _ _ | Fatal => False
  end.
Proof.
  assert (Hframe : preserves (ToTextFile (Some file))).
  { unfold preserves, ToTextFile. frame. }
  assert (Hgrows : match ToTextFile (Some file) m with
                   | Ok file' _ => file `prefix_of` file'
                   | Throw _ _ | Fatal | Undefined => True
                   end).
  { unfold ToTextFile, CHECK_NOTNULL.
    rewrite bind_ret, bind_get. unfold deref at 1. rewrite bind_ret.
    match goal with |- match ?c m with _ => _ end =>
      cut (returns (fun file' => file `prefix_of` file') c);
        [intros H; exact (H m)|]
    end.
    apply (returns_forM prefix); [done | by intros; etrans |].
    intros row f. apply (returns_forM prefix); [done | by intros; etrans |].
    intros cell f1.
    apply (returns_bind (fun _ => True)); [apply returns_any|]. intros cs _.
    apply (returns_bind (fun _ => True)); [apply returns_any|]. intros cp _.
    apply (returns_bind (fun st : Z * list (Z * Z * Z) => f1 `prefix_of` st.2)).
    2:{ intros st Hst. by apply returns_ret. }
    apply (returns_forM (fun st st' : Z * list (Z * Z * Z) => st.2 `prefix_of` st'.2)
             _ _ (Cell.position cell, f1)); [done | by intros; etrans |].
    intros r st.
    apply (returns_forM (fun st st' : Z * list (Z * Z * Z) => st.2 `prefix_of` st'.2));
      [done | by intros; etrans |].
    intros c [jp f2].
    apply (returns_bind (fun _ => True)); [apply returns_any|]. intros v _.
    apply returns_ret. simpl. by apply prefix_app_r. }
  assert (Hout : Ok_or_Undefined (ToTextFile (Some file) m)).
  { unfold ToTextFile, CHECK_NOTNULL.
    rewrite bind_ret, bind_get. unfold deref at 1. rewrite bind_ret.
    apply forM_Ok_or_Undefined. intros row f s _.
    apply forM_Ok_or_Undefined. intros cell f1 s1 _.
    apply bind_Ok_or_Undefined; [apply vec_at_Ok_or_Undefined|]. intros cs s2.
    apply bind_Ok_or_Undefined; [apply vec_at_Ok_or_Undefined|]. intros cp s3.
    apply bind_Ok_or_Undefined; [|done].
    apply forM_Ok_or_Undefined. intros r st s4 _.
    apply forM_Ok_or_Undefined. intros c [jp f2] s5 _.
    apply bind_Ok_or_Undefined; [apply vec_at_Ok_or_Undefined | done]. }
  specialize (Hframe m).
  destruct (ToTextFile (Some file) m); try done.
Qed.

(** * The column norms are sums of squares *)

Lemma sum_over_nonneg_zero {A} (f : A -> Z) (l : list A) :
  Forall (fun a => 0 <= f a) l ->
  sum_over f l = 0 <-> (forall a, a ∈ l -> f a = 0).
Proof.
  induction 1 as [|a l Ha Hl IH]; simpl.
  - split; [by intros _ a Hin%elem_of_nil | done].
  - pose proof (sum_over_nonneg f l Hl). split.
    + intros E a' [->|Hin]%elem_of_cons; [lia|]. apply IH; [lia | done].
    + intros Hall. rewrite (Hall a) by left.
      rewrite (proj2 IH); [done|]. intros. apply Hall. by right.
Qed.

(** X15. What SquaredColumnNorm reports for a column is never negative, and
    it is zero exactly when every stored entry of that column is zero. *)
Theorem SquaredColumnNorm_definite (dchk : bool) (m : BlockSparseMatrix) (x : list Z) :
  matrix_invariant m ->
  Z.of_nat (length x) = num_cols_ m ->
  exists x',
    SquaredColumnNorm dchk (Some x) m = Ok (Some x') m /\
    forall j, 0 <= j < num_cols_ m ->
      0 <= rd x' j /\
      (rd x' j = 0 <-> forall i v, (i, j, v) ∈ entries m -> v = 0).
Proof.
  intros Hinv Hx.
  destruct (SquaredColumnNorm_entries dchk m x Hinv Hx) as (x' & Ex & _ & Hn).
  exists x'. split; [exact Ex|]. intros j Hj. rewrite Hn by done.
  unfold sum_squares_in_col.
  assert (Hnn : Forall (fun e : Z * Z * Z =>
              0 <= (if decide (e.1.2 = j) then e.2 * e.2 else 0)) (entries m)).
  { apply Forall_forall. intros e _. case_decide; nia. }
  split; [by apply sum_over_nonneg|].
  rewrite (sum_over_nonneg_zero _ _ Hnn). split.
  - intros H i v Hin. specialize (H _ Hin). simpl in H.
    rewrite decide_True in H by done. nia.
  - intros H [[i j'] v] Hin. simpl. case_decide as E; [|done].
    subst. rewrite (H i v Hin). done.
Qed.

Lemma SquaredColumnNorm_definite_witness :
  matrix_invariant ex_m /\
  exists x',
    SquaredColumnNorm true (Some [9; 9; 9]) ex_m = Ok (Some x') ex_m /\
    forall j, 0 <= j < 3 ->
      0 <= rd x' j /\
      (rd x' j = 0 <-> forall i v, (i, j, v) ∈ entries ex_m -> v = 0).
Proof.
  split; [exact ex_m_invariant|].
  exact (SquaredColumnNorm_definite true ex_m [9; 9; 9] ex_m_invariant eq_refl).
Defined.

(** * The matrix CreateDiagonalMatrix returns *)






(** X17. When col_positions has fewer elements than col_sizes,
    CreateDiagonalMatrix is undefined behaviour (col_positions is read past
    its end while the row blocks are set up), whatever the diagonal and
    whatever a copy of a row does with its cells. *)
Theorem CreateDiagonalMatrix_short_positions (dchk : bool) (copy : row_copy)
    (heap : nat -> Z) (diagonal : ptr) (col_sizes col_positions : list Z) :
  (length col_positions < length col_sizes)%nat ->
  CreateDiagonalMatrix dchk copy heap diagonal col_sizes col_positions tt
  = Undefined.
Proof.
  intros Hlt. unfold CreateDiagonalMatrix. apply bind_Undefined.
  apply (forM_Undefined _ _ (Z.of_nat (length col_positions))).
  - intros i [position rows0] s _.
    apply bind_Ok_or_Undefined; [apply vec_at_Ok_or_Undefined|]. intros row s0.
    apply bind_Ok_or_Undefined; [apply vec_at_Ok_or_Undefined|]. intros size s1.
    apply bind_Ok_or_Undefined; [apply vec_at_Ok_or_Undefined|]. intros pos s2.
    apply bind_Ok_or_Undefined; [apply vec_at_Ok_or_Undefined|]. intros c s3.
    apply bind_Ok_or_Undefined; [apply int_value_Ok_or_Undefined|]. intros sq s4.
    apply bind_Ok_or_Undefined; [apply int_value_Ok_or_Undefined | done].
  - unfold range. apply elem_of_seqZ. lia.
  - intros [position rows0] s. unfold bind at 1.
    pose proof (vec_at_Ok_or_Undefined rows0 (Z.of_nat (length col_positions)) s) as Hr.
    destruct (vec_at rows0 _ s) as [row s'| | |]; try done.
    destruct (index_lt col_sizes (Z.of_nat (length col_positions)) ltac:(lia))
      as [size Es].
    rewrite (bind_Ok _ _ _ _ _ (vec_at_Some _ _ _ s' Es)).
    apply bind_Undefined. unfold vec_at. by rewrite index_None by lia.
Qed.

Lemma CreateDiagonalMatrix_short_positions_witness :
  CreateDiagonalMatrix true copies_cells (fun _ => 0) (Some [3; 4; 5]) [2; 1] [0] tt
  = Undefined /\
  CreateDiagonalMatrix true shares_cells (fun _ => 0) (Some [3; 4; 5]) [2; 1] [0] tt
  = Undefined.
Proof.
  split.
  - apply (CreateDiagonalMatrix_short_positions true copies_cells (fun _ => 0)
             (Some [3; 4; 5]) [2; 1] [0]).
    simpl. lia.
  - apply (CreateDiagonalMatrix_short_positions true shares_cells (fun _ => 0)
             (Some [3; 4; 5]) [2; 1] [0]).
    simpl. lia.
Defined.

(** * How the mutators and the products compose *)

Lemma fmap_zero_slots (m : BlockSparseMatrix) (f : slot -> Z) :
  matrix_invariant m ->
  (forall e, e ∈ slots (block_structure_ m) -> f e = 0) ->
  f <$> slots (block_structure_ m) = replicate (length (values_ m)) 0.
Proof.
  intros Hinv Hf. destruct (invariant_slots_keys m Hinv) as [_ Hl].
  rewrite <- Hl, <- fmap_const_replicate.
  apply list_fmap_ext. intros n e En. apply Hf. by apply list_elem_of_lookup_2 in En.
Qed.

(** X18. SetZero absorbs the mutators: calling it twice, calling it after
    ScaleColumns, calling ScaleColumns after it, and scaling the columns by
    the zero vector all leave the matrix SetZero leaves. *)
Theorem SetZero_absorbs (dchk : bool) (m : BlockSparseMatrix) (scale : list Z) :
  matrix_invariant m ->
  Z.of_nat (length scale) = num_cols_ m ->
  SetZero m = Ok tt (set_values m (replicate (length (values_ m)) 0)) /\
  (let* _ := SetZero in SetZero) m = SetZero m /\
  (let* _ := ScaleColumns dchk (Some scale) in SetZero) m = SetZero m /\
  (let* _ := SetZero in ScaleColumns dchk (Some scale)) m = SetZero m /\
  ScaleColumns dchk (Some (replicate (Z.to_nat (num_cols_ m)) 0)) m = SetZero m.
Proof.
  intros Hinv Hs. pose proof Hinv as (_ & _ & _ & _ & Hlen).
  destruct (invariant_counts_nonneg m Hinv) as (_ & Hc & _).
  set (z := set_values m (replicate (length (values_ m)) 0)).
  assert (Hz : matrix_invariant z).
  { apply set_values_invariant; [done | by rewrite length_replicate]. }
  assert (E0 : SetZero m = Ok tt z) by by apply SetZero_ok.
  split; [exact E0|]. rewrite E0. split_and!.
  - rewrite (bind_Ok _ _ _ _ _ E0). rewrite SetZero_ok.
    + unfold z, set_values. simpl. by rewrite length_replicate.
    + simpl. by rewrite length_replicate.
  - rewrite (bind_Ok _ _ _ _ _ (ScaleColumns_invariant dchk m scale Hinv Hs)).
    rewrite SetZero_ok.
    + unfold z, set_values. simpl. rewrite length_fmap.
      by destruct (invariant_slots_keys m Hinv) as [_ ->].
    + simpl. rewrite length_fmap.
      destruct (invariant_slots_keys m Hinv) as [_ ->]. done.
  - rewrite (bind_Ok _ _ _ _ _ E0).
    rewrite (ScaleColumns_invariant dchk z scale Hz Hs).
    rewrite (fmap_zero_slots z) by
      (done || (intros e _; simpl; by rewrite rd_replicate_0)).
    unfold z, set_values. simpl. by rewrite length_replicate.
  - rewrite ScaleColumns_invariant by (done || rewrite length_replicate; lia).
    rewrite (fmap_zero_slots m) by
      (done || (intros e _; by rewrite rd_replicate_0, Z.mul_0_r)).
    done.
Qed.

Lemma SetZero_absorbs_witness :
  matrix_invariant ex_m /\
  SetZero ex_m = Ok tt (set_values ex_m [0; 0; 0; 0; 0; 0; 0]) /\
  (let* _ := SetZero in SetZero) ex_m = SetZero ex_m /\
  (let* _ := ScaleColumns true (Some [1; 10; 100]) in SetZero) ex_m = SetZero ex_m /\
  (let* _ := SetZero in ScaleColumns true (Some [1; 10; 100])) ex_m = SetZero ex_m /\
  ScaleColumns true (Some [0; 0; 0]) ex_m = SetZero ex_m.
Proof.
  split; [exact ex_m_invariant|].
  exact (SetZero_absorbs true ex_m [1; 10; 100] ex_m_invariant eq_refl).
Defined.

(** X19. Scaling the columns and then multiplying is multiplying the
    unscaled matrix with the scale folded into the vectors: RightMultiply by
    x on the scaled matrix returns what RightMultiply by the elementwise
    product of scale and x returns on the original, and LeftMultiply on the
    scaled matrix adds to entry j of the output scale[j] times what
    LeftMultiply adds on the original. *)
Theorem ScaleColumns_then_multiply (dchk : bool) (m : BlockSparseMatrix)
    (scale x y u w : list Z) :
  matrix_invariant m ->
  Z.of_nat (length scale) = num_cols_ m ->
  Z.of_nat (length x) = num_cols_ m -> Z.of_nat (length y) = num_rows_ m ->
  Z.of_nat (length u) = num_rows_ m -> Z.of_nat (length w) = num_cols_ m ->
  exists m' y' w0 w',
    ScaleColumns dchk (Some scale) m = Ok tt m' /\
    RightMultiply dchk (Some x) (Some y) m' = Ok (Some y') m' /\
    RightMultiply dchk (Some (zip_with Z.mul scale x)) (Some y) m = Ok (Some y') m /\
    LeftMultiply dchk (Some u) (Some w) m = Ok (Some w0) m /\
    LeftMultiply dchk (Some u) (Some w) m' = Ok (Some w') m' /\
    forall j, 0 <= j < num_cols_ m ->
      rd w' j = rd w j + rd scale j * (rd w0 j - rd w j).
Proof.
  intros Hinv Hs Hx Hy Hu Hw.
  set (v' := (fun e : slot => rd (values_ m) e.2 * rd scale e.1.2)
               <$> slots (block_structure_ m)).
  assert (Hv' : length v' = length (values_ m)).
  { unfold v'. rewrite length_fmap. by destruct (invariant_slots_keys m Hinv). }
  pose proof (set_values_invariant m v' Hinv Hv') as Hinv'.
  assert (Een : entries (set_values m v') = scaled_entries scale (entries m))
    by by apply entries_set_values_scaled.
  destruct (RightMultiply_entries dchk _ x y Hinv' Hx Hy) as (y' & E1 & Hl1 & H1).
  destruct (RightMultiply_entries dchk m (zip_with Z.mul scale x) y Hinv
              ltac:(rewrite length_zip_with; lia) Hy) as (y2 & E2 & Hl2 & H2).
  destruct (LeftMultiply_entries dchk m u w Hinv Hu Hw) as (w0 & E3 & Hl3 & H3).
  destruct (LeftMultiply_entries dchk _ u w Hinv' Hu Hw) as (w' & E4 & Hl4 & H4).
  assert (y2 = y') as ->.
  { apply list_eq_rd; [lia|]. intros i Hi.
    rewrite H2, (H1 i) by (simpl; lia). f_equal. rewrite Een.
    unfold scaled_entries. rewrite sum_over_fmap.
    apply sum_over_ext. intros e _. simpl. case_decide; [|done].
    rewrite rd_zip_with_mul. lia. }
  exists (set_values m v'), y', w0, w'.
  split; [by apply ScaleColumns_invariant|].
  split; [exact E1|]. split; [exact E2|]. split; [exact E3|]. split; [exact E4|].
  intros j Hj. rewrite H3, (H4 j Hj) by done. f_equal. rewrite Een.
  unfold scaled_entries. rewrite sum_over_fmap.
  replace (rd w j + _ - rd w j)
    with (sum_over (fun e : Z * Z * Z =>
            if decide (e.1.2 = j) then e.2 * rd u e.1.1 else 0) (entries m)) by lia.
  rewrite Z.mul_comm, <- sum_over_mul_r.
  apply sum_over_ext. intros e _. simpl. case_decide as E; [|done].
  rewrite <- E. lia.
Qed.

Lemma ScaleColumns_then_multiply_witness :
  matrix_invariant ex_m /\
  exists m' y' w0 w',
    ScaleColumns true (Some [1; 10; 100]) ex_m = Ok tt m' /\
    RightMultiply true (Some [2; 3; 4]) (Some [4; 5; 6]) m' = Ok (Some y') m' /\
    RightMultiply true (Some [2; 30; 400]) (Some [4; 5; 6]) ex_m = Ok (Some y') ex_m /\
    LeftMultiply true (Some [1; 2; 3]) (Some [7; 8; 9]) ex_m = Ok (Some w0) ex_m /\
    LeftMultiply true (Some [1; 2; 3]) (Some [7; 8; 9]) m' = Ok (Some w') m' /\
    forall j, 0 <= j < 3 ->
      rd w' j = rd [7; 8; 9] j + rd [1; 10; 100] j * (rd w0 j - rd [7; 8; 9] j).
Proof.
  split; [exact ex_m_invariant|].
  exact (ScaleColumns_then_multiply true ex_m [1; 10; 100] [2; 3; 4] [4; 5; 6]
           [1; 2; 3] [7; 8; 9] ex_m_invariant eq_refl eq_refl eq_refl eq_refl eq_refl).
Defined.

(** * Null arguments where the debug checks are compiled out *)

Lemma sum_over_pos_elem (l : list Z) :
  0 < sum_over id l -> exists x, x ∈ l /\ 0 < x.
Proof.
  induction l as [|a l IH]; [simpl; lia|]. rewrite sum_over_cons. intros H.
  unfold id in H at 1.
  destruct (decide (0 < a)) as [Ha|Ha].
  - exists a. split; [left | done].
  - destruct IH as (x & Hx & Hp); [lia|]. exists x. split; [by right | done].
Qed.

(** A matrix with a stored scalar has a cell with a positive number of rows
    and of columns. *)
Lemma stored_scalar_cell (m : BlockSparseMatrix) :
  matrix_invariant m -> 0 < num_nonzeros_ m ->
  exists row cell cs cp,
    row ∈ rows (block_structure_ m) /\ cell ∈ cells row /\
    0 < Block.size (block row) /\
    index (col_sizes (block_structure_ m)) (Cell.block_id cell) = Some cs /\
    0 < cs /\
    index (col_positions (block_structure_ m)) (Cell.block_id cell) = Some cp.
Proof.
  intros Hinv Hnnz. pose proof (matrix_invariant_in_bounds m Hinv) as Hb.
  destruct Hinv as (Hs & _ & _ & En & _). rewrite En in Hnnz.
  apply sum_over_pos_elem in Hnnz as (x & Hx & Hpos).
  unfold cell_sizes in Hx. apply list_elem_of_fmap in Hx as ([row cell] & -> & Hin).
  apply elem_of_all_cells in Hin as [Hr Hc].
  destruct (Hb row cell Hr Hc) as (cs & cp & Ecs & Ecp & Hrs & Hcs & _).
  simpl in Hpos. unfold col_size in Hpos. rewrite Ecs in Hpos. simpl in Hpos.
  exists row, cell, cs, cp. split_and!; try done; nia.
Qed.

Lemma stays_bind {S A B} (I : B -> Prop) (c : M S A) (k : A -> M S B) (s : S) :
  Ok_or_Undefined (c s) -> (forall a s', stays I (k a s')) ->
  stays I (bind c k s).
Proof. intros Hc Hk. unfold bind. by destruct (c s) as [a s'| | |]. Qed.

Lemma stays_forM {S A B} (I : B -> Prop) (l : list A) (body : A -> B -> M S B)
    (b : B) (s : S) :
  I b ->
  (forall a b s, a ∈ l -> I b -> stays I (body a b s)) ->
  stays I (forM l body b s).
Proof.
  revert b s. induction l as [|a l IH]; intros b s Hb Hall; [done|].
  simpl. unfold bind. pose proof (Hall a b s ltac:(left) Hb) as Ha.
  destruct (body a b s) as [b' s'| | |]; try done.
  apply IH; [done|]. intros. apply Hall; [by right | done].
Qed.

(** A loop whose iterations keep [I] or are undefined, and one of whose
    iterations is undefined from every state with [I], is undefined. *)
Lemma forM_Undefined_inv {S A B} (I : B -> Prop) (l : list A)
    (body : A -> B -> M S B) (a0 : A) (b : B) (s : S) :
  I b ->
  (forall a b s, a ∈ l -> I b -> stays I (body a b s)) ->
  a0 ∈ l ->
  (forall b s, I b -> body a0 b s = Undefined) ->
  forM l body b s = Undefined.
Proof.
  revert b s. induction l as [|a l IH]; intros b s Hb Hall Hin Hbad.
  - by apply elem_of_nil in Hin.
  - simpl. unfold bind. pose proof (Hall a b s ltac:(left) Hb) as Ha.
    destruct (body a b s) as [b' s'| | |] eqn:E; try done.
    apply elem_of_cons in Hin as [->|Hin].
    + by rewrite Hbad in E.
    + apply IH; [done | | done | done]. intros. apply Hall; [by right | done].
Qed.

Lemma load_Ok_or_Undefined {S} (p : ptr) (i : Z) (s : S) :
  Ok_or_Undefined (load p i s).
Proof. destruct p; [apply vec_at_Ok_or_Undefined | done]. Qed.

(** The loops of a method over the row blocks and their cells, when the
    work on one cell is undefined. *)
Lemma visit_cells_Undefined {S B} (I : B -> Prop)
    (K : CompressedRow -> Cell.t -> Z -> Z -> B -> M S B)
    (bs : CompressedRowBlockStructure) (row : CompressedRow) (cell : Cell.t)
    (cs cp : Z) (b : B) (s : S) :
  I b ->
  row ∈ rows bs -> cell ∈ cells row ->
  index (col_sizes bs) (Cell.block_id cell) = Some cs ->
  index (col_positions bs) (Cell.block_id cell) = Some cp ->
  (forall row cell cp cs b s, I b -> stays I (K row cell cp cs b s)) ->
  (forall b s, I b -> K row cell cp cs b s = Undefined) ->
  forM (rows bs) (fun row st =>
    forM (cells row) (fun cell st =>
      let* col_block_size := vec_at (col_sizes bs) (Cell.block_id cell) in
      let* col_block_pos := vec_at (col_positions bs) (Cell.block_id cell) in
      K row cell col_block_pos col_block_size st) st) b s
  = Undefined.
Proof.
  intros Hb Hrow Hcell Ecs Ecp Hall Hbad.
  assert (Hbody : forall (rw : CompressedRow) (c : Cell.t) (b : B) (s : S),
    I b ->
    stays I
      ((let* col_block_size := vec_at (col_sizes bs) (Cell.block_id c) in
        let* col_block_pos := vec_at (col_positions bs) (Cell.block_id c) in
        K rw c col_block_pos col_block_size b) s)).
  { intros rw c b' s' Hb'.
    apply stays_bind; [apply vec_at_Ok_or_Undefined|]. intros sz s1.
    apply stays_bind; [apply vec_at_Ok_or_Undefined|]. intros ps s2.
    by apply Hall. }
  apply (forM_Undefined_inv I _ _ row); [done | | done |].
  - intros rw b' s' _ Hb'. apply stays_forM; [done|].
    intros c b'' s'' _ Hb''. by apply Hbody.
  - intros b' s' Hb'. apply (forM_Undefined_inv I _ _ cell); [done | | done |].
    + intros c b'' s'' _ Hb''. by apply Hbody.
    + intros b'' s'' Hb''. unfold vec_at at 1. rewrite Ecs, bind_ret.
      unfold vec_at at 1. rewrite Ecp, bind_ret. by apply Hbad.
Qed.

(** The work on one scalar of a kernel that reads or writes through a null
    pointer: whatever the other reads give, the outcome is undefined. *)
Ltac through_null :=
  unfold bind;
  repeat match goal with
         | |- context [load (Some ?l) ?i ?s] =>
             let H := fresh in
             pose proof (load_Ok_or_Undefined (Some l) i s) as H;
             destruct (load (Some l) i s); try done; clear H
         | |- context [@load ?S ?p ?i ?s] =>
             is_var p;
             let H := fresh in
             pose proof (@load_Ok_or_Undefined S p i s) as H;
             destruct (@load S p i s); try done; clear H
         end.

(** The two loops of a kernel over a block, when the work on any scalar is
    undefined under [I]. *)
Lemma kernel_stays {S B} (I : B -> Prop) (body : Z -> Z -> B -> M S B)
    (rs cs : Z) (b : B) (s : S) :
  (forall r c b s, I b -> body r c b s = Undefined) ->
  I b ->
  stays I (forM (range rs) (fun r b =>
             forM (range cs) (fun c b => body r c b) b) b s).
Proof.
  intros Hbad Hb. apply stays_forM; [done|]. intros r b' s' _ Hb'.
  apply stays_forM; [done|]. intros c b'' s'' _ Hb''. by rewrite Hbad.
Qed.

Lemma kernel_Undefined {S B} (I : B -> Prop) (body : Z -> Z -> B -> M S B)
    (rs cs : Z) (b : B) (s : S) :
  (forall r c b s, I b -> body r c b s = Undefined) ->
  0 < rs -> 0 < cs -> I b ->
  forM (range rs) (fun r b => forM (range cs) (fun c b => body r c b) b) b s
  = Undefined.
Proof.
  intros Hbad Hrs Hcs Hb. apply (forM_Undefined_inv I _ _ 0); [done | | |].
  - intros r b' s' _ Hb'. apply stays_forM; [done|].
    intros c b'' s'' _ Hb''. by rewrite Hbad.
  - unfold range. apply elem_of_seqZ. lia.
  - intros b' s' Hb'. apply (forM_Undefined_inv I _ _ 0); [done | | |].
    + intros c b'' s'' _ Hb''. by rewrite Hbad.
    + unfold range. apply elem_of_seqZ. lia.
    + intros b'' s'' Hb''. by apply Hbad.
Qed.

Lemma fill_None {S} (n v : Z) (s : S) :
  fill None n v s = Undefined \/ fill None n v s = Ok None s.
Proof.
  unfold fill. case_decide as Hn; [|by left].
  destruct (decide (n = 0)) as [->|Hne]; [by right|]. left.
  unfold range. rewrite seqZ_cons by lia. reflexivity.
Qed.

(** X20. Where the debug checks are compiled out no null argument is
    caught: construction from a null descriptor and ToDenseMatrix and
    ToTripletSparseMatrix with a null output are undefined behaviour at
    once, and RightMultiply, LeftMultiply, SquaredColumnNorm and ScaleColumns
    with a null vector are undefined behaviour on every matrix that stores
    at least one scalar. *)
Theorem null_arguments_unchecked (heap : nat -> Z) (m : BlockSparseMatrix)
    (p : ptr) :
  BlockSparseMatrix_new false heap None tt = Undefined /\
  ToDenseMatrix false None m = Undefined /\
  ToTripletSparseMatrix false None m = Undefined /\
  (matrix_invariant m -> 0 < num_nonzeros_ m ->
   RightMultiply false None p m = Undefined /\
   RightMultiply false p None m = Undefined /\
   LeftMultiply false None p m = Undefined /\
   LeftMultiply false p None m = Undefined /\
   SquaredColumnNorm false None m = Undefined /\
   ScaleColumns false None m = Undefined).
Proof.
  split; [reflexivity|]. split; [reflexivity|]. split; [reflexivity|].
  intros Hinv Hnnz.
  destruct (stored_scalar_cell m Hinv Hnnz)
    as (row & cell & cs & cp & Hrow & Hcell & Hrs & Ecs & Hcs & Ecp).
  split_and!.
  - unfold RightMultiply, DCHECK_NOTNULL. rewrite !bind_ret, bind_get.
    rewrite (bind_Ok values_get _ m (Some (values_ m)) m eq_refl).
    apply (visit_cells_Undefined (fun _ => True)
      (fun row cell cp cs y =>
         MatrixVectorMultiply (Some (values_ m)) (Cell.position cell)
           (Block.size (block row)) cs None cp y (Block.position (block row)))
      _ row cell cs cp); try done.
    + intros rw c cp' cs' y s _. unfold MatrixVectorMultiply.
      apply (kernel_stays (fun _ => True)); [|done]. intros. through_null.
    + intros y s _. unfold MatrixVectorMultiply.
      apply (kernel_Undefined (fun _ => True)); try done. intros. through_null.
  - unfold RightMultiply, DCHECK_NOTNULL. rewrite !bind_ret, bind_get.
    rewrite (bind_Ok values_get _ m (Some (values_ m)) m eq_refl).
    apply (visit_cells_Undefined (fun y => y = None)
      (fun row cell cp cs y =>
         MatrixVectorMultiply (Some (values_ m)) (Cell.position cell)
           (Block.size (block row)) cs p cp y (Block.position (block row)))
      _ row cell cs cp); try done.
    + intros rw c cp' cs' y s Hy. unfold MatrixVectorMultiply.
      apply (kernel_stays (fun y => y = None)); [|done]. intros r c0 b s0 ->. through_null.
    + intros y s Hy. unfold MatrixVectorMultiply.
      apply (kernel_Undefined (fun y => y = None)); try done. intros r c0 b s0 ->. through_null.
  - unfold LeftMultiply, DCHECK_NOTNULL. rewrite !bind_ret, bind_get.
    rewrite (bind_Ok values_get _ m (Some (values_ m)) m eq_refl).
    apply (visit_cells_Undefined (fun _ => True)
      (fun row cell cp cs y =>
         MatrixTransposeVectorMultiply (Some (values_ m)) (Cell.position cell)
           (Block.size (block row)) cs None (Block.position (block row)) y cp)
      _ row cell cs cp); try done.
    + intros rw c cp' cs' y s _. unfold MatrixTransposeVectorMultiply.
      apply (kernel_stays (fun _ => True)); [|done]. intros. through_null.
    + intros y s _. unfold MatrixTransposeVectorMultiply.
      apply (kernel_Undefined (fun _ => True)); try done. intros. through_null.
  - unfold LeftMultiply, DCHECK_NOTNULL. rewrite !bind_ret, bind_get.
    rewrite (bind_Ok values_get _ m (Some (values_ m)) m eq_refl).
    apply (visit_cells_Undefined (fun y => y = None)
      (fun row cell cp cs y =>
         MatrixTransposeVectorMultiply (Some (values_ m)) (Cell.position cell)
           (Block.size (block row)) cs p (Block.position (block row)) y cp)
      _ row cell cs cp); try done.
    + intros rw c cp' cs' y s Hy. unfold MatrixTransposeVectorMultiply.
      apply (kernel_stays (fun y => y = None)); [|done]. intros r c0 b s0 ->. through_null.
    + intros y s Hy. unfold MatrixTransposeVectorMultiply.
      apply (kernel_Undefined (fun y => y = None)); try done. intros r c0 b s0 ->. through_null.
  - unfold SquaredColumnNorm, DCHECK_NOTNULL. rewrite !bind_ret, bind_get.
    destruct (fill_None (S:=BlockSparseMatrix) (num_cols_ m) 0 m) as [E|E];
      [by apply bind_Undefined|].
    rewrite (bind_Ok _ _ _ _ _ E).
    rewrite (bind_Ok values_get _ m (Some (values_ m)) m eq_refl).
    apply (visit_cells_Undefined (fun x => x = None)
      (fun row cell cp cs x =>
         add_colwise_squaredNorm (Some (values_ m)) (Cell.position cell)
           (Block.size (block row)) cs x cp)
      _ row cell cs cp); try done.
    + intros rw c cp' cs' x s Hx. unfold add_colwise_squaredNorm.
      apply (kernel_stays (fun y => y = None)); [|done]. intros r c0 b s0 ->. through_null.
    + intros x s Hx. unfold add_colwise_squaredNorm.
      apply (kernel_Undefined (fun y => y = None)); try done. intros r c0 b s0 ->. through_null.
  - unfold ScaleColumns, DCHECK_NOTNULL. rewrite !bind_ret, bind_get.
    rewrite (bind_Ok values_get _ m (Some (values_ m)) m eq_refl).
    apply bind_Undefined.
    apply (visit_cells_Undefined (fun _ => True)
      (fun row cell cp cs A =>
         scale_columns_in_place A (Cell.position cell)
           (Block.size (block row)) cs None cp)
      _ row cell cs cp); try done.
    + intros rw c cp' cs' A s _. unfold scale_columns_in_place.
      apply (kernel_stays (fun _ => True)); [|done]. intros. through_null.
    + intros A s _. unfold scale_columns_in_place.
      apply (kernel_Undefined (fun _ => True)); try done. intros. through_null.
Qed.

Lemma null_arguments_unchecked_witness :
  matrix_invariant ex_m /\
  RightMultiply false None (Some [4; 5; 6]) ex_m = Undefined /\
  RightMultiply false (Some [1; 10; 100]) None ex_m = Undefined /\
  LeftMultiply false None (Some [4; 5; 6]) ex_m = Undefined /\
  LeftMultiply false (Some [1; 2; 3]) None ex_m = Undefined /\
  SquaredColumnNorm false None ex_m = Undefined /\
  ScaleColumns false None ex_m = Undefined.
Proof.
  split; [exact ex_m_invariant|].
  destruct (null_arguments_unchecked (fun _ => 0) ex_m (Some [4; 5; 6]))
    as (_ & _ & _ & H1).
  destruct (null_arguments_unchecked (fun _ => 0) ex_m (Some [1; 10; 100]))
    as (_ & _ & _ & H2).
  destruct (null_arguments_unchecked (fun _ => 0) ex_m (Some [1; 2; 3]))
    as (_ & _ & _ & H3).
  destruct (H1 ex_m_invariant eq_refl) as (R1 & _ & L1 & _ & N & Sc).
  destruct (H2 ex_m_invariant eq_refl) as (_ & R2 & _).
  destruct (H3 ex_m_invariant eq_refl) as (_ & _ & _ & L2 & _).
  split_and!; assumption.
Defined.
